(** * attr-hyperparams: flattening, nesting and sweep expansion

    A shallow embedding of [param_impl.py]:
    - [nest_dict], [flatten_dict] and [DictDataClass.to_flattened_dict]
      over Python dictionaries kept as insertion-ordered association lists;
    - [Parameters.get_settings] over parameter trees, first as a function
      on values, then over an explicit object store where [deepcopy]
      allocates. *)

From Stdlib Require Import List String Ascii ZArith Lia Bool Arith PeanoNat.
From Stdlib Require Import FinFun Permutation.
Import ListNotations.
Local Open Scope string_scope.
Local Open Scope list_scope.

(** ** Exceptions and results *)

Inductive exn : Type :=
| TypeError
| AttributeError
| RecursionError
| SystemError
| ValueError (msg : string).

Inductive result (A : Type) : Type :=
| Ok (x : A)
| Raise (e : exn).
Arguments Ok {A} x.
Arguments Raise {A} e.

Definition bind {A B : Type} (r : result A) (f : A -> result B) : result B :=
  match r with
  | Ok x => f x
  | Raise e => Raise e
  end.

Notation "x <- r ;; k" := (bind r (fun x => k))
  (at level 61, r at next level, right associativity).

(** ** Python [str] methods used by the source *)

(** The character of the default separator. *)
Definition dot : ascii := "."%char.

Module Str.

(** [s.startswith(p)] *)
Fixpoint startswith (s p : string) : bool :=
  match p, s with
  | EmptyString, _ => true
  | String c p', String d s' => Ascii.eqb c d && startswith s' p'
  | String _ _, EmptyString => false
  end.

Fixpoint skip (n : nat) (s : string) : string :=
  match n, s with
  | S n', String _ s' => skip n' s'
  | _, _ => s
  end.

(** [s.endswith(p)] *)
Definition endswith (s p : string) : bool :=
  (String.length p <=? String.length s)%nat
  && String.eqb (skip (String.length s - String.length p) s) p.

(** The text before the leftmost occurrence of [sep] and, when there is
    one, the text after it. *)
Fixpoint cut (sep s : string) {struct s} : string * option string :=
  if startswith s sep then (EmptyString, Some (skip (String.length sep) s))
  else match s with
       | EmptyString => (EmptyString, None)
       | String c s' =>
           let (h, r) := cut sep s' in (String c h, r)
       end.

(** [s.split(sep, 1)]: [ValueError] on an empty separator. *)
Definition split1 (s sep : string) : result (string * option string) :=
  if String.eqb sep EmptyString then Raise (ValueError "empty separator")
  else Ok (cut sep s).

Fixpoint split_fuel (fuel : nat) (s sep : string) : list string :=
  match cut sep s with
  | (h, None) => [h]
  | (h, Some r) =>
      match fuel with
      | O => [h; r]
      | S fuel' => h :: split_fuel fuel' r sep
      end
  end.

(** [s.split(sep)] *)
Definition split (s sep : string) : result (list string) :=
  if String.eqb sep EmptyString then Raise (ValueError "empty separator")
  else Ok (split_fuel (String.length s) s sep).

(** [sep.join(parts)] *)
Fixpoint join (sep : string) (parts : list string) : string :=
  match parts with
  | [] => EmptyString
  | [p] => p
  | p :: ps => (p ++ sep ++ join sep ps)%string
  end.

(** Truth value of a string: non-empty. *)
Definition truthy (s : string) : bool :=
  match s with
  | EmptyString => false
  | String _ _ => true
  end.

(** [c] occurs in [s]. *)
Fixpoint has_char (c : ascii) (s : string) : bool :=
  match s with
  | EmptyString => false
  | String d s' => Ascii.eqb c d || has_char c s'
  end.

End Str.

(** ** Dictionaries

    A Python [dict] keeps its keys in insertion order and holds each key
    once: an association list, updated in place. *)

Section Dicts.
Context {V : Type}.

Fixpoint dict_get (k : string) (d : list (string * V)) : option V :=
  match d with
  | [] => None
  | (k', v) :: d' => if String.eqb k k' then Some v else dict_get k d'
  end.

(** [d[k] = v]: the value is replaced where [k] already sits, a new key
    goes to the end. *)
Fixpoint dict_set (k : string) (v : V) (d : list (string * V))
  : list (string * V) :=
  match d with
  | [] => [(k, v)]
  | (k', v') :: d' =>
      if String.eqb k k' then (k', v) :: d'
      else (k', v') :: dict_set k v d'
  end.

(** [d.update(other)] *)
Definition dict_update (d other : list (string * V)) : list (string * V) :=
  fold_left (fun acc kv => dict_set (fst kv) (snd kv) acc) other d.

Definition keys (d : list (string * V)) : list string := map fst d.

End Dicts.

(** ** Methods called on an instance

    [self.name(...)], for a method [name] of the class, asks the instance
    first: an attribute called [name] hides the method, and the value it
    holds (a number, a string, a list, a [Settings] list, a [Parameters]
    instance) cannot be called. *)

Definition has_attribute {V : Type} (name : string)
  (fields : list (string * V)) : bool :=
  existsb (String.eqb name) (keys fields).

Definition bound_method {V : Type} (name : string)
  (fields : list (string * V)) : result unit :=
  if has_attribute name fields then Raise TypeError else Ok tt.

(** ** PathCodec: [flatten_dict] and [nest_dict] *)

(** Values that are not mappings. *)
Inductive atom : Type :=
| AInt (n : Z)
| AStr (s : string)
| AList (xs : list Z).

Module PathCodec.

(** A value is a [MutableMapping] ([Dict]) or anything else ([Leaf]). *)
#[warnings="-register-all"]
Inductive value : Type :=
| Leaf (a : atom)
| Dict (items : list (string * value)).

Definition dict : Type := list (string * value).

Section FlattenLoop.
Variable flatten_dict : value -> string -> string -> dict.

(** The loop of [flatten_dict] over [d.items()], with [flat_d] as state. *)
Fixpoint flatten_items (items : list (string * value))
  (sep parent_key : string) (flat_d : dict) : dict :=
  match items with
  | [] => flat_d
  | (k, v) :: items' =>
      let k := if Str.truthy parent_key
               then (parent_key ++ sep ++ k)%string else k in
      match v with
      | Dict _ =>
          flatten_items items' sep parent_key
            (dict_update flat_d (flatten_dict v sep k))
      | Leaf _ =>
          flatten_items items' sep parent_key (dict_set k v flat_d)
      end
  end.

End FlattenLoop.

(** [flatten_dict(d, sep, parent_key)], by recursion on the mapping. *)
Fixpoint flatten_value (d : value) (sep parent_key : string) : dict :=
  match d with
  | Leaf _ => []
  | Dict items => flatten_items flatten_value items sep parent_key []
  end.

Definition flatten_dict (d : dict) (sep parent_key : string) : dict :=
  flatten_value (Dict d) sep parent_key.

(** [_nest_dict_rec(k, v, out, sep)]: the state [out] is returned
    updated.  The recursive call of the source does not pass [sep] on, so
    below the first level the default ["."] is used.  The recursion is on
    the remainder of the key; [fuel] bounds it.  Mappings are values
    here: a flat mapping that holds one mapping object under two keys,
    which the source would update through both, is not described. *)
Fixpoint _nest_dict_rec_fuel (fuel : nat) (k : string) (v out : value)
  (sep : string) : result value :=
  match fuel with
  | O => Raise RecursionError
  | S fuel' =>
      kr <- Str.split1 k sep ;;
      match snd kr with
      | Some rest =>
          match out with
          | Leaf _ => Raise AttributeError
          | Dict items =>
              let sub := match dict_get (fst kr) items with
                         | Some x => x
                         | None => Dict []
                         end in
              sub' <- _nest_dict_rec_fuel fuel' rest v sub "." ;;
              Ok (Dict (dict_set (fst kr) sub' items))
          end
      | None =>
          match out with
          | Leaf _ => Raise TypeError
          | Dict items => Ok (Dict (dict_set (fst kr) v items))
          end
      end
  end.

Definition _nest_dict_rec (k : string) (v out : value) (sep : string)
  : result value :=
  _nest_dict_rec_fuel (S (String.length k)) k v out sep.

Fixpoint nest_loop (flat : dict) (out : value) (sep : string)
  : result value :=
  match flat with
  | [] => Ok out
  | (k, v) :: flat' =>
      out' <- _nest_dict_rec k v out sep ;;
      nest_loop flat' out' sep
  end.

(** [nest_dict(flat, sep)] *)
Definition nest_dict (flat : dict) (sep : string) : result value :=
  nest_loop flat (Dict []) sep.

End PathCodec.

(** ** DictDataClass.to_flattened_dict *)

Module DictDataClass.
Import PathCodec.

Section Instance.
(** The instances of a class and [attr.asdict] on them, which the
    [attrs] library supplies. *)
Variable Self : Type.
Variable to_dict : Self -> dict.

(** The loop over [_d.items()] that re-wraps [grid_search] entries. *)
Fixpoint grid_search_loop (_d d : dict) (sep : string) : result dict :=
  match _d with
  | [] => Ok d
  | (k, v) :: _d' =>
      if Str.endswith k "grid_search" then
        parts <- Str.split k sep ;;
        grid_search_loop _d'
          (dict_set (Str.join sep (removelast parts))
                    (Dict [("grid_search", v)]) d) sep
      else grid_search_loop _d' (dict_set k v d) sep
  end.

(** [self.to_flattened_dict(sep)]: [flatten_dict] is called with its
    default separator, as in the source. *)
Definition to_flattened_dict (self : Self) (sep : string) : result dict :=
  let _d := flatten_dict (to_dict self) "." "" in
  grid_search_loop _d [] sep.

End Instance.

(** *** The class methods

    A type annotation as [get_all_disambiguators] looks at it: a class,
    by its name; a [Union[...]] with its arguments; or anything else that
    is not a class (a generic alias such as [List[int]], a string, a type
    variable), for which [issubclass] raises [TypeError] with the message
    the source compares, and whose origin is not [Union]. *)
#[warnings="-register-all"]
Inductive annotation : Type :=
| TClass (name : string)
| TUnion (args : list annotation)
| TOther.

Section Classes.
(** The functions that disambiguate a union type; the union types are
    the keys of the dictionaries, by name. *)
Variable Func : Type.
(** [issubclass(t, DictDataClass)] for the class named [t]. *)
Variable is_DictDataClass : string -> bool.
(** [cls.get_disambiguators()], which a subclass overrides: a new
    dictionary at each call, as the [{}] of the base class is. *)
Variable get_disambiguators : string -> list (string * Func).
(** [cls.__annotations__], in order. *)
Variable annotations : string -> list (string * annotation).

Section AnnotationsLoop.
Variable get_all_disambiguators : string -> result (list (string * Func)).

(** The loop over [get_args(t)], which runs inside the [except] clause:
    nothing catches what [issubclass] or the recursive call raise here. *)
Fixpoint union_loop (args : list annotation)
  (disambiguators : list (string * Func)) : result (list (string * Func)) :=
  match args with
  | [] => Ok disambiguators
  | TClass _t :: args' =>
      if is_DictDataClass _t then
        d <- get_all_disambiguators _t ;;
        union_loop args' (dict_update disambiguators d)
      else union_loop args' disambiguators
  | _ :: _ => Raise TypeError
  end.

(** One pass of the loop over [cls.__annotations__.items()].  A
    [TypeError] that leaves the [try] block is caught, whether [issubclass]
    raised it or the recursive call did; the handler then does something
    only when the origin of [t] is [Union], which it is not for a class. *)
Definition annotation_step (t : annotation)
  (disambiguators : list (string * Func)) : result (list (string * Func)) :=
  match t with
  | TClass c =>
      if is_DictDataClass c then
        match get_all_disambiguators c with
        | Ok d => Ok (dict_update disambiguators d)
        | Raise TypeError => Ok disambiguators
        | Raise e => Raise e
        end
      else Ok disambiguators
  | TUnion args => union_loop args disambiguators
  | TOther => Ok disambiguators
  end.

Fixpoint annotations_loop (items : list (string * annotation))
  (disambiguators : list (string * Func)) : result (list (string * Func)) :=
  match items with
  | [] => Ok disambiguators
  | (_, t) :: items' =>
      d <- annotation_step t disambiguators ;;
      annotations_loop items' d
  end.

End AnnotationsLoop.

(** [cls.get_all_disambiguators()]; [fuel] is the depth of recursion the
    interpreter still allows. *)
Fixpoint get_all_disambiguators (fuel : nat) (cls : string)
  : result (list (string * Func)) :=
  match fuel with
  | O => Raise RecursionError
  | S fuel' =>
      annotations_loop (get_all_disambiguators fuel') (annotations cls)
        (get_disambiguators cls)
  end.

(** The instances that [cattr] builds, and [converter.structure(d, cls)]
    of a new converter on which the hooks of [disambiguators] have been
    registered in order; the library supplies it. *)
Variable Object : Type.
Variable structure : list (string * Func) -> value -> string -> result Object.

(** [cls.from_dict(d)] *)
Definition from_dict (fuel : nat) (cls : string) (d : value) : result Object :=
  disambiguators <- get_all_disambiguators fuel cls ;;
  structure disambiguators d cls.

(** [cls.from_flattened_dict(d)]: the argument [nest_dict(d)] is
    evaluated before [from_dict] is entered. *)
Definition from_flattened_dict (fuel : nat) (cls : string) (d : dict)
  : result Object :=
  nested <- nest_dict d "." ;;
  from_dict fuel cls nested.

End Classes.

End DictDataClass.

(** ** Parameters.get_settings on values *)

Module Sweep.

(** A field value is a [Parameters] instance (its attributes in
    declaration order), a [Settings] list, or anything else. *)
#[warnings="-register-all"]
Inductive value : Type :=
| VLeaf (a : atom)
| VParams (fields : list (string * value))
| VSettings (data : list value).

Definition is_Parameters (v : value) : bool :=
  match v with
  | VParams _ => true
  | _ => false
  end.

Definition is_Settings (v : value) : bool :=
  match v with
  | VSettings _ => true
  | _ => false
  end.

(** [itertools.product] over the pools, as the library documents it:
    [result = [[]]; for pool in pools:
       result = [x+[y] for x in result for y in pool]]. *)
Definition product {A : Type} (pools : list (list A)) : list (list A) :=
  fold_left
    (fun result pool => flat_map (fun x => map (fun y => x ++ [y]) pool) result)
    pools [[]].

(** Values carry no identity here, so a deep copy is the value itself.
    An instance is copied attribute by attribute; attributes whose name
    starts with two underscores, which [copy.deepcopy] may take for its
    own protocol ([__deepcopy__], [__reduce_ex__]), are not described. *)
Definition deepcopy (v : value) : value := v.

(** [for k, v in zip(keys, values): setattr(_setting, k, v)] *)
Fixpoint assign (kvs : list (string * value))
  (_setting : list (string * value)) : list (string * value) :=
  match kvs with
  | [] => _setting
  | (k, v) :: kvs' => assign kvs' (dict_set k v _setting)
  end.

(** The loop over the tuples of [product]: [_setting] is reused from
    one tuple to the next. *)
Fixpoint settings_loop (tuples : list (list value)) (keys : list string)
  (_setting : list (string * value)) (settings : list value) : list value :=
  match tuples with
  | [] => settings
  | values :: tuples' =>
      let _setting' := assign (combine keys values) _setting in
      settings_loop tuples' keys _setting'
        (settings ++ [deepcopy (VParams _setting')])
  end.

Section Recursion.
Variable get_settings : value -> result (list value).

(** [[s for _v in v for s in _v.get_settings()]] *)
Fixpoint expand_each (data : list value) : result (list value) :=
  match data with
  | [] => Ok []
  | _v :: data' =>
      ss <- get_settings _v ;;
      rest <- expand_each data' ;;
      Ok (ss ++ rest)
  end.

(** What one pass of the first loop appends to [value_lists] for the
    field [k] with value [v]; [None] for a field that is skipped. *)
Definition candidates (k : string) (v : value)
  : result (option (list value)) :=
  match v with
  | VParams _ => vs <- get_settings v ;; Ok (Some vs)
  | VSettings data =>
      match data with
      | [] => Raise (ValueError ("Empty settings list for " ++ k)%string)
      | v0 :: _ =>
          if is_Parameters v0
          then vs <- expand_each data ;; Ok (Some vs)
          else Ok (Some data)
      end
  | VLeaf _ => Ok None
  end.

(** The loop over [self.items()]. *)
Fixpoint collect (items : list (string * value)) (keys : list string)
  (value_lists : list (list value))
  : result (list string * list (list value)) :=
  match items with
  | [] => Ok (keys, value_lists)
  | (k, v) :: items' =>
      c <- candidates k v ;;
      match c with
      | Some vs => collect items' (keys ++ [k]) (value_lists ++ [vs])
      | None => collect items' keys value_lists
      end
  end.

End Recursion.

(** [self.get_settings()]: only [Parameters] has the method, and an
    attribute of that name hides it; the body starts with
    [self.items()], which an attribute [items] hides as well. *)
Fixpoint get_settings (self : value) : result (list value) :=
  match self with
  | VParams fields =>
      _ <- bound_method "get_settings" fields ;;
      _ <- bound_method "items" fields ;;
      kv <- collect get_settings fields [] [] ;;
      match deepcopy self with
      | VParams _setting =>
          Ok (settings_loop (product (snd kv)) (fst kv) _setting [])
      | _ => Raise AttributeError
      end
  | _ => Raise AttributeError
  end.

End Sweep.

(** ** Parameters.get_settings on an object store

    Objects have an identity here: a store maps addresses to objects, an
    object holds the addresses of its parts, [deepcopy] allocates and
    assignments update in place. *)

Module Store.

Definition addr : Type := nat.

(** [OLeaf]: a value that [deepcopy] returns as it is (a number, a
    string, [None]); [OList]: a plain list, copied by [deepcopy] and not
    expanded by [get_settings]; [OParams]: a [Parameters] instance, with
    its attributes in declaration order; [OSettings]: a [Settings] list. *)
Inductive obj : Type :=
| OLeaf (a : atom)
| OList (items : list addr)
| OParams (fields : list (string * addr))
| OSettings (data : list addr).

Definition store : Type := list obj.

(** The [memo] dictionary of [deepcopy]: original to copy. *)
Definition memo : Type := list (addr * addr).

Definition children (o : obj) : list addr :=
  match o with
  | OLeaf _ => []
  | OList items => items
  | OParams fields => map snd fields
  | OSettings data => data
  end.

(** The object of the class of [o] with the parts [cs]. *)
Definition rebuild (o : obj) (cs : list addr) : obj :=
  match o with
  | OLeaf a => OLeaf a
  | OList _ => OList cs
  | OParams fields => OParams (combine (map fst fields) cs)
  | OSettings _ => OSettings cs
  end.

Fixpoint memo_get (m : memo) (x : addr) : option addr :=
  match m with
  | [] => None
  | (a, b) :: m' => if Nat.eqb x a then Some b else memo_get m' x
  end.

Fixpoint update (h : store) (a : addr) (o : obj) : store :=
  match h, a with
  | [], _ => []
  | _ :: h', O => o :: h'
  | x :: h', S a' => x :: update h' a' o
  end.

Section CopyAll.
Variable copy : store -> memo -> addr -> result (store * memo * addr).

(** The parts of an object are copied in order, the store and the memo
    going from one to the next. *)
Fixpoint copy_all (h : store) (m : memo) (xs : list addr)
  : result (store * memo * list addr) :=
  match xs with
  | [] => Ok (h, m, [])
  | x :: xs' =>
      r <- copy h m x ;;
      r' <- copy_all (fst (fst r)) (snd (fst r)) xs' ;;
      Ok (fst (fst r'), snd (fst r'), snd r :: snd r')
  end.

End CopyAll.

(** [copy.deepcopy(x, memo)]: an object already in [memo] is answered
    from it; a leaf is returned as it is; otherwise the empty object of
    the class is created and entered in [memo], the parts are copied, and
    the new object receives them.  [fuel] is the depth of recursion the
    interpreter still allows.  As on values, attributes whose name starts
    with two underscores are not described. *)
Fixpoint deepcopy_fuel (fuel : nat) (h : store) (m : memo) (x : addr)
  : result (store * memo * addr) :=
  match fuel with
  | O => Raise RecursionError
  | S fuel' =>
      match memo_get m x with
      | Some y => Ok (h, m, y)
      | None =>
          match nth_error h x with
          | None => Raise SystemError
          | Some (OLeaf _) => Ok (h, m, x)
          | Some o =>
              let y := List.length h in
              r <- copy_all (deepcopy_fuel fuel') (h ++ [rebuild o []])
                     ((x, y) :: m) (children o) ;;
              Ok (update (fst (fst r)) y (rebuild o (snd r)),
                  snd (fst r), y)
          end
      end
  end.

(** [deepcopy(x)], with a memo of its own. *)
Definition deepcopy (fuel : nat) (h : store) (x : addr)
  : result (store * addr) :=
  r <- deepcopy_fuel fuel h [] x ;; Ok (fst (fst r), snd r).

(** An entry of [value_lists]: a list built by the method, or the
    [Settings] object of the field itself. *)
Inductive pool : Type :=
| PList (items : list addr)
| PSettings (v : addr).

(** What [product] sees when it iterates the entry. *)
Definition read_pool (h : store) (p : pool) : result (list addr) :=
  match p with
  | PList items => Ok items
  | PSettings v =>
      match nth_error h v with
      | Some (OSettings data) => Ok data
      | _ => Raise SystemError
      end
  end.

Fixpoint read_pools (h : store) (ps : list pool) : result (list (list addr)) :=
  match ps with
  | [] => Ok []
  | p :: ps' =>
      l <- read_pool h p ;;
      ls <- read_pools h ps' ;;
      Ok (l :: ls)
  end.

(** [setattr(_setting, k, v)] on a [Parameters] object. *)
Definition setattr (h : store) (a : addr) (k : string) (v : addr)
  : result store :=
  match nth_error h a with
  | Some (OParams fields) => Ok (update h a (OParams (dict_set k v fields)))
  | Some _ => Raise AttributeError
  | None => Raise SystemError
  end.

Fixpoint assign (h : store) (_setting : addr) (kvs : list (string * addr))
  : result store :=
  match kvs with
  | [] => Ok h
  | (k, v) :: kvs' =>
      h' <- setattr h _setting k v ;;
      assign h' _setting kvs'
  end.

(** The loop over the tuples of the product. *)
Fixpoint settings_loop (fuel : nat) (tuples : list (list addr))
  (keys : list string) (_setting : addr) (h : store) (settings : list addr)
  : result (store * list addr) :=
  match tuples with
  | [] => Ok (h, settings)
  | values :: tuples' =>
      h1 <- assign h _setting (combine keys values) ;;
      c <- deepcopy fuel h1 _setting ;;
      settings_loop fuel tuples' keys _setting (fst c) (settings ++ [snd c])
  end.

Section Recursion.
Variable get_settings : store -> addr -> result (store * list addr).

Fixpoint expand_each (h : store) (data : list addr)
  : result (store * list addr) :=
  match data with
  | [] => Ok (h, [])
  | _v :: data' =>
      r <- get_settings h _v ;;
      r' <- expand_each (fst r) data' ;;
      Ok (fst r', snd r ++ snd r')
  end.

Definition candidates (h : store) (k : string) (v : addr)
  : result (store * option pool) :=
  match nth_error h v with
  | None => Raise SystemError
  | Some (OParams _) =>
      r <- get_settings h v ;; Ok (fst r, Some (PList (snd r)))
  | Some (OSettings data) =>
      match data with
      | [] => Raise (ValueError ("Empty settings list for " ++ k))
      | v0 :: _ =>
          match nth_error h v0 with
          | None => Raise SystemError
          | Some (OParams _) =>
              r <- expand_each h data ;; Ok (fst r, Some (PList (snd r)))
          | Some _ => Ok (h, Some (PSettings v))
          end
      end
  | Some _ => Ok (h, None)
  end.

Fixpoint collect (h : store) (items : list (string * addr))
  (keys : list string) (value_lists : list pool)
  : result (store * (list string * list pool)) :=
  match items with
  | [] => Ok (h, (keys, value_lists))
  | (k, v) :: items' =>
      c <- candidates h k v ;;
      match snd c with
      | Some p => collect (fst c) items' (keys ++ [k]) (value_lists ++ [p])
      | None => collect (fst c) items' keys value_lists
      end
  end.

End Recursion.

(** [self.get_settings()] in the store [h]: the new store and the
    addresses of the outputs.  The method and the [items] that its body
    calls are looked up on the instance first. *)
Fixpoint get_settings (fuel : nat) (h : store) (self : addr)
  : result (store * list addr) :=
  match fuel with
  | O => Raise RecursionError
  | S fuel' =>
      match nth_error h self with
      | Some (OParams fields) =>
          _ <- bound_method "get_settings" fields ;;
          _ <- bound_method "items" fields ;;
          r <- collect (get_settings fuel') h fields [] [] ;;
          c <- deepcopy fuel' (fst r) self ;;
          pools <- read_pools (fst c) (snd (snd r)) ;;
          settings_loop fuel' (Sweep.product pools) (fst (snd r))
            (snd c) (fst c) []
      | Some _ => Raise AttributeError
      | None => Raise SystemError
      end
  end.

End Store.

(** ** DictDataClass as a mapping, on the object store *)

Module Attributes.
Import Store.

(** What [getattr] finds: the value of an attribute of the instance, or
    a member of its class (a method, a class attribute). *)
Inductive found : Type :=
| Attribute (a : addr)
| ClassMember (name : string).

Section Class.
(** The names that the class of the instance defines; none of them is a
    property, so an attribute of the instance comes first. *)
Variable class_namespace : string -> bool.

(** [vars(self)]: the attributes of an instance, in the order they were
    set.  Only the instances of [DictDataClass] have the methods below. *)
Definition vars (h : store) (self : addr) : result (list (string * addr)) :=
  match nth_error h self with
  | Some (OParams fields) => Ok fields
  | Some _ => Raise AttributeError
  | None => Raise SystemError
  end.

Definition __iter__ (h : store) (self : addr) : result (list string) :=
  fields <- vars h self ;; Ok (keys fields).

(** [getattr(self, item)] *)
Definition getattr (h : store) (self : addr) (item : string) : result found :=
  fields <- vars h self ;;
  match dict_get item fields with
  | Some a => Ok (Attribute a)
  | None =>
      if class_namespace item then Ok (ClassMember item)
      else Raise AttributeError
  end.

Definition __getitem__ (h : store) (self : addr) (item : string)
  : result found :=
  getattr h self item.

Definition __setitem__ (h : store) (self : addr) (key : string) (value : addr)
  : result store :=
  setattr h self key value.

Definition __len__ (h : store) (self : addr) : result nat :=
  fields <- vars h self ;; Ok (List.length fields).

(** The items view that [Mapping.items] returns, iterated: for each key
    of [__iter__], the key and [self[key]]. *)
Fixpoint items_of (h : store) (self : addr) (ks : list string)
  : result (list (string * found)) :=
  match ks with
  | [] => Ok []
  | k :: ks' =>
      v <- __getitem__ h self k ;;
      rest <- items_of h self ks' ;;
      Ok ((k, v) :: rest)
  end.

(** [self.items()]: [items] is looked up like any other name, so an
    attribute of the instance comes before the method of [Mapping], and
    calling what it holds raises [TypeError]. *)
Definition items (h : store) (self : addr) : result (list (string * found)) :=
  m <- getattr h self "items" ;;
  match m with
  | Attribute _ => Raise TypeError
  | ClassMember _ => ks <- __iter__ h self ;; items_of h self ks
  end.

End Class.

End Attributes.

(* ================================================================== *)
(** * Vocabulary of the statements *)

Module PathSpec.
Import PathCodec.

(** A key that is not empty and holds no ["."]. *)
Definition plain_key (k : string) : bool :=
  Str.truthy k && negb (Str.has_char "."%char k).

Fixpoint distinct (l : list string) : bool :=
  match l with
  | [] => true
  | x :: l' => negb (existsb (String.eqb x) l') && distinct l'
  end.

Definition nonempty_mapping (v : value) : bool :=
  match v with
  | Dict [] => false
  | _ => true
  end.

(** A nested mapping all of whose keys are plain and distinct at each
    level, and none of whose inner mappings is empty. *)
Fixpoint well_keyed (v : value) : bool :=
  match v with
  | Leaf _ => true
  | Dict items =>
      distinct (keys items)
      && forallb (fun kv => plain_key (fst kv)
                            && nonempty_mapping (snd kv)
                            && well_keyed (snd kv)) items
  end.

(** The entry [kv] of an inner mapping seen from its parent key [k]. *)
Definition under (k : string) (kv : string * value) : string * value :=
  ((k ++ "." ++ fst kv)%string, snd kv).

(** The leaves below one entry, given those of its value. *)
Definition entry_paths (paths : value -> dict) (kv : string * value) : dict :=
  match snd kv with
  | Leaf _ => [kv]
  | Dict _ => map (under (fst kv)) (paths (snd kv))
  end.

(** The leaves of a mapping with their dotted paths, in order. *)
Fixpoint paths (v : value) : dict :=
  match v with
  | Leaf _ => []
  | Dict items => flat_map (entry_paths paths) items
  end.

(** The key [q] seen from the parent key [p] of [flatten_dict]. *)
Definition joined (p : string) (kv : string * value) : string * value :=
  ((if Str.truthy p then p ++ "." ++ fst kv else fst kv)%string, snd kv).

(** The last segment of a dotted key. *)
Definition last_segment (k : string) : string :=
  last (Str.split_fuel (String.length k) k ".") EmptyString.

(** The value found by following the keys [segs] down from [v]. *)
Fixpoint lookup_path (segs : list string) (v : value) : option value :=
  match segs with
  | [] => Some v
  | s :: segs' =>
      match v with
      | Dict items =>
          match dict_get s items with
          | Some x => lookup_path segs' x
          | None => None
          end
      | Leaf _ => None
      end
  end.

(** A value that is not a mapping. *)
Definition is_Leaf (v : value) : bool :=
  match v with
  | Leaf _ => true
  | Dict _ => false
  end.

(** [k] and [q] are the same path, or one continues the other. *)
Definition clash (k q : string) : bool :=
  String.eqb k q
  || Str.startswith q (k ++ ".")
  || Str.startswith k (q ++ ".").

(** No two of the keys clash. *)
Fixpoint prefix_free (ks : list string) : bool :=
  match ks with
  | [] => true
  | k :: ks' => forallb (fun q => negb (clash k q)) ks' && prefix_free ks'
  end.

(** No segment of the dotted key is empty. *)
Definition segments_plain (k : string) : bool :=
  forallb Str.truthy (Str.split_fuel (String.length k) k ".").

End PathSpec.

Module FlattenSpec.
Import PathCodec DictDataClass.

(** The flattening that takes the separator as its argument throughout:
    the keys are joined with [sep], then the [grid_search] entries are
    re-wrapped with the same [sep]. *)
Definition flatten_with (d : dict) (sep : string) : result dict :=
  grid_search_loop (flatten_dict d sep "") [] sep.

End FlattenSpec.

Module GridSpec.
Import PathCodec PathSpec.

(** The mapping [{"grid_search": values}] that [tune.grid_search]
    builds, with values that are no mapping. *)
Definition is_grid_search (v : value) : bool :=
  match v with
  | Dict [(k, Leaf _)] => String.eqb k "grid_search"
  | _ => false
  end.

(** No key of a leaf ends in [grid_search], but in the mappings of
    [tune.grid_search]; and such a mapping is the value of a field. *)
Fixpoint grid_shaped (v : value) : bool :=
  match v with
  | Leaf _ => true
  | Dict items =>
      forallb (fun kv =>
                 match snd kv with
                 | Leaf _ => negb (Str.endswith (fst kv) "grid_search")
                 | Dict _ => is_grid_search (snd kv) || grid_shaped (snd kv)
                 end) items
  end.

(** The entries below one entry, a [grid_search] mapping being kept
    whole. *)
Definition entry_paths_gs (paths : value -> dict) (kv : string * value)
  : dict :=
  match snd kv with
  | Leaf _ => [kv]
  | Dict _ =>
      if is_grid_search (snd kv) then [kv]
      else map (under (fst kv)) (paths (snd kv))
  end.

Fixpoint paths_gs (v : value) : dict :=
  match v with
  | Leaf _ => []
  | Dict items => flat_map (entry_paths_gs paths_gs) items
  end.

(** What the loop of [to_flattened_dict] stores for one entry, with the
    default separator. *)
Definition rewrite_entry (kv : string * value) : string * value :=
  if Str.endswith (fst kv) "grid_search"
  then (Str.join "."
          (removelast
             (Str.split_fuel (String.length (fst kv)) (fst kv) ".")),
        Dict [("grid_search", snd kv)])
  else kv.

End GridSpec.

Module ClassSpec.
Import DictDataClass.

Section Classes.
Variable is_DictDataClass : string -> bool.
Variable annotations : string -> list (string * annotation).

(** A class that is no [DictDataClass]. *)
Definition other_class (t : annotation) : bool :=
  match t with
  | TClass c => negb (is_DictDataClass c)
  | _ => false
  end.

Definition not_a_class (t : annotation) : bool :=
  match t with
  | TClass _ => false
  | _ => true
  end.

(** An annotation without a [DictDataClass] in it, and without a
    [Union] argument that is not a class. *)
Definition inert (t : annotation) : bool :=
  match t with
  | TClass c => negb (is_DictDataClass c)
  | TUnion args => forallb other_class args
  | TOther => true
  end.

(** The [DictDataClass] that an annotation is, or that a [Union] has
    among its arguments. *)
Definition named_in (t : annotation) : list string :=
  match t with
  | TClass c => if is_DictDataClass c then [c] else []
  | _ => []
  end.

Definition classes_of (t : annotation) : list string :=
  match t with
  | TUnion args => flat_map named_in args
  | _ => named_in t
  end.

(** The classes that the annotations of [cls] lead to in one step. *)
Definition mentions (cls : string) : list string :=
  flat_map (fun ft => classes_of (snd ft)) (annotations cls).

Inductive reachable : string -> string -> Prop :=
| reachable_here (c : string) : reachable c c
| reachable_step (c c' c'' : string) :
    In c' (mentions c) -> reachable c' c'' -> reachable c c''.

Section Results.
Variable Func : Type.
Variable get_disambiguators : string -> list (string * Func).

Definition returns_or_type_error (r : result (list (string * Func))) : Prop :=
  (exists d, r = Ok d) \/ r = Raise TypeError.

(** Every entry of [d] is declared by [cls] or by a class reached from
    it. *)
Definition from_reachable (cls : string) (d : list (string * Func)) : Prop :=
  forall u g, In (u, g) d ->
    exists c, reachable cls c /\ In (u, g) (get_disambiguators c).

End Results.

End Classes.

Arguments returns_or_type_error {Func} r.
Arguments from_reachable is_DictDataClass annotations {Func}
  get_disambiguators cls d.

(** A small hierarchy for examples.  [Outer] has a field of the class
    [Inner] and one of a union of [A] and [int]; [Wrapper] has a field of
    the class [Inner] as its last one; [Inner] has a field of the union
    of [A] and [B]; [A] has fields of types that are no [DictDataClass];
    [Broken] has a field [Optional[List[int]]], and [Holder] a field of
    the class [Broken]. *)
Definition example_classes : list string :=
  ["Outer"; "Wrapper"; "Inner"; "A"; "B"; "Node"; "Broken"; "Holder"].

Definition example_is_DictDataClass (c : string) : bool :=
  existsb (String.eqb c) example_classes.

Definition example_annotations (c : string) : list (string * annotation) :=
  if String.eqb c "Outer" then
    [("inner", TClass "Inner"); ("n", TClass "int");
     ("alt", TUnion [TClass "A"; TClass "int"])]
  else if String.eqb c "Wrapper" then
    [("n", TClass "int"); ("inner", TClass "Inner")]
  else if String.eqb c "Inner" then
    [("x", TUnion [TClass "A"; TClass "B"]); ("names", TOther)]
  else if String.eqb c "A" then
    [("n", TClass "int"); ("names", TOther);
     ("size", TUnion [TClass "int"; TClass "NoneType"])]
  else if String.eqb c "Broken" then
    [("sizes", TUnion [TOther; TClass "NoneType"])]
  else if String.eqb c "Holder" then [("part", TClass "Broken")]
  else [].

Definition example_get_disambiguators (c : string) : list (string * string) :=
  if String.eqb c "Outer" then
    [("Union[A, int]", "outer_a_or_int"); ("Union[A, B]", "outer_a_or_b")]
  else if String.eqb c "Wrapper" then [("Union[A, B]", "wrapper_a_or_b")]
  else if String.eqb c "Inner" then [("Union[A, B]", "inner_a_or_b")]
  else if String.eqb c "A" then [("Union[int, str]", "int_or_str")]
  else if String.eqb c "Broken" then [("Union[X, Y]", "x_or_y")]
  else if String.eqb c "Holder" then [("Union[P, Q]", "p_or_q")]
  else [].

Definition example_rank (c : string) : nat :=
  if String.eqb c "Outer" then 2
  else if String.eqb c "Wrapper" then 2
  else if String.eqb c "Inner" then 1
  else if String.eqb c "Holder" then 1
  else 0.

(** The same hierarchy, with a class [Node] that has a field of its own
    class. *)
Definition example_annotations_with_node (c : string)
  : list (string * annotation) :=
  if String.eqb c "Node" then [("label", TOther); ("next", TClass "Node")]
  else example_annotations c.

End ClassSpec.

Module SweepSpec.
Import Sweep.

(** A varying field holds a [Parameters] instance or a [Settings] list. *)
Definition varying (v : value) : bool := is_Parameters v || is_Settings v.

Definition list_prod (ns : list nat) : nat := fold_right Nat.mul 1 ns.

(** The cartesian product in the words of the specification: the pools
    are taken in order and the last one iterates fastest. *)
Fixpoint cartesian {A : Type} (pools : list (list A)) : list (list A) :=
  match pools with
  | [] => [[]]
  | pool :: pools' =>
      flat_map (fun x => map (cons x) (cartesian pools')) pool
  end.

(** The tree [fields] with the fields [ks] set to [values]. *)
Definition with_values (fields : list (string * value)) (ks : list string)
  (values : list value) : value :=
  VParams (assign (combine ks values) fields).

Definition empty_settings_message (k : string) : string :=
  ("Empty settings list for " ++ k)%string.

(** [has_empty_settings t k]: the field [k] of [t], or of a tree that the
    expansion of [t] expands, holds a [Settings] list without elements. *)
Inductive has_empty_settings : value -> string -> Prop :=
| empty_here (fields : list (string * value)) (k : string) :
    In (k, VSettings []) fields ->
    has_empty_settings (VParams fields) k
| empty_in_field (fields fields' : list (string * value)) (k' k : string) :
    In (k', VParams fields') fields ->
    has_empty_settings (VParams fields') k ->
    has_empty_settings (VParams fields) k
| empty_in_element (fields : list (string * value)) (k' k : string)
    (v0 v : value) (rest : list value) :
    In (k', VSettings (v0 :: rest)) fields ->
    is_Parameters v0 = true ->
    In v (v0 :: rest) ->
    has_empty_settings v k ->
    has_empty_settings (VParams fields) k.

Section Uniform.
Variable uniform : value -> bool.

(** A [Settings] list that starts with a [Parameters] instance holds
    nothing but such instances. *)
Definition uniform_field (v : value) : bool :=
  match v with
  | VLeaf _ => true
  | VParams _ => uniform v
  | VSettings [] => true
  | VSettings (v0 :: rest) =>
      if is_Parameters v0
      then forallb (fun x => is_Parameters x && uniform x) (v0 :: rest)
      else true
  end.

End Uniform.

(** A tree that is valid apart from empty [Settings] lists: in the tree
    and in every tree its expansion expands. *)
Fixpoint uniform (v : value) : bool :=
  match v with
  | VParams fields => forallb (fun kv => uniform_field uniform (snd kv)) fields
  | _ => true
  end.

(** The methods that [get_settings] calls on an instance are not hidden
    by its attributes. *)
Definition methods_visible (fields : list (string * value)) : bool :=
  negb (has_attribute "get_settings" fields)
  && negb (has_attribute "items" fields).

(** No [Parameters] instance of the tree hides them. *)
Fixpoint unshadowed (v : value) : bool :=
  match v with
  | VLeaf _ => true
  | VParams fields =>
      methods_visible fields && forallb (fun kv => unshadowed (snd kv)) fields
  | VSettings data => forallb unshadowed data
  end.

(** No attribute of the tree has a name that starts with two
    underscores: [copy.deepcopy] asks the instance for names of that
    form ([__deepcopy__], [__reduce_ex__]) before it copies the
    attributes one by one. *)
Fixpoint ordinary_names (v : value) : bool :=
  match v with
  | VLeaf _ => true
  | VParams fields =>
      forallb (fun kv => negb (Str.startswith (fst kv) "__")
                         && ordinary_names (snd kv)) fields
  | VSettings data => forallb ordinary_names data
  end.

(** The expansion of [t] returns, or raises the [ValueError] that names
    a field with an empty [Settings] list. *)
Definition expands_or_names_empty (t : value) : Prop :=
  (exists outs, get_settings t = Ok outs)
  \/ (exists k, has_empty_settings t k
                /\ get_settings t
                   = Raise (ValueError (empty_settings_message k))).

Definition expansion_ok (v : value) : Prop :=
  uniform v = true -> unshadowed v = true -> is_Parameters v = true ->
  expands_or_names_empty v.

Definition expansion_ok_below (v : value) : Prop :=
  match v with
  | VSettings data => Forall expansion_ok data
  | _ => expansion_ok v
  end.

(** A tree without a [Settings] list: leaves, and [Parameters] instances
    of such fields. *)
Fixpoint settled (v : value) : bool :=
  match v with
  | VLeaf _ => true
  | VParams fields => forallb (fun kv => settled (snd kv)) fields
  | VSettings _ => false
  end.

(** Distinct field names in every [Parameters] instance of the tree. *)
Fixpoint well_named (v : value) : bool :=
  match v with
  | VLeaf _ => true
  | VParams fields =>
      PathSpec.distinct (keys fields)
      && forallb (fun kv => well_named (snd kv)) fields
  | VSettings data => forallb well_named data
  end.

(** A [Settings] list that does not start with a [Parameters] instance
    holds neither such instances nor [Settings] lists. *)
Fixpoint plain_lists (v : value) : bool :=
  match v with
  | VLeaf _ => true
  | VParams fields => forallb (fun kv => plain_lists (snd kv)) fields
  | VSettings data =>
      match data with
      | [] => true
      | v0 :: _ =>
          if is_Parameters v0 then forallb plain_lists data
          else forallb (fun x => negb (varying x)) data
      end
  end.

(** An expansion that returns has an output. *)
Definition never_empty (v : value) : Prop :=
  forall outs, get_settings v = Ok outs -> 1 <= List.length outs.

(** A tree that is settled and well named, and hides no method. *)
Definition fine (v : value) : bool :=
  settled v && well_named v && unshadowed v.

(** The outputs of [v], if it has any, are fine [Parameters] trees. *)
Definition expands_to_fine (v : value) : Prop :=
  forall outs,
    get_settings v = Ok outs ->
    well_named v = true -> plain_lists v = true ->
    Forall (fun o => fine o = true /\ is_Parameters o = true) outs.

(** The fields [fields] with the varying ones given, in order, the
    values [values]. *)
Fixpoint refill (fields : list (string * value)) (values : list value)
  : list (string * value) :=
  match fields with
  | [] => []
  | (k, v) :: fields' =>
      if varying v then
        match values with
        | x :: values' => (k, x) :: refill fields' values'
        | [] => (k, v) :: refill fields' []
        end
      else (k, v) :: refill fields' values
  end.

(** *** The expansion in the words of the specification

    Step 1 gives every varying field its candidate list, in the declared
    order of the fields: the expansion of the tree it holds; for a
    [Settings] list of trees the expansions of all elements, concatenated
    in list order; otherwise the list itself.  Steps 2 to 4 give one
    output for each tuple of the cartesian product of the candidate
    lists, in the order of the product: the tree with each varying field
    set to its element of the tuple. *)
Inductive expansion : value -> list value -> Prop :=
| expansion_of_tree (fields : list (string * value))
    (cands : list (list value)) :
    candidate_lists fields cands ->
    expansion (VParams fields)
      (map (fun tuple => VParams (refill fields tuple)) (cartesian cands))
with candidate_lists : list (string * value) -> list (list value) -> Prop :=
| no_field : candidate_lists [] []
| fixed_field (k : string) (v : value) (fields : list (string * value))
    (cands : list (list value)) :
    varying v = false ->
    candidate_lists fields cands ->
    candidate_lists ((k, v) :: fields) cands
| tree_field (k : string) (sub : list (string * value)) (outs : list value)
    (fields : list (string * value)) (cands : list (list value)) :
    expansion (VParams sub) outs ->
    candidate_lists fields cands ->
    candidate_lists ((k, VParams sub) :: fields) (outs :: cands)
| tree_list_field (k : string) (data : list value)
    (outss : list (list value)) (fields : list (string * value))
    (cands : list (list value)) :
    data <> [] ->
    forallb is_Parameters data = true ->
    expansions data outss ->
    candidate_lists fields cands ->
    candidate_lists ((k, VSettings data) :: fields)
      (List.concat outss :: cands)
| leaf_list_field (k : string) (data : list value)
    (fields : list (string * value)) (cands : list (list value)) :
    data <> [] ->
    forallb is_Parameters data = false ->
    candidate_lists fields cands ->
    candidate_lists ((k, VSettings data) :: fields) (data :: cands)
with expansions : list value -> list (list value) -> Prop :=
| expansions_nil : expansions [] []
| expansions_cons (v : value) (outs : list value) (data : list value)
    (outss : list (list value)) :
    expansion v outs ->
    expansions data outss ->
    expansions (v :: data) (outs :: outss).

Scheme expansion_mut := Minimality for expansion Sort Prop
  with candidate_lists_mut := Minimality for candidate_lists Sort Prop
  with expansions_mut := Minimality for expansions Sort Prop.

Combined Scheme expansion_mutind
  from expansion_mut, candidate_lists_mut, expansions_mut.

(** What [get_settings] returns for [v] is its expansion in the words
    of the specification. *)
Definition expands_as_specified (v : value) : Prop :=
  forall outs,
    well_named v = true -> get_settings v = Ok outs -> expansion v outs.

End SweepSpec.

Module StoreSpec.
Import Store.

Definition is_leaf (h : store) (a : addr) : Prop :=
  exists x, nth_error h a = Some (OLeaf x).

Definition not_leaf (o : obj) : Prop := forall x, o <> OLeaf x.

(** An object that can be changed in place: anything but a leaf. *)
Definition mutable (h : store) (b : addr) : Prop :=
  exists o, nth_error h b = Some o /\ not_leaf o.

(** [reach h a b]: the object at [b] is [a] or a part, at any depth, of
    the object at [a]. *)
Inductive reach (h : store) : addr -> addr -> Prop :=
| reach_here (a : addr) : reach h a a
| reach_part (a c b : addr) (o : obj) :
    nth_error h a = Some o -> In c (children o) -> reach h c b ->
    reach h a b.

(** Every address held by an object of the store is in the store. *)
Definition wf (h : store) : Prop :=
  forall a o c, nth_error h a = Some o -> In c (children o) ->
                c < List.length h.

(** The same, as a check. *)
Definition well_formed (h : store) : bool :=
  forallb (fun o => forallb (fun c => Nat.ltb c (List.length h)) (children o))
    h.

(** The value at an address, read down to the depth [n]. *)
#[warnings="-register-all"]
Inductive tree : Type :=
| TCut
| TAbsent
| TLeaf (a : atom)
| TList (items : list tree)
| TParams (fields : list (string * tree))
| TSettings (data : list tree).

Fixpoint unfold (n : nat) (h : store) (a : addr) : tree :=
  match n with
  | O => TCut
  | S n' =>
      match nth_error h a with
      | None => TAbsent
      | Some (OLeaf x) => TLeaf x
      | Some (OList items) => TList (map (unfold n' h) items)
      | Some (OParams fields) =>
          TParams (map (fun kv => (fst kv, unfold n' h (snd kv))) fields)
      | Some (OSettings data) => TSettings (map (unfold n' h) data)
      end
  end.

(** [h'] has every object of [h] where [h] has it. *)
Definition extends (h h' : store) : Prop :=
  List.length h <= List.length h'
  /\ forall b, b < List.length h -> nth_error h' b = nth_error h b.

(** The same, but for the object at [s]. *)
Definition keeps (s : addr) (h h' : store) : Prop :=
  List.length h <= List.length h'
  /\ forall b, b < List.length h -> b <> s ->
               nth_error h' b = nth_error h b.

(** An address inside the region [lo, hi), or of a leaf. *)
Definition confined (h : store) (lo hi : nat) (a : addr) : Prop :=
  lo <= a < hi \/ is_leaf h a.

(** The objects of the region [lo, hi) are no leaves, and their parts
    are in the region or leaves. *)
Definition closed_region (h : store) (lo hi : nat) : Prop :=
  hi <= List.length h
  /\ forall b, lo <= b < hi ->
               exists o, nth_error h b = Some o /\ not_leaf o
                         /\ forall c, In c (children o) -> confined h lo hi c.

Definition memo_in (m : memo) (lo hi : nat) : Prop :=
  forall a b, memo_get m a = Some b -> lo <= b < hi.

(** The outputs lie in consecutive closed regions that fill [lo, hi). *)
Inductive tiled (h : store) : nat -> nat -> list addr -> Prop :=
| tiled_nil (lo : nat) : tiled h lo lo []
| tiled_cons (lo mid hi : nat) (o : addr) (outs : list addr) :
    lo <= mid -> confined h lo mid o -> closed_region h lo mid ->
    tiled h mid hi outs -> tiled h lo hi (o :: outs).

(** [rel h0 m a b]: the copy of [a] is [b], by the memo [m], or as a
    leaf of [h0], which is its own copy. *)
Definition rel (h0 : store) (m : memo) (a b : addr) : Prop :=
  memo_get m a = Some b \/ (a = b /\ is_leaf h0 a).

(** The copy [b] of [a] has received its parts: it is of the class of
    the object at [a], and its parts are the copies of the parts. *)
Definition complete (h0 h : store) (m : memo) (a b : addr) : Prop :=
  exists o cs,
    nth_error h0 a = Some o /\ not_leaf o
    /\ nth_error h b = Some (rebuild o cs)
    /\ Forall2 (rel h0 m) (children o) cs.

Definition memo_le (m m1 : memo) : Prop :=
  forall a b, memo_get m a = Some b -> memo_get m1 a = Some b.

Definition memo_injective (m : memo) : Prop :=
  forall a a' b, memo_get m a = Some b -> memo_get m a' = Some b -> a = a'.

(** While [deepcopy] copies the store [h0]: every entry of the memo is
    complete, or is one of the objects [pend] whose parts are being
    copied; no two objects have the same copy; every new object is a
    copy. *)
Definition sim (h0 : store) (pend : list addr) (h : store) (m : memo)
  : Prop :=
  (forall a b, memo_get m a = Some b -> In a pend \/ complete h0 h m a b)
  /\ memo_injective m
  /\ (forall b, List.length h0 <= b < List.length h ->
                exists a, memo_get m a = Some b).

(** A field that [get_settings] leaves as it is. *)
Definition fixed (h : store) (a : addr) : Prop :=
  (exists x, nth_error h a = Some (OLeaf x))
  \/ (exists items, nth_error h a = Some (OList items)).

(** [h'] has the objects of [h] wherever [a] leads in [h]. *)
Definition stable_from (h h' : store) (a : addr) : Prop :=
  forall c, reach h a c -> nth_error h' c = nth_error h c.

Definition valid (h : store) (a : addr) : Prop := a < List.length h.

Definition pool_valid (h : store) (p : pool) : Prop :=
  match p with
  | PList items => Forall (valid h) items
  | PSettings v => valid h v
  end.

(** An output whose field [k] reads as [T] at every depth. *)
Definition field_reads (h : store) (k : string) (T : nat -> tree) (o : addr)
  : Prop :=
  forall n, exists ft,
    unfold (S n) h o = TParams ft /\ dict_get k ft = Some (T n).

(** A store for examples: at 4 the tree with the fields [lr], a
    [Settings] list of two leaves, and [meta], a plain list. *)
Definition example_store : store :=
  [ OLeaf (AInt 1); OLeaf (AInt 2); OSettings [0; 1]; OList [0];
    OParams [("lr", 2); ("meta", 3)] ].

(** The store after [get_settings] at 4: the copy [_setting] at 5 with
    its parts, then the outputs at 8 and 10, each with its own list. *)
Definition example_expanded : store :=
  example_store
  ++ [ OParams [("lr", 1); ("meta", 7)]; OSettings [0; 1]; OList [0];
       OParams [("lr", 0); ("meta", 9)]; OList [0];
       OParams [("lr", 1); ("meta", 11)]; OList [0] ].

End StoreSpec.

Module RefineSpec.
Import Store StoreSpec.

Section Related.
Context {A B : Type}.
Variable R : A -> B -> Prop.

(** [R] holds between the elements of two lists, one by one. *)
Fixpoint all2 (xs : list A) (ys : list B) : Prop :=
  match xs, ys with
  | [], [] => True
  | x :: xs', y :: ys' => R x y /\ all2 xs' ys'
  | _, _ => False
  end.

(** The same for fields: equal names, related values. *)
Fixpoint all2_fields (xs : list (string * A)) (ys : list (string * B))
  : Prop :=
  match xs, ys with
  | [], [] => True
  | (k, x) :: xs', (k', y) :: ys' => k = k' /\ R x y /\ all2_fields xs' ys'
  | _, _ => False
  end.

End Related.

(** [reads h v a]: the object at [a] in the store [h] is the value [v]:
    a leaf, a [Parameters] object whose fields are the fields of [v], or
    a [Settings] list whose elements are the elements of [v]. *)
Fixpoint reads (h : store) (v : Sweep.value) (a : addr) : Prop :=
  match v with
  | Sweep.VLeaf x => nth_error h a = Some (OLeaf x)
  | Sweep.VParams vfs =>
      exists fs, nth_error h a = Some (OParams fs)
                 /\ all2_fields (reads h) vfs fs
  | Sweep.VSettings vs =>
      exists data, nth_error h a = Some (OSettings data)
                   /\ all2 (reads h) vs data
  end.

Section Sizes.
Variable size : Sweep.value -> nat.

Fixpoint sizes (vs : list Sweep.value) : nat :=
  match vs with
  | [] => 0
  | v :: vs' => size v + sizes vs'
  end.

Fixpoint field_sizes (vfs : list (string * Sweep.value)) : nat :=
  match vfs with
  | [] => 0
  | (_, v) :: vfs' => size v + field_sizes vfs'
  end.

End Sizes.

Fixpoint size (v : Sweep.value) : nat :=
  match v with
  | Sweep.VLeaf _ => 1
  | Sweep.VParams vfs => S (field_sizes size vfs)
  | Sweep.VSettings vs => S (sizes size vs)
  end.

Section Depths.
Variable depth : Sweep.value -> nat.

Fixpoint max_depth (vs : list Sweep.value) : nat :=
  match vs with
  | [] => 0
  | v :: vs' => Nat.max (depth v) (max_depth vs')
  end.

Fixpoint max_field_depth (vfs : list (string * Sweep.value)) : nat :=
  match vfs with
  | [] => 0
  | (_, v) :: vfs' => Nat.max (depth v) (max_field_depth vfs')
  end.

End Depths.

(** The depth of a value: the recursion that [deepcopy] needs for it. *)
Fixpoint depth (v : Sweep.value) : nat :=
  match v with
  | Sweep.VLeaf _ => 1
  | Sweep.VParams vfs => S (max_field_depth depth vfs)
  | Sweep.VSettings vs => S (max_depth depth vs)
  end.

(** The outputs of [v], if it has any, are no deeper than [v]. *)
Definition no_deeper (v : Sweep.value) : Prop :=
  forall vs, Sweep.get_settings v = Ok vs ->
             Forall (fun o => depth o <= depth v) vs.

(** An entry of [value_lists] in the store and the candidate list it
    stands for. *)
Definition pool_reads (h : store) (vl : list Sweep.value) (p : pool) : Prop :=
  match p with
  | PList items => all2 (reads h) vl items
  | PSettings a =>
      exists data, nth_error h a = Some (OSettings data)
                   /\ all2 (reads h) vl data
  end.

(** What one pass of the first loop appends, in the store and on
    values. *)
Definition candidates_read (h : store) (vc : option (list Sweep.value))
  (c : option pool) : Prop :=
  match vc, c with
  | None, None => True
  | Some vl, Some p => pool_reads h vl p
  | _, _ => False
  end.

(** An object of [h] that does not lead to [s]. *)
Definition apart (h : store) (s : addr) (a : addr) : Prop :=
  valid h a /\ forall c, reach h a c -> c <> s.

(** [a] is apart from [s] in [h] and reads as [v] there. *)
Definition reads_apart (h : store) (s : addr) (v : Sweep.value) (a : addr)
  : Prop :=
  apart h s a /\ reads h v a.

End RefineSpec.

(* ================================================================== *)
(** * Properties *)

(** ** Strings *)

Module StrFacts.
Import Str.

Section OneChar.
Variable c : ascii.

Lemma cut_absent (k : string) :
  has_char c k = false -> cut (String c "") k = (k, None).
Proof.
  induction k as [|d k IH]; intros H; [reflexivity|].
  cbn [has_char] in H. apply orb_false_iff in H as [Hd Hk].
  cbn [cut startswith]. rewrite Hd. cbn [andb]. rewrite (IH Hk).
  reflexivity.
Qed.

Lemma cut_present (k r : string) :
  has_char c k = false ->
  cut (String c "") (k ++ String c r) = (k, Some r).
Proof.
  induction k as [|d k IH]; intros H.
  - cbn [append cut startswith]. rewrite Ascii.eqb_refl.
    destruct r; reflexivity.
  - cbn [has_char] in H. apply orb_false_iff in H as [Hd Hk].
    cbn [append cut startswith]. rewrite Hd. cbn [andb].
    rewrite (IH Hk). reflexivity.
Qed.

End OneChar.

Lemma cut_no_dot (k : string) :
  has_char dot k = false -> cut "." k = (k, None).
Proof. apply cut_absent. Qed.

Lemma cut_dot (k r : string) :
  has_char dot k = false -> cut "." (k ++ "." ++ r) = (k, Some r).
Proof. apply cut_present. Qed.

Lemma skip_length (s p : string) :
  startswith s p = true ->
  String.length (skip (String.length p) s) + String.length p
  = String.length s.
Proof.
  revert s; induction p as [|c p IH]; intros s H.
  - cbn. destruct s; cbn; lia.
  - destruct s as [|d s]; [discriminate|].
    cbn in H. apply andb_true_iff in H as [_ H].
    cbn. specialize (IH s H). lia.
Qed.

Lemma cut_length (sep s h r : string) :
  sep <> EmptyString -> cut sep s = (h, Some r) ->
  String.length r < String.length s.
Proof.
  intros Hsep. revert h r.
  induction s as [|c s IH]; intros h r H.
  - cbn in H. destruct sep; [congruence|]. cbn in H. discriminate.
  - cbn [cut] in H. destruct (startswith (String c s) sep) eqn:E.
    + inversion H; subst. pose proof (skip_length _ _ E) as L.
      destruct sep; [congruence|]. cbn [String.length] in *. lia.
    + destruct (cut sep s) as [h' r'] eqn:C. inversion H; subst.
      specialize (IH _ _ eq_refl). cbn. lia.
Qed.

Lemma append_assoc (a b c : string) :
  ((a ++ b) ++ c = a ++ (b ++ c))%string.
Proof. induction a as [|x a IH]; cbn; [reflexivity|now rewrite IH]. Qed.

Lemma append_inj_l (a b c : string) : (a ++ b = a ++ c)%string -> b = c.
Proof.
  induction a as [|x a IH]; cbn; intros H; [exact H|].
  inversion H. auto.
Qed.

Lemma append_nil_r (a : string) : (a ++ "")%string = a.
Proof. induction a as [|x a IH]; cbn; [reflexivity|now rewrite IH]. Qed.

Lemma truthy_append (a b : string) :
  truthy a = true -> truthy (a ++ b) = true.
Proof. destruct a; [discriminate|reflexivity]. Qed.

Lemma length_append (a b : string) :
  String.length (a ++ b) = String.length a + String.length b.
Proof. induction a as [|x a IH]; cbn; [reflexivity|now rewrite IH]. Qed.

Lemma split_fuel_any (sep : string) (n m : nat) (s : string) :
  sep <> EmptyString -> String.length s <= n -> String.length s <= m ->
  split_fuel n s sep = split_fuel m s sep.
Proof.
  intros Hsep. revert m s. induction n as [|n IH]; intros m s Hn Hm.
  - destruct s; [|cbn in Hn; lia].
    destruct sep; [congruence|]. now destruct m.
  - destruct m as [|m].
    + destruct s; [|cbn in Hm; lia].
      destruct sep; [congruence|]. reflexivity.
    + cbn [split_fuel]. destruct (cut sep s) as [h [r|]] eqn:C;
        [|reflexivity].
      pose proof (cut_length _ _ _ _ Hsep C). f_equal. apply IH; lia.
Qed.

(** [split] follows the recursion [s.split(sep) = [head] +
    rest.split(sep)] of the text after the first separator. *)
Lemma split_eq (s sep : string) :
  sep <> EmptyString ->
  split s sep
  = Ok (match cut sep s with
        | (h, None) => [h]
        | (h, Some r) => h :: split_fuel (String.length r) r sep
        end).
Proof.
  intros Hsep. unfold split.
  destruct (String.eqb_spec sep EmptyString) as [->|_]; [congruence|].
  f_equal. destruct s as [|c s].
  - destruct sep; [congruence|]. reflexivity.
  - cbn [String.length split_fuel].
    destruct (cut sep (String c s)) as [h [r|]] eqn:C; [|reflexivity].
    pose proof (cut_length _ _ _ _ Hsep C) as L. cbn in L.
    f_equal. apply split_fuel_any; [exact Hsep|lia|lia].
Qed.

Lemma cut_dot_spec (s : string) :
  match cut "." s with
  | (h, None) => h = s /\ has_char dot s = false
  | (h, Some r) => s = (h ++ "." ++ r)%string /\ has_char dot h = false
  end.
Proof.
  unfold dot. induction s as [|c s IH]; [now split|].
  cbn [cut startswith has_char].
  destruct (Ascii.eqb "."%char c) eqn:Ec; cbn [andb orb].
  - apply Ascii.eqb_eq in Ec. subst c. destruct s; cbn; now split.
  - destruct (cut "." s) as [h [r|]]; destruct IH as [E H]; cbn [has_char].
    + split; [now rewrite E|]. now rewrite Ec, H.
    + split; [now rewrite E|]. exact H.
Qed.

Lemma skip_append (a b : string) : skip (String.length a) (a ++ b) = b.
Proof. induction a as [|c a IH]; [now destruct b|exact IH]. Qed.

Lemma endswith_append (a b : string) : endswith (a ++ b) b = true.
Proof.
  unfold endswith. rewrite length_append.
  replace (String.length a + String.length b - String.length b)
    with (String.length a) by lia.
  rewrite skip_append, String.eqb_refl.
  replace (String.length b <=? String.length a + String.length b)%nat
    with true; [reflexivity|].
  symmetry. apply Nat.leb_le. lia.
Qed.

Lemma split_fuel_step (s : string) (n : nat) :
  String.length s <= n ->
  split_fuel n s "."
  = match cut "." s with
    | (h, None) => [h]
    | (h, Some r) => h :: split_fuel (String.length r) r "."
    end.
Proof.
  intros L. assert ("." <> EmptyString) as Hsep by discriminate.
  destruct n as [|n].
  - destruct s; [reflexivity|cbn in L; lia].
  - cbn [split_fuel]. destruct (cut "." s) as [h [r|]] eqn:C; [|reflexivity].
    pose proof (cut_length _ _ _ _ Hsep C). f_equal.
    apply split_fuel_any; [exact Hsep|lia|lia].
Qed.

Lemma append_dot_assoc (h r x : string) :
  ((h ++ "." ++ r) ++ x)%string = (h ++ "." ++ (r ++ x))%string.
Proof. now rewrite append_assoc. Qed.

(** Splitting [p.g] at the dots gives the segments of [p], then [g]; and
    joining the segments of [p] gives [p] back. *)
Lemma split_last_segment (g : string) (n : nat) :
  has_char dot g = false ->
  forall p,
    String.length p <= n ->
    exists parts,
      split_fuel (String.length (p ++ "." ++ g)) (p ++ "." ++ g) "."
      = parts ++ [g]
      /\ parts <> [] /\ join "." parts = p.
Proof.
  intros Hg. induction n as [|n IH]; intros p Hp;
    (rewrite split_fuel_step by lia);
    pose proof (cut_dot_spec p) as S;
    destruct (cut "." p) as [h [r|]]; destruct S as [E H].
  - subst p. rewrite !length_append in Hp. cbn in Hp. lia.
  - subst h. exists [p]. split; [|split; [discriminate|reflexivity]].
    rewrite (cut_dot _ _ H), split_fuel_step by lia.
    now rewrite (cut_no_dot _ Hg).
  - subst p. rewrite append_dot_assoc, (cut_dot _ _ H).
    assert (String.length r <= n) as Lr.
    { rewrite !length_append in Hp. cbn in Hp. lia. }
    destruct (IH r Lr) as (parts & Es & NE & J).
    exists (h :: parts). split; [|split; [discriminate|]].
    + now rewrite Es.
    + destruct parts as [|q parts]; [congruence|].
      cbn [join] in *. now rewrite J.
  - subst h. exists [p]. split; [|split; [discriminate|reflexivity]].
    rewrite (cut_dot _ _ H), split_fuel_step by lia.
    now rewrite (cut_no_dot _ Hg).
Qed.

End StrFacts.

(** ** Dictionaries *)

Section DictFacts.
Context {V : Type}.
Implicit Types (d : list (string * V)) (k : string) (v : V).

Lemma keys_app d d' : keys (d ++ d') = keys d ++ keys d'.
Proof. apply map_app. Qed.

Lemma dict_set_fresh k v d :
  ~ In k (keys d) -> dict_set k v d = d ++ [(k, v)].
Proof.
  induction d as [|[k' v'] d IH]; cbn; intros H; [reflexivity|].
  destruct (String.eqb_spec k k') as [->|_]; [tauto|].
  rewrite IH; tauto.
Qed.

Lemma dict_get_fresh k d : ~ In k (keys d) -> dict_get k d = None.
Proof.
  induction d as [|[k' v'] d IH]; cbn; intros H; [reflexivity|].
  destruct (String.eqb_spec k k') as [->|_]; [tauto|].
  apply IH; tauto.
Qed.

Lemma dict_get_set k v d : dict_get k (dict_set k v d) = Some v.
Proof.
  induction d as [|[k' v'] d IH]; cbn.
  - now rewrite String.eqb_refl.
  - destruct (String.eqb_spec k k') as [->|N]; cbn.
    + now rewrite String.eqb_refl.
    + destruct (String.eqb_spec k k'); [contradiction|exact IH].
Qed.

Lemma dict_set_set k v v' d : dict_set k v (dict_set k v' d) = dict_set k v d.
Proof.
  induction d as [|[k' w] d IH]; cbn.
  - now rewrite String.eqb_refl.
  - destruct (String.eqb_spec k k') as [->|N]; cbn.
    + now rewrite String.eqb_refl.
    + destruct (String.eqb_spec k k'); [contradiction|now rewrite IH].
Qed.

Lemma keys_dict_set k v d : In k (keys d) -> keys (dict_set k v d) = keys d.
Proof.
  induction d as [|[k' w] d IH]; cbn; intros H; [contradiction|].
  destruct (String.eqb_spec k k') as [->|N]; cbn; [reflexivity|].
  f_equal. apply IH. destruct H as [E|H]; [congruence|exact H].
Qed.

Lemma dict_get_set_other k k' v d :
  k <> k' -> dict_get k (dict_set k' v d) = dict_get k d.
Proof.
  intros N. induction d as [|[k2 w] d IH]; cbn.
  - destruct (String.eqb_spec k k'); [contradiction|reflexivity].
  - destruct (String.eqb_spec k' k2) as [->|N2]; cbn.
    + destruct (String.eqb_spec k k2); [contradiction|reflexivity].
    + destruct (String.eqb_spec k k2); [reflexivity|exact IH].
Qed.

Lemma dict_set_comm k k' v v' d :
  k <> k' ->
  dict_set k v (dict_set k' v' d) = dict_set k' v' (dict_set k v d)
  \/ ~ In k (keys d) \/ ~ In k' (keys d).
Proof.
  intros N. induction d as [|[k2 w] d IH]; cbn.
  - right; left; tauto.
  - destruct (String.eqb_spec k' k2) as [->|N2];
      destruct (String.eqb_spec k k2) as [->|N3]; cbn.
    + contradiction.
    + left. rewrite String.eqb_refl.
      destruct (String.eqb_spec k k2); [contradiction|reflexivity].
    + left. rewrite String.eqb_refl.
      destruct (String.eqb_spec k' k2); [contradiction|reflexivity].
    + destruct (String.eqb_spec k k2); [contradiction|].
      destruct (String.eqb_spec k' k2); [contradiction|].
      destruct IH as [E|[H|H]].
      * left; now rewrite E.
      * right; left; intros [?|?]; [congruence|tauto].
      * right; right; intros [?|?]; [congruence|tauto].
Qed.

Lemma dict_update_fresh d o :
  NoDup (keys d ++ keys o) -> dict_update d o = d ++ o.
Proof.
  revert d; induction o as [|[k v] o IH]; intros d H.
  - cbn. now rewrite app_nil_r.
  - cbn in H. unfold dict_update; cbn.
    rewrite dict_set_fresh.
    + fold (dict_update (d ++ [(k, v)]) o). rewrite IH.
      * now rewrite <- app_assoc.
      * rewrite keys_app, <- app_assoc. exact H.
    + intros I. apply NoDup_remove_2 in H. apply H, in_or_app. now left.
Qed.

End DictFacts.

(** ** Nesting and flattening *)

Module PathFacts.
Import PathCodec PathSpec StrFacts.

Lemma path_value_ind (P : value -> Prop) :
  (forall a, P (Leaf a)) ->
  (forall items, Forall (fun kv => P (snd kv)) items -> P (Dict items)) ->
  forall v, P v.
Proof.
  intros HL HD. fix IH 1. intros [a|items]; [apply HL|].
  apply HD. induction items as [|[k v] items IHi]; constructor.
  - apply IH.
  - exact IHi.
Qed.

Lemma nest_fuel_any (n m : nat) (k : string) (v out : value) (sep : string) :
  String.length k < n -> String.length k < m ->
  _nest_dict_rec_fuel n k v out sep = _nest_dict_rec_fuel m k v out sep.
Proof.
  revert m k v out sep.
  induction n as [|n IH]; intros [|m] k v out sep Hn Hm; try lia.
  cbn [_nest_dict_rec_fuel]. unfold Str.split1.
  destruct (String.eqb_spec sep EmptyString) as [->|Hsep]; [reflexivity|].
  cbn [bind]. destruct (Str.cut sep k) as [h [r|]] eqn:C; cbn [fst snd].
  - destruct out as [a|items]; [reflexivity|].
    pose proof (cut_length _ _ _ _ Hsep C).
    rewrite (IH m) by lia. reflexivity.
  - reflexivity.
Qed.

(** The recursion of the source, free of fuel. *)
Lemma _nest_dict_rec_eq (k : string) (v out : value) (sep : string) :
  _nest_dict_rec k v out sep =
  (kr <- Str.split1 k sep ;;
   match snd kr with
   | Some rest =>
       match out with
       | Leaf _ => Raise AttributeError
       | Dict items =>
           sub' <- _nest_dict_rec rest v
                     (match dict_get (fst kr) items with
                      | Some x => x
                      | None => Dict []
                      end) "." ;;
           Ok (Dict (dict_set (fst kr) sub' items))
       end
   | None =>
       match out with
       | Leaf _ => Raise TypeError
       | Dict items => Ok (Dict (dict_set (fst kr) v items))
       end
   end).
Proof.
  unfold _nest_dict_rec at 1. cbn [_nest_dict_rec_fuel]. unfold Str.split1.
  destruct (String.eqb_spec sep EmptyString) as [->|Hsep]; [reflexivity|].
  cbn [bind]. destruct (Str.cut sep k) as [h [r|]] eqn:C; cbn [fst snd].
  - destruct out as [a|items]; [reflexivity|].
    pose proof (cut_length _ _ _ _ Hsep C). unfold _nest_dict_rec.
    rewrite (nest_fuel_any (String.length k) (S (String.length r))) by lia.
    reflexivity.
  - reflexivity.
Qed.

Lemma plain_key_spec (k : string) :
  plain_key k = true -> Str.truthy k = true /\ Str.has_char dot k = false.
Proof.
  unfold plain_key. intros H. apply andb_true_iff in H as [H1 H2].
  split; [exact H1|]. now apply negb_true_iff in H2.
Qed.

Lemma nest_plain (k : string) (v : value) (items : dict) :
  Str.has_char dot k = false ->
  _nest_dict_rec k v (Dict items) "." = Ok (Dict (dict_set k v items)).
Proof.
  intros H. rewrite _nest_dict_rec_eq. unfold Str.split1. cbn [String.eqb bind].
  now rewrite (cut_no_dot _ H).
Qed.

Lemma nest_dotted (k r : string) (v : value) (items : dict) :
  Str.has_char dot k = false ->
  _nest_dict_rec (k ++ "." ++ r) v (Dict items) "." =
  (sub' <- _nest_dict_rec r v
             (match dict_get k items with
              | Some x => x
              | None => Dict []
              end) "." ;;
   Ok (Dict (dict_set k sub' items))).
Proof.
  intros H. rewrite _nest_dict_rec_eq. unfold Str.split1. cbn [String.eqb bind].
  now rewrite (cut_dot _ _ H).
Qed.

Lemma nest_loop_app (A B : dict) (out : value) (sep : string) :
  nest_loop (A ++ B) out sep = (o <- nest_loop A out sep ;; nest_loop B o sep).
Proof.
  revert out; induction A as [|[k v] A IH]; intros out;
    cbn [nest_loop app bind]; [reflexivity|].
  destruct (_nest_dict_rec k v out sep); cbn [bind]; [apply IH|reflexivity].
Qed.

Lemma nest_loop_under (k : string) (L acc : dict) :
  Str.has_char dot k = false -> L <> [] ->
  nest_loop (map (under k) L) (Dict acc) "." =
  (s <- nest_loop L (match dict_get k acc with
                     | Some x => x
                     | None => Dict []
                     end) "." ;;
   Ok (Dict (dict_set k s acc))).
Proof.
  intros Hk. revert acc.
  induction L as [|[q w] L IH]; intros acc HL; [congruence|].
  cbn [map nest_loop under fst snd]. rewrite (nest_dotted _ _ _ _ Hk).
  destruct (_nest_dict_rec q w _ ".") as [sub1|e]; cbn [bind]; [|reflexivity].
  destruct L as [|e L].
  - reflexivity.
  - rewrite IH by discriminate. rewrite dict_get_set.
    destruct (nest_loop (e :: L) sub1 ".") as [s|err]; cbn [bind];
      [|reflexivity].
    now rewrite dict_set_set.
Qed.

Lemma distinct_NoDup (l : list string) : distinct l = true -> NoDup l.
Proof.
  induction l as [|x l IH]; cbn; intros H; constructor.
  - apply andb_true_iff in H as [H _]. apply negb_true_iff in H.
    intros I. assert (existsb (String.eqb x) l = true) as E.
    { apply existsb_exists. exists x. split; [exact I|apply String.eqb_refl]. }
    congruence.
  - apply IH. now apply andb_true_iff in H as [_ H].
Qed.

Lemma well_keyed_Dict (items : dict) :
  well_keyed (Dict items) = true ->
  NoDup (keys items) /\
  Forall (fun kv => plain_key (fst kv) = true
                    /\ nonempty_mapping (snd kv) = true
                    /\ well_keyed (snd kv) = true) items.
Proof.
  cbn [well_keyed]. intros H. apply andb_true_iff in H as [H1 H2]. split.
  - now apply distinct_NoDup.
  - apply Forall_forall. intros kv I.
    rewrite forallb_forall in H2. specialize (H2 kv I).
    apply andb_true_iff in H2 as [H2 H3].
    apply andb_true_iff in H2 as [H2 H4]. auto.
Qed.

Lemma paths_nonempty (v : value) :
  well_keyed v = true -> nonempty_mapping v = true ->
  v = Dict [] \/ (exists a, v = Leaf a) \/ paths v <> [].
Proof.
  induction v as [a|items IH] using path_value_ind; intros W N.
  - right; left; eauto.
  - destruct items as [|[k v] items]; [left; reflexivity|].
    right; right. apply well_keyed_Dict in W as [_ W].
    inversion W as [|? ? (Hk & Hn & Hw) W']; subst.
    inversion IH as [|? ? IHv _]; subst. cbn [fst snd] in *.
    cbn [paths flat_map]. unfold entry_paths at 1. cbn [fst snd].
    destruct v as [a|sub]; [discriminate|].
    destruct (IHv Hw Hn) as [E|[[a E]|E]].
    + inversion E; subst. discriminate.
    + discriminate.
    + intros C. apply app_eq_nil in C as [C _].
      apply map_eq_nil in C. contradiction.
Qed.

Lemma entry_paths_head (k q : string) (v w : value) :
  Str.has_char dot k = false ->
  In (q, w) (entry_paths paths (k, v)) -> fst (Str.cut "." q) = k.
Proof.
  intros Hk. unfold entry_paths. cbn [fst snd]. destruct v as [a|sub].
  - intros [E|[]]. inversion E; subst. now rewrite (cut_no_dot _ Hk).
  - intros I. apply in_map_iff in I as ([q' w'] & E & _).
    unfold under in E. cbn [fst snd] in E.
    assert (q = (k ++ "." ++ q')%string) as -> by congruence.
    now rewrite (cut_dot _ _ Hk).
Qed.

Lemma keys_under (k : string) (L : dict) :
  keys (map (under k) L) = map (fun q => (k ++ "." ++ q)%string) (keys L).
Proof. unfold keys. rewrite !map_map. reflexivity. Qed.

Lemma keys_joined (p : string) (L : dict) :
  keys (map (joined p) L)
  = map (fun q => if Str.truthy p then (p ++ "." ++ q)%string else q) (keys L).
Proof. unfold keys. rewrite !map_map. reflexivity. Qed.

Lemma paths_NoDup (v : value) :
  well_keyed v = true -> NoDup (keys (paths v)).
Proof.
  induction v as [a|items IH] using path_value_ind; intros W; [constructor|].
  apply well_keyed_Dict in W as [ND W]. cbn [paths].
  induction items as [|[k v] items IHi]; [constructor|].
  inversion W as [|? ? (Hk & Hn & Hw) W']; subst.
  inversion IH as [|? ? IHv IH']; subst. cbn [fst snd] in *.
  inversion ND as [|? ? Hnk ND']; subst.
  apply plain_key_spec in Hk as [_ Hk].
  cbn [flat_map]. rewrite keys_app. apply NoDup_app.
  - unfold entry_paths. cbn [fst snd]. destruct v as [a|sub].
    + repeat constructor. intros [].
    + rewrite keys_under. apply Injective_map_NoDup; [|now apply IHv].
      intros x y E. now apply append_inj_l, append_inj_l in E.
  - now apply IHi.
  - intros q I1 I2. unfold keys in I1, I2.
    apply in_map_iff in I1 as ([q1 w1] & E1 & I1).
    apply in_map_iff in I2 as ([q2 w2] & E2 & I2).
    cbn [fst] in *. subst q1 q2.
    apply (entry_paths_head _ _ _ _ Hk) in I1.
    apply in_flat_map in I2 as ([k2 v2] & I3 & I2).
    rewrite Forall_forall in W'. destruct (W' _ I3) as (Hk2 & _).
    apply plain_key_spec in Hk2 as [_ Hk2]. cbn [fst] in Hk2.
    apply (entry_paths_head _ _ _ _ Hk2) in I2.
    apply Hnk. unfold keys. apply in_map_iff. exists (k2, v2).
    split; [cbn; congruence|exact I3].
Qed.

Lemma joined_under (p k : string) (L : dict) :
  Str.truthy k = true ->
  map (joined p) (map (under k) L)
  = map (joined (if Str.truthy p then (p ++ "." ++ k)%string else k)) L.
Proof.
  intros Hk. rewrite map_map. apply map_ext. intros [q w].
  unfold joined, under. cbn [fst snd].
  destruct (Str.truthy p) eqn:Hp.
  - rewrite (truthy_append p ("." ++ k) Hp).
    now rewrite !append_assoc.
  - now rewrite Hk.
Qed.

Lemma flatten_items_paths (p : string) (items : dict) :
  Forall (fun kv => well_keyed (snd kv) = true ->
                    forall p, flatten_value (snd kv) "." p
                              = map (joined p) (paths (snd kv))) items ->
  Forall (fun kv => plain_key (fst kv) = true
                    /\ nonempty_mapping (snd kv) = true
                    /\ well_keyed (snd kv) = true) items ->
  forall acc,
    NoDup (keys acc
           ++ keys (map (joined p) (flat_map (entry_paths paths) items))) ->
    flatten_items flatten_value items "." p acc
    = acc ++ map (joined p) (flat_map (entry_paths paths) items).
Proof.
  induction items as [|[k v] items IHi]; intros IH W acc ND.
  - cbn. now rewrite app_nil_r.
  - inversion W as [|? ? (Hk & Hn & Hw) W']; subst.
    inversion IH as [|? ? IHv IH']; subst. cbn [fst snd] in *.
    apply plain_key_spec in Hk as [Hk _].
    cbn [flat_map] in ND |- *. rewrite map_app in ND |- *.
    rewrite keys_app, app_assoc in ND.
    cbn [flatten_items]. destruct v as [a|sub].
    + unfold entry_paths at 1 in ND. unfold entry_paths at 1.
      cbn [fst snd map] in ND |- *.
      rewrite dict_set_fresh.
      * rewrite IHi; auto.
        -- rewrite <- app_assoc. reflexivity.
        -- rewrite keys_app. exact ND.
      * apply NoDup_app_remove_r in ND. cbn in ND.
        apply NoDup_remove_2 in ND. rewrite app_nil_r in ND. exact ND.
    + unfold entry_paths at 1 in ND. unfold entry_paths at 1.
      cbn [fst snd] in ND |- *.
      rewrite (IHv Hw). rewrite joined_under in ND |- * by exact Hk.
      rewrite dict_update_fresh by (now apply NoDup_app_remove_r in ND).
      rewrite IHi; auto.
      * now rewrite <- app_assoc.
      * rewrite keys_app. exact ND.
Qed.

Lemma flatten_paths (v : value) :
  well_keyed v = true ->
  forall p, flatten_value v "." p = map (joined p) (paths v).
Proof.
  induction v as [a|items IH] using path_value_ind; intros W p; [reflexivity|].
  cbn [flatten_value paths].
  pose proof (paths_NoDup _ W) as ND. cbn [paths] in ND.
  apply well_keyed_Dict in W as [_ W].
  rewrite (flatten_items_paths p items IH W []); [reflexivity|].
  cbn [keys map app]. fold (@keys value). rewrite keys_joined.
  apply Injective_map_NoDup; [|exact ND].
  intros x y E. destruct (Str.truthy p); [|exact E].
  now apply append_inj_l, append_inj_l in E.
Qed.

Lemma nest_paths_items (items : dict) :
  Forall (fun kv => well_keyed (snd kv) = true ->
                    nest_loop (paths (snd kv)) (Dict []) "." = Ok (snd kv)
                    \/ exists a, snd kv = Leaf a) items ->
  Forall (fun kv => plain_key (fst kv) = true
                    /\ nonempty_mapping (snd kv) = true
                    /\ well_keyed (snd kv) = true) items ->
  forall acc,
    NoDup (keys acc ++ keys items) ->
    nest_loop (flat_map (entry_paths paths) items) (Dict acc) "."
    = Ok (Dict (acc ++ items)).
Proof.
  induction items as [|[k v] items IHi]; intros IH W acc ND.
  - cbn. now rewrite app_nil_r.
  - inversion W as [|? ? (Hk & Hn & Hw) W']; subst.
    inversion IH as [|? ? IHv IH']; subst. cbn [fst snd] in *.
    apply plain_key_spec in Hk as [_ Hk].
    assert (~ In k (keys acc)) as Hfresh.
    { cbn in ND. apply NoDup_remove_2 in ND.
      intros I. apply ND, in_or_app. now left. }
    assert (NoDup (keys (acc ++ [(k, v)]) ++ keys items)) as ND'.
    { rewrite keys_app, <- app_assoc. exact ND. }
    cbn [flat_map]. rewrite nest_loop_app.
    unfold entry_paths at 1. cbn [fst snd]. destruct v as [a|sub].
    + cbn [nest_loop]. rewrite (nest_plain _ _ _ Hk). cbn [bind].
      rewrite dict_set_fresh by exact Hfresh.
      rewrite (IHi IH' W' _ ND'). now rewrite <- app_assoc.
    + destruct (paths_nonempty _ Hw Hn) as [E|[[a E]|NE]];
        [inversion E; subst; discriminate|discriminate|].
      rewrite (nest_loop_under _ _ _ Hk NE).
      rewrite (dict_get_fresh _ _ Hfresh).
      destruct (IHv Hw) as [E|[a E]]; [|discriminate].
      rewrite E. cbn [bind].
      rewrite dict_set_fresh by exact Hfresh.
      rewrite (IHi IH' W' _ ND'). now rewrite <- app_assoc.
Qed.

Lemma nest_paths (v : value) :
  well_keyed v = true ->
  nest_loop (paths v) (Dict []) "." = Ok v \/ exists a, v = Leaf a.
Proof.
  induction v as [a|items IH] using path_value_ind; intros W; [right; eauto|].
  left. cbn [paths]. apply well_keyed_Dict in W as [ND W].
  now rewrite (nest_paths_items items IH W []).
Qed.

Lemma joined_top (L : dict) : map (joined "") L = L.
Proof.
  induction L as [|[q w] L IH]; [reflexivity|].
  cbn [map]. rewrite IH. reflexivity.
Qed.

(** C2 (as amended): when every key of the nested mapping [m], at every
    level, is non-empty and free of ["."], the keys of each level are
    distinct, and no inner mapping is empty, nesting the flattening of [m]
    (default separator) returns [m], with its keys in their original
    order. *)
Theorem nest_flatten_roundtrip (m : dict) :
  well_keyed (Dict m) = true ->
  nest_dict (flatten_dict m "." "") "." = Ok (Dict m).
Proof.
  intros W. unfold nest_dict, flatten_dict.
  rewrite (flatten_paths _ W), joined_top.
  destruct (nest_paths _ W) as [E|[a E]]; [exact E|discriminate].
Qed.

Lemma nest_flatten_roundtrip_witness :
  let m := [("a", Dict [("b", Leaf (AInt 1));
                        ("c", Dict [("d", Leaf (AStr "x"))])]);
            ("e", Leaf (AList [1%Z; 2%Z]))] in
  well_keyed (Dict m) = true
  /\ nest_dict (flatten_dict m "." "") "." = Ok (Dict m).
Proof.
  cbv zeta. split; [reflexivity|].
  apply nest_flatten_roundtrip. reflexivity.
Defined.

(** C2 fails as stated: the mapping [{"a": {}}] has no flattened key at
    all, hence none ending in [grid_search], and nesting its flattening
    gives the empty mapping. *)
Lemma nest_flatten_drops_empty_mapping :
  let m := [("a", Dict [])] in
  existsb (fun kv => String.eqb (last_segment (fst kv)) "grid_search")
          (flatten_dict m "." "") = false
  /\ nest_dict (flatten_dict m "." "") "." = Ok (Dict [])
  /\ nest_dict (flatten_dict m "." "") "." <> Ok (Dict m).
Proof. cbv zeta. repeat split. vm_compute. discriminate. Qed.

(** Each side condition of the round trip is needed: a key holding the
    separator is split on the way back, and an empty top-level key of a
    mapping value leaves no trace in the flattened keys. *)
Lemma nest_flatten_needs_plain_keys :
  nest_dict (flatten_dict [("a.b", Leaf (AInt 1))] "." "") "."
  = Ok (Dict [("a", Dict [("b", Leaf (AInt 1))])])
  /\ nest_dict (flatten_dict [("", Dict [("a", Leaf (AInt 1))])] "." "") "."
     = Ok (Dict [("a", Leaf (AInt 1))]).
Proof. split; reflexivity. Qed.

Lemma nest_on_leaf (r : string) (v : value) (a : atom) :
  exists e, _nest_dict_rec r v (Leaf a) "." = Raise e
            /\ (e = TypeError \/ e = AttributeError).
Proof.
  rewrite _nest_dict_rec_eq. unfold Str.split1. cbn [String.eqb bind].
  destruct (snd (Str.cut "." r)); eauto.
Qed.

Lemma join_cons (s s' : string) (segs : list string) :
  Str.join "." (s :: s' :: segs)
  = (s ++ "." ++ Str.join "." (s' :: segs))%string.
Proof. reflexivity. Qed.

Lemma nest_rec_conflict (segs : list string) (r : string) (v out : value)
  (a : atom) :
  segs <> [] ->
  Forall (fun s => Str.has_char dot s = false) segs ->
  lookup_path segs out = Some (Leaf a) ->
  exists e, _nest_dict_rec (Str.join "." segs ++ "." ++ r) v out "." = Raise e
            /\ (e = TypeError \/ e = AttributeError).
Proof.
  revert out. induction segs as [|s segs IH]; intros out NE P L; [congruence|].
  inversion P as [|? ? Hs P']; subst.
  cbn [lookup_path] in L. destruct out as [b|items]; [discriminate|].
  destruct (dict_get s items) as [x|] eqn:G; [|discriminate].
  destruct segs as [|s' segs].
  - cbn [lookup_path] in L. inversion L; subst x.
    cbn [Str.join]. rewrite (nest_dotted _ _ _ _ Hs), G.
    destruct (nest_on_leaf r v a) as (e & E & He). rewrite E.
    cbn [bind]. eauto.
  - rewrite join_cons, !append_assoc.
    change (s ++ "." ++ Str.join "." (s' :: segs) ++ "." ++ r)%string
      with (s ++ "." ++ (Str.join "." (s' :: segs) ++ "." ++ r))%string.
    rewrite (nest_dotted _ _ _ _ Hs), G.
    destruct (IH x ltac:(discriminate) P' L) as (e & E & He).
    rewrite E. cbn [bind]. eauto.
Qed.

Lemma nest_loop_raise (post : dict) (e : exn) (k : string) (v out : value) :
  _nest_dict_rec k v out "." = Raise e ->
  nest_loop ((k, v) :: post) out "." = Raise e.
Proof. intros E. cbn [nest_loop]. now rewrite E. Qed.

(** C9 (as amended): once the entries nested so far have made the path
    [segs] a leaf that is not a mapping, an entry whose key continues that
    path raises [TypeError] or [AttributeError], and the error is the
    result of the whole [nest_dict]: the entries after it are not
    processed and no mapping is returned. *)
Theorem nest_conflict_raises (pre post : dict) (out v : value)
  (segs : list string) (r : string) (a : atom) :
  segs <> [] ->
  Forall (fun s => Str.has_char dot s = false) segs ->
  nest_dict pre "." = Ok out ->
  lookup_path segs out = Some (Leaf a) ->
  exists e,
    nest_dict (pre ++ (Str.join "." segs ++ "." ++ r, v)%string :: post) "."
    = Raise e
    /\ (e = TypeError \/ e = AttributeError).
Proof.
  intros NE P Hpre L. unfold nest_dict in *.
  rewrite nest_loop_app, Hpre. cbn [bind].
  destruct (nest_rec_conflict segs r v out a NE P L) as (e & E & He).
  exists e. split; [|exact He]. now apply nest_loop_raise.
Qed.

Lemma nest_conflict_raises_witness :
  exists e,
    nest_dict ([("a.b", Leaf (AInt 1))]
               ++ ((Str.join "." ["a"; "b"] ++ "." ++ "c")%string,
                   Leaf (AInt 2))
               :: [("d", Leaf (AInt 3))]) "."
    = Raise e
    /\ (e = TypeError \/ e = AttributeError).
Proof.
  apply (nest_conflict_raises
           [("a.b", Leaf (AInt 1))] [("d", Leaf (AInt 3))]
           (Dict [("a", Dict [("b", Leaf (AInt 1))])]) (Leaf (AInt 2))
           ["a"; "b"] "c" (AInt 1)).
  - discriminate.
  - repeat (apply Forall_cons; [reflexivity|]). apply Forall_nil.
  - reflexivity.
  - reflexivity.
Defined.

(** A key without separator is assigned whatever the state holds under it:
    a mapping built from earlier dotted keys is replaced. *)
Lemma nest_plain_key_overwrites (pre : dict) (out : dict) (k : string)
  (v : value) :
  Str.has_char dot k = false ->
  nest_dict pre "." = Ok (Dict out) ->
  nest_dict (pre ++ [(k, v)]) "." = Ok (Dict (dict_set k v out)).
Proof.
  intros Hk Hpre. unfold nest_dict in *.
  rewrite nest_loop_app, Hpre. cbn [bind nest_loop].
  now rewrite (nest_plain _ _ _ Hk).
Qed.

(** C9 fails as stated: with the leaf key after the dotted key, the leaf
    replaces the mapping and nesting returns normally. *)
Lemma nest_conflict_overwrites :
  nest_dict [("a.b", Leaf (AInt 2)); ("a", Leaf (AInt 1))] "."
  = Ok (Dict [("a", Leaf (AInt 1))]).
Proof. reflexivity. Qed.

(** *** What [flatten_dict] returns *)

Section Entries.
Context {V : Type}.
Variable P : string * V -> Prop.

Lemma dict_set_entries (k : string) (v : V) (d : list (string * V)) :
  (forall k', P (k', v)) -> Forall P d -> Forall P (dict_set k v d).
Proof.
  intros Hv. induction d as [|[k' v'] d IH]; intros F; cbn [dict_set].
  - constructor; [apply Hv|constructor].
  - inversion F as [|? ? Hd F']; subst.
    destruct (String.eqb k k'); constructor; auto.
Qed.

Lemma dict_update_entries (d other : list (string * V)) :
  (forall k v, In (k, v) other -> forall k', P (k', v)) ->
  Forall P d -> Forall P (dict_update d other).
Proof.
  unfold dict_update. revert d.
  induction other as [|[k v] other IH]; intros d Ho F; [exact F|].
  cbn [fold_left fst snd]. apply IH.
  - intros k0 v0 I. apply (Ho k0 v0). now right.
  - apply dict_set_entries; [|exact F]. apply (Ho k v). now left.
Qed.

End Entries.

Lemma flatten_value_leaves (v : value) :
  forall sep p,
    Forall (fun kv => is_Leaf (snd kv) = true) (flatten_value v sep p).
Proof.
  induction v as [a|items IH] using path_value_ind; intros sep p;
    [constructor|].
  cbn [flatten_value].
  assert (forall acc,
             Forall (fun kv : string * value => is_Leaf (snd kv) = true) acc ->
             Forall (fun kv => is_Leaf (snd kv) = true)
               (flatten_items flatten_value items sep p acc)) as H.
  { induction items as [|[k v] items IHi]; intros acc F; [exact F|].
    inversion IH as [|? ? IHv IH']; subst. cbn [snd] in IHv.
    cbn [flatten_items]. destruct v as [a|sub].
    - apply IHi; [exact IH'|]. apply dict_set_entries; [reflexivity|exact F].
    - apply IHi; [exact IH'|]. apply dict_update_entries; [|exact F].
      intros k0 v0 I k'. cbn [snd].
      specialize (IHv sep (if Str.truthy p then (p ++ sep ++ k)%string else k)).
      rewrite Forall_forall in IHv. exact (IHv _ I). }
  apply H. constructor.
Qed.

(** X1: whatever the separator and the parent key, no value of the
    mapping that [flatten_dict] returns is itself a mapping: every nested
    mapping has been replaced by the entries of its leaves. *)
Theorem flatten_dict_values_are_leaves (d : dict) (sep parent_key : string) :
  forallb (fun kv => is_Leaf (snd kv)) (flatten_dict d sep parent_key) = true.
Proof.
  apply forallb_forall. apply Forall_forall.
  apply (flatten_value_leaves (Dict d)).
Qed.

Lemma startswith_append (p x : string) : Str.startswith (p ++ x) p = true.
Proof.
  induction p as [|c p IH]; [now destruct x|].
  cbn [append Str.startswith]. now rewrite Ascii.eqb_refl.
Qed.

Lemma startswith_shorter (s a b : string) :
  Str.startswith s (a ++ b) = true -> Str.startswith s a = true.
Proof.
  revert s. induction a as [|c a IH]; intros s H; [now destruct s|].
  destruct s as [|d s]; [discriminate|].
  cbn [append Str.startswith] in *. apply andb_true_iff in H as [H1 H2].
  rewrite H1. cbn [andb]. now apply IH.
Qed.

Lemma flatten_value_prefixed (v : value) :
  forall sep p,
    Str.truthy p = true ->
    Forall (fun kv => Str.startswith (fst kv) (p ++ sep) = true)
      (flatten_value v sep p).
Proof.
  induction v as [a|items IH] using path_value_ind; intros sep p Hp;
    [constructor|].
  cbn [flatten_value].
  assert (forall acc,
             Forall (fun kv : string * value =>
                       Str.startswith (fst kv) (p ++ sep) = true) acc ->
             Forall (fun kv => Str.startswith (fst kv) (p ++ sep) = true)
               (flatten_items flatten_value items sep p acc)) as H.
  { induction items as [|[k v] items IHi]; intros acc F; [exact F|].
    inversion IH as [|? ? IHv IH']; subst. cbn [snd] in IHv.
    cbn [flatten_items]. rewrite Hp. destruct v as [a|sub].
    - apply IHi; [exact IH'|].
      assert (Str.startswith (p ++ sep ++ k) (p ++ sep) = true) as S.
      { rewrite <- append_assoc. apply startswith_append. }
      clear -F S. induction acc as [|[k' v'] acc IHa]; cbn [dict_set].
      + constructor; [exact S|constructor].
      + inversion F as [|? ? Hd F']; subst.
        destruct (String.eqb (p ++ sep ++ k) k'); constructor; auto.
    - apply IHi; [exact IH'|].
      assert (Str.truthy (p ++ sep ++ k) = true) as Hk
        by now apply truthy_append.
      specialize (IHv sep (p ++ sep ++ k)%string Hk).
      assert (Forall (fun kv : string * value =>
                        Str.startswith (fst kv) (p ++ sep) = true)
                (flatten_value (Dict sub) sep (p ++ sep ++ k))) as Fs.
      { eapply Forall_impl; [|exact IHv]. intros [k0 v0] S. cbn [fst] in *.
        apply startswith_shorter with (b := (k ++ sep)%string).
        now rewrite <- !append_assoc in *. }
      clear -F Fs. unfold dict_update.
      revert acc F. induction Fs as [|[k0 v0] o S _ IHo]; intros acc F;
        [exact F|].
      cbn [fold_left fst snd]. apply IHo.
      clear -F S. cbn [fst] in S.
      induction acc as [|[k' v'] acc IHa]; cbn [dict_set].
      + constructor; [exact S|constructor].
      + inversion F as [|? ? Hd F']; subst.
        destruct (String.eqb k0 k'); constructor; auto. }
  apply H. constructor.
Qed.

(** X2: called with a non-empty parent key, [flatten_dict] returns only
    keys that start with the parent key followed by the separator. *)
Theorem flatten_dict_keys_prefixed (d : dict) (sep parent_key : string) :
  Str.truthy parent_key = true ->
  forallb (fun kv => Str.startswith (fst kv) (parent_key ++ sep))
    (flatten_dict d sep parent_key) = true.
Proof.
  intros Hp. apply forallb_forall. apply Forall_forall.
  now apply (flatten_value_prefixed (Dict d)).
Qed.

Lemma flatten_dict_keys_prefixed_witness :
  Str.truthy "cfg" = true
  /\ forallb (fun kv => Str.startswith (fst kv) ("cfg" ++ "/"))
       (flatten_dict [("a", Dict [("b", Leaf (AInt 1))]);
                      ("c", Leaf (AInt 2))] "/" "cfg") = true.
Proof.
  split; [reflexivity|].
  apply (flatten_dict_keys_prefixed _ "/" "cfg"). reflexivity.
Defined.

(** *** Separators other than the default *)

(** X3: with the empty string as separator [nest_dict] raises the
    [ValueError] of [str.split] at the first entry, whatever the keys
    are; only the empty mapping is nested without error. *)
Theorem nest_dict_empty_sep (k : string) (v : value) (flat : dict) :
  nest_dict ((k, v) :: flat) "" = Raise (ValueError "empty separator")
  /\ nest_dict [] "" = Ok (Dict []).
Proof. split; reflexivity. Qed.

(** X4: only the first level of a key is split at a separator [c] other
    than the default: the recursive call falls back to ["."], so the
    remainder [r] after the first [c] is nested at the dots it holds, and
    becomes one key when it holds none, however many [c] it holds. *)
Theorem nest_dict_custom_sep_once (c : ascii) (a r : string) (v : value) :
  Str.has_char c a = false ->
  nest_dict [((a ++ String c r)%string, v)] (String c "")
  = (sub <- nest_dict [(r, v)] "." ;; Ok (Dict [(a, sub)]))
  /\ (Str.has_char dot r = false ->
      nest_dict [((a ++ String c r)%string, v)] (String c "")
      = Ok (Dict [(a, Dict [(r, v)])])).
Proof.
  intros Ha.
  assert (nest_dict [((a ++ String c r)%string, v)] (String c "")
          = (sub <- nest_dict [(r, v)] "." ;; Ok (Dict [(a, sub)]))) as E.
  { unfold nest_dict. cbn [nest_loop]. rewrite _nest_dict_rec_eq.
    unfold Str.split1. cbn [String.eqb bind].
    rewrite (cut_present c a r Ha). cbn [fst snd dict_get dict_set].
    destruct (_nest_dict_rec r v (Dict []) "."); reflexivity. }
  split; [exact E|].
  intros Hr. rewrite E. unfold nest_dict. cbn [nest_loop].
  now rewrite (nest_plain _ _ _ Hr).
Qed.

Lemma nest_dict_custom_sep_once_witness :
  Str.has_char "/" "a" = false
  /\ nest_dict [(("a" ++ String "/" "b/c")%string, Leaf (AInt 1))]
       (String "/" "")
     = Ok (Dict [("a", Dict [("b/c", Leaf (AInt 1))])]).
Proof.
  split; [reflexivity|].
  apply (nest_dict_custom_sep_once "/" "a" "b/c" (Leaf (AInt 1)));
    reflexivity.
Defined.

(** *** Nested and flattened again *)

Lemma startswith_under (h x y : string) :
  Str.startswith (h ++ x) (h ++ y) = Str.startswith x y.
Proof.
  induction h as [|c h IH]; [reflexivity|].
  cbn [append Str.startswith]. now rewrite Ascii.eqb_refl.
Qed.

Lemma eqb_under (h x y : string) :
  String.eqb (h ++ x) (h ++ y) = String.eqb x y.
Proof.
  induction h as [|c h IH]; [reflexivity|].
  cbn [append String.eqb]. now rewrite Ascii.eqb_refl.
Qed.

Lemma clash_after (h x y : string) : clash (h ++ x) (h ++ y) = clash x y.
Proof.
  unfold clash. rewrite !append_assoc.
  now rewrite eqb_under, !startswith_under.
Qed.

Lemma clash_under (h r q : string) :
  clash (h ++ "." ++ r) (h ++ "." ++ q) = clash r q.
Proof. now rewrite clash_after, (clash_after "." r q). Qed.

Lemma clash_same (k : string) : clash k k = true.
Proof. unfold clash. now rewrite String.eqb_refl. Qed.

Lemma clash_longer (k q : string) : clash k (k ++ "." ++ q) = true.
Proof.
  unfold clash. rewrite <- (append_assoc k "." q), startswith_append.
  now rewrite orb_true_r.
Qed.

Lemma clash_shorter (h r : string) : clash (h ++ "." ++ r) h = true.
Proof.
  unfold clash. rewrite <- (append_assoc h "." r), startswith_append.
  now rewrite orb_true_r.
Qed.

Lemma clash_sym (k q : string) : clash k q = clash q k.
Proof.
  unfold clash. rewrite (String.eqb_sym k q).
  now rewrite <- !orb_assoc,
    (orb_comm (Str.startswith q (k ++ ".")) (Str.startswith k (q ++ "."))).
Qed.

Lemma NoDup_distinct (l : list string) : NoDup l -> distinct l = true.
Proof.
  induction 1 as [|x l N _ IH]; [reflexivity|].
  cbn [distinct]. rewrite IH, andb_true_r. apply negb_true_iff.
  destruct (existsb (String.eqb x) l) eqn:E; [|reflexivity].
  apply existsb_exists in E as (y & I & E). apply String.eqb_eq in E.
  subst. contradiction.
Qed.

Lemma well_keyed_intro (items : dict) :
  NoDup (keys items) ->
  Forall (fun kv => plain_key (fst kv) = true
                    /\ nonempty_mapping (snd kv) = true
                    /\ well_keyed (snd kv) = true) items ->
  well_keyed (Dict items) = true.
Proof.
  intros ND F. cbn [well_keyed]. rewrite (NoDup_distinct _ ND). cbn [andb].
  apply forallb_forall. intros kv I. rewrite Forall_forall in F.
  destruct (F kv I) as (H1 & H2 & H3). now rewrite H1, H2, H3.
Qed.

Section Lookup.
Context {V : Type}.

Lemma dict_get_split (k : string) (v : V) (d : list (string * V)) :
  dict_get k d = Some v ->
  exists l1 l2,
    d = l1 ++ (k, v) :: l2
    /\ forall v', dict_set k v' d = l1 ++ (k, v') :: l2.
Proof.
  induction d as [|[k' w] d IH]; [discriminate|].
  cbn [dict_get dict_set]. destruct (String.eqb_spec k k') as [->|N].
  - intros E. inversion E; subst. exists [], d. now split.
  - intros E. destruct (IH E) as (l1 & l2 & -> & S).
    exists ((k', w) :: l1), l2. split; [reflexivity|].
    intros v'. cbn [app]. now rewrite S.
Qed.

Lemma dict_get_absent (k : string) (d : list (string * V)) :
  dict_get k d = None -> ~ In k (keys d).
Proof.
  induction d as [|[k' w] d IH]; [intros _ []|].
  cbn [dict_get]. destruct (String.eqb_spec k k') as [->|N]; [discriminate|].
  intros E [E'|I]; [cbn in E'; congruence|now apply IH].
Qed.

End Lookup.

Lemma paths_app (l1 l2 : dict) :
  paths (Dict (l1 ++ l2)) = paths (Dict l1) ++ paths (Dict l2).
Proof. cbn [paths]. apply flat_map_app. Qed.

Lemma paths_leaf_entry (k : string) (a : atom) (l : dict) :
  paths (Dict ((k, Leaf a) :: l)) = (k, Leaf a) :: paths (Dict l).
Proof. reflexivity. Qed.

Lemma paths_dict_entry (k : string) (sub l : dict) :
  paths (Dict ((k, Dict sub) :: l))
  = map (under k) (paths (Dict sub)) ++ paths (Dict l).
Proof. reflexivity. Qed.

Lemma segments_plain_cut (k : string) :
  segments_plain k = true ->
  match Str.cut "." k with
  | (h, None) => Str.truthy k = true
  | (h, Some r) => Str.truthy h = true /\ segments_plain r = true
  end.
Proof.
  unfold segments_plain. rewrite split_fuel_step by apply le_n.
  pose proof (cut_dot_spec k) as S.
  destruct (Str.cut "." k) as [h [r|]]; cbn [forallb].
  - intros H. now apply andb_true_iff in H.
  - destruct S as [-> _]. intros H. now apply andb_true_iff in H as [H _].
Qed.

Lemma insert_path (a : atom) (n : nat) :
  forall k items,
    String.length k <= n ->
    segments_plain k = true ->
    well_keyed (Dict items) = true ->
    (forall q, In q (keys (paths (Dict items))) -> clash k q = false) ->
    exists items',
      _nest_dict_rec k (Leaf a) (Dict items) "." = Ok (Dict items')
      /\ well_keyed (Dict items') = true
      /\ items' <> []
      /\ Permutation (paths (Dict items')) ((k, Leaf a) :: paths (Dict items)).
Proof.
  induction n as [|n IH]; intros k items L SP W F;
    pose proof (cut_dot_spec k) as S;
    pose proof (segments_plain_cut k SP) as SC;
    destruct (Str.cut "." k) as [h [r|]] eqn:C.
  - destruct S as [-> _]. rewrite !length_append in L. cbn in L. lia.
  - destruct k; [discriminate|cbn in L; lia].
  - destruct S as [-> Hh]. destruct SC as [Th Sr].
    assert (plain_key h = true) as Ph.
    { unfold plain_key. rewrite Th. unfold dot in Hh. now rewrite Hh. }
    assert (String.length r <= n) as Lr.
    { rewrite !length_append in L. cbn in L. lia. }
    rewrite (nest_dotted _ _ _ _ Hh).
    pose proof (well_keyed_Dict _ W) as [ND Fi].
    destruct (dict_get h items) as [[b|sub]|] eqn:G.
    + exfalso. destruct (dict_get_split _ _ _ G) as (l1 & l2 & -> & _).
      assert (clash (h ++ "." ++ r) h = false) as X; [|now rewrite clash_shorter in X].
      apply F. rewrite paths_app, paths_leaf_entry, keys_app.
      apply in_or_app. right. now left.
    + destruct (dict_get_split _ _ _ G) as (l1 & l2 & -> & Set').
      apply Forall_app in Fi as [F1 Fi].
      inversion Fi as [|? ? (_ & Hn & Hw) F2]; subst. cbn [snd] in Hn, Hw.
      destruct (IH r sub Lr Sr Hw) as (items1 & E1 & W1 & NE1 & P1).
      { intros q I. rewrite <- (clash_under h). apply F.
        rewrite paths_app, paths_dict_entry, !keys_app, keys_under.
        apply in_or_app. right. apply in_or_app. left.
        apply (in_map (fun x => (h ++ "." ++ x)%string)). exact I. }
      rewrite E1. cbn [bind]. rewrite Set'.
      exists (l1 ++ (h, Dict items1) :: l2). split; [reflexivity|].
      split; [|split].
      * apply well_keyed_intro.
        -- rewrite keys_app in ND |- *. exact ND.
        -- apply Forall_app. split; [exact F1|]. constructor; [|exact F2].
           cbn [fst snd]. repeat split; [exact Ph| |exact W1].
           destruct items1; [congruence|reflexivity].
      * destruct l1; discriminate.
      * rewrite !paths_app, !paths_dict_entry.
        apply Permutation_trans
          with (paths (Dict l1)
                ++ ((h ++ "." ++ r)%string, Leaf a)
                   :: map (under h) (paths (Dict sub)) ++ paths (Dict l2));
          [|apply Permutation_sym, Permutation_middle].
        apply Permutation_app_head.
        apply (Permutation_app_tail (paths (Dict l2))
                 (Permutation_map (under h) P1)).
    + pose proof (dict_get_absent _ _ G) as Nh.
      destruct (IH r [] Lr Sr eq_refl) as (items1 & E1 & W1 & NE1 & P1);
        [intros q []|].
      rewrite E1. cbn [bind]. rewrite (dict_set_fresh _ _ _ Nh).
      exists (items ++ [(h, Dict items1)]). split; [reflexivity|].
      split; [|split].
      * apply well_keyed_intro.
        -- rewrite keys_app. apply NoDup_app; [exact ND| |].
           ++ repeat constructor. intros [].
           ++ intros x Ix [<-|[]]. contradiction.
        -- apply Forall_app. split; [exact Fi|]. constructor; [|constructor].
           cbn [fst snd]. repeat split; [exact Ph| |exact W1].
           destruct items1; [congruence|reflexivity].
      * destruct items; discriminate.
      * rewrite paths_app, paths_dict_entry. cbn [paths flat_map].
        rewrite app_nil_r.
        apply Permutation_trans
          with (paths (Dict items) ++ [((h ++ "." ++ r)%string, Leaf a)]);
          [|apply Permutation_sym, Permutation_cons_append].
        apply Permutation_app_head.
        apply (Permutation_map (under h) P1).
  - destruct S as [-> Hk]. pose proof (well_keyed_Dict _ W) as [ND Fi].
    assert (plain_key k = true) as Ph.
    { unfold plain_key. rewrite SC. unfold dot in Hk. now rewrite Hk. }
    assert (~ In k (keys items)) as Nh.
    { intros I. unfold keys in I. apply in_map_iff in I as ([k' x] & E & I).
      cbn [fst] in E. subst k'.
      apply in_split in I as (l1 & l2 & ->).
      apply Forall_app in Fi as [_ Fi].
      inversion Fi as [|? ? (_ & Hn & Hw) _]; subst. cbn [snd] in Hn, Hw.
      destruct x as [b|sub].
      - assert (clash k k = false) as X; [|now rewrite clash_same in X].
        apply F. rewrite paths_app, paths_leaf_entry, keys_app.
        apply in_or_app. right. now left.
      - destruct (paths_nonempty _ Hw Hn) as [E|[[b E]|NE]];
          [inversion E; subst; discriminate|discriminate|].
        destruct (paths (Dict sub)) as [|[q w] ps] eqn:Ps; [congruence|].
        assert (clash k (k ++ "." ++ q) = false) as X;
          [|now rewrite clash_longer in X].
        apply F. rewrite paths_app, paths_dict_entry, Ps, !keys_app.
        apply in_or_app. right. apply in_or_app. left. now left. }
    rewrite (nest_plain _ _ _ Hk), (dict_set_fresh _ _ _ Nh).
    exists (items ++ [(k, Leaf a)]). split; [reflexivity|].
    split; [|split].
    + apply well_keyed_intro.
      * rewrite keys_app. apply NoDup_app; [exact ND| |].
        -- repeat constructor. intros [].
        -- intros x Ix [<-|[]]. contradiction.
      * apply Forall_app. split; [exact Fi|]. constructor; [|constructor].
        cbn [fst snd]. now rewrite Ph.
    + destruct items; discriminate.
    + rewrite paths_app, paths_leaf_entry. cbn [paths flat_map].
      apply Permutation_sym, Permutation_cons_append.
Qed.

Lemma nest_loop_inserts (flat : dict) :
  forall items,
    forallb (fun kv => is_Leaf (snd kv)) flat = true ->
    forallb (fun kv => segments_plain (fst kv)) flat = true ->
    prefix_free (keys flat) = true ->
    well_keyed (Dict items) = true ->
    (forall k q, In k (keys flat) -> In q (keys (paths (Dict items))) ->
                 clash k q = false) ->
    exists items',
      nest_loop flat (Dict items) "." = Ok (Dict items')
      /\ well_keyed (Dict items') = true
      /\ Permutation (paths (Dict items')) (flat ++ paths (Dict items)).
Proof.
  induction flat as [|[k v] flat IH]; intros items HL HS HP W F.
  - exists items. repeat split; [exact W|apply Permutation_refl].
  - cbn [forallb fst snd keys map prefix_free] in HL, HS, HP.
    apply andb_true_iff in HL as [Lv HL]. apply andb_true_iff in HS as [Sk HS].
    apply andb_true_iff in HP as [Pk HP].
    destruct v as [a|sub]; [|discriminate].
    destruct (insert_path a (String.length k) k items (le_n _) Sk W)
      as (items1 & E1 & W1 & _ & P1).
    { intros q I. apply F; [now left|exact I]. }
    cbn [nest_loop]. rewrite E1. cbn [bind].
    destruct (IH items1 HL HS HP W1) as (items' & E & W' & P).
    { intros k2 q I2 Iq. unfold keys in Iq.
      apply in_map_iff in Iq as (e & Eq & Ie).
      apply (Permutation_in _ P1) in Ie. destruct Ie as [<-|Ie].
      - cbn [fst] in Eq. subst q. rewrite clash_sym.
        rewrite forallb_forall in Pk. apply negb_true_iff. now apply Pk.
      - apply F; [now right|]. subst q. now apply in_map. }
    exists items'. split; [exact E|]. split; [exact W'|].
    apply (Permutation_trans P). cbn [app].
    apply Permutation_trans with (flat ++ (k, Leaf a) :: paths (Dict items));
      [now apply Permutation_app_head|].
    apply Permutation_sym, Permutation_middle.
Qed.

(** X24: nesting a flat mapping and flattening the result gives its
    entries back.  For a flat mapping whose values are no mappings, whose
    keys have no empty segment, and none of whose keys is another key or
    another key continued after a ["."], [nest_dict] returns a mapping,
    and [flatten_dict] of that has exactly the entries of the flat
    mapping; only their order may differ, as the keys under a common
    first segment come together. *)
Theorem flatten_nest_roundtrip (flat : dict) :
  forallb (fun kv => is_Leaf (snd kv)) flat = true ->
  forallb (fun kv => segments_plain (fst kv)) flat = true ->
  prefix_free (keys flat) = true ->
  exists items,
    nest_dict flat "." = Ok (Dict items)
    /\ Permutation (flatten_dict items "." "") flat.
Proof.
  intros HL HS HP.
  destruct (nest_loop_inserts flat [] HL HS HP eq_refl)
    as (items & E & W & P); [intros k q _ []|].
  exists items. split; [exact E|].
  unfold flatten_dict. rewrite (flatten_paths _ W), joined_top.
  cbn [paths flat_map] in P. now rewrite app_nil_r in P.
Qed.

Lemma flatten_nest_roundtrip_witness :
  let flat := [("a.b", Leaf (AInt 1)); ("c", Leaf (AInt 2));
               ("a.d", Leaf (AInt 3))] in
  exists items,
    nest_dict flat "." = Ok (Dict items)
    /\ Permutation (flatten_dict items "." "") flat.
Proof.
  cbv zeta.
  apply (flatten_nest_roundtrip
           [("a.b", Leaf (AInt 1)); ("c", Leaf (AInt 2));
            ("a.d", Leaf (AInt 3))]); reflexivity.
Defined.

End PathFacts.

(** ** to_flattened_dict *)

Module FlattenFacts.
Import PathCodec PathSpec DictDataClass FlattenSpec.

Section Instance.
Variable Self : Type.
Variable to_dict : Self -> dict.

Lemma grid_search_loop_plain (sep : string) (_d d : dict) :
  (forall kv, In kv _d -> Str.endswith (fst kv) "grid_search" = false) ->
  grid_search_loop _d d sep = Ok (dict_update d _d).
Proof.
  revert d. induction _d as [|[k v] _d IH]; intros d H; [reflexivity|].
  cbn [grid_search_loop]. pose proof (H (k, v) (or_introl eq_refl)) as E.
  cbn [fst] in E. rewrite E.
  rewrite IH; [reflexivity|]. intros kv I. apply H. now right.
Qed.

(** Without an entry whose key ends in [grid_search], the result is the
    same for every [sep]: the keys stay joined with ["."]. *)
Lemma to_flattened_dict_sep_unused (self : Self) (sep : string) :
  (forall kv, In kv (flatten_dict (to_dict self) "." "") ->
              Str.endswith (fst kv) "grid_search" = false) ->
  to_flattened_dict Self to_dict self sep
  = Ok (dict_update [] (flatten_dict (to_dict self) "." "")).
Proof.
  intros H. unfold to_flattened_dict. now apply grid_search_loop_plain.
Qed.

End Instance.

(** An entry whose key is a path [p] followed by the segment
    [grid_search] is rewritten, with the default separator, to the key
    [p] mapped to [{"grid_search": v}]. *)
Lemma grid_search_entry_rewritten (p : string) (v : value) (_d d : dict) :
  grid_search_loop ((p ++ "." ++ "grid_search", v)%string :: _d) d "."
  = grid_search_loop _d (dict_set p (Dict [("grid_search", v)]) d) ".".
Proof.
  cbn [grid_search_loop].
  assert (Str.endswith (p ++ "." ++ "grid_search") "grid_search" = true)
    as ->.
  { rewrite <- StrFacts.append_assoc. apply StrFacts.endswith_append. }
  unfold Str.split. cbn [String.eqb bind].
  destruct (StrFacts.split_last_segment "grid_search" (String.length p)
              eq_refl p (le_n _)) as (parts & E & NE & J).
  rewrite E, removelast_last, J. reflexivity.
Qed.

(** The example of the specification: [{"a": {"grid_search": [1,2,3]}}]
    flattens to the key ["a"] mapped to [{"grid_search": [1,2,3]}]. *)
Lemma to_flattened_dict_grid_search_example :
  to_flattened_dict unit
    (fun _ => [("a", Dict [("grid_search", Leaf (AList [1; 2; 3]%Z))])])
    tt "."
  = Ok [("a", Dict [("grid_search", Leaf (AList [1; 2; 3]%Z))])].
Proof. reflexivity. Qed.

(** C3 at [{"a": {"my_grid_search": 1}}]: the flattened key
    ["a.my_grid_search"] has the last segment ["my_grid_search"], yet it is
    rewritten, to the key ["a"] mapped to [{"grid_search": 1}]. *)
Theorem to_flattened_dict_rewrites_suffix :
  let to_dict := fun _ : unit =>
                   [("a", Dict [("my_grid_search", Leaf (AInt 1))])] in
  flatten_dict (to_dict tt) "." "" = [("a.my_grid_search", Leaf (AInt 1))]
  /\ last_segment "a.my_grid_search" = "my_grid_search"
  /\ to_flattened_dict unit to_dict tt "."
     = Ok [("a", Dict [("grid_search", Leaf (AInt 1))])].
Proof. cbv zeta. repeat split. Qed.

(** C8 at [{"a": {"b": 1}}] and the separator ["/"]: the key comes out
    joined with ["."], where flattening with ["/"] gives ["a/b"]. *)
Theorem to_flattened_dict_ignores_sep :
  let to_dict := fun _ : unit => [("a", Dict [("b", Leaf (AInt 1))])] in
  to_flattened_dict unit to_dict tt "/" = Ok [("a.b", Leaf (AInt 1))]
  /\ flatten_dict (to_dict tt) "/" "" = [("a/b", Leaf (AInt 1))]
  /\ flatten_with (to_dict tt) "/" = Ok [("a/b", Leaf (AInt 1))].
Proof. cbv zeta. repeat split. Qed.

(** *** Edge cases of the [grid_search] rewrite *)

(** X5: a top-level entry named exactly [grid_search] has no segment
    left once the last one is dropped: for every one-character separator
    that does not occur in the name, its value is stored, wrapped, under
    the empty key. *)
Theorem grid_search_top_level (c : ascii) (v : value) (_d d : dict) :
  Str.has_char c "grid_search" = false ->
  grid_search_loop (("grid_search", v) :: _d) d (String c "")
  = grid_search_loop _d (dict_set "" (Dict [("grid_search", v)]) d)
      (String c "").
Proof.
  intros Hc. cbn [grid_search_loop].
  change (Str.endswith "grid_search" "grid_search") with true.
  cbn match. unfold Str.split. cbn [String.eqb bind].
  change (String.length "grid_search") with 11. cbn [Str.split_fuel].
  rewrite (StrFacts.cut_absent c _ Hc). reflexivity.
Qed.

Lemma grid_search_top_level_witness :
  Str.has_char "." "grid_search" = false
  /\ grid_search_loop [("grid_search", Leaf (AList [1; 2]%Z))] [] "."
     = Ok [("", Dict [("grid_search", Leaf (AList [1; 2]%Z))])].
Proof.
  split; [reflexivity|].
  apply (grid_search_top_level "." (Leaf (AList [1; 2]%Z)) [] []).
  reflexivity.
Defined.


Section EmptySeparator.
Variable Self : Type.
Variable to_dict : Self -> dict.


End EmptySeparator.

(** *** Flattened and nested again *)

Import GridSpec StrFacts PathFacts.

Lemma grid_search_loop_rewrite (_d d : dict) :
  grid_search_loop _d d "." = Ok (dict_update d (map rewrite_entry _d)).
Proof.
  revert d. induction _d as [|[k v] _d IH]; intros d; [reflexivity|].
  cbn [grid_search_loop map]. unfold rewrite_entry at 1. cbn [fst snd].
  unfold dict_update. cbn [fold_left].
  destruct (Str.endswith k "grid_search").
  - unfold Str.split. cbn [String.eqb bind fst snd]. apply IH.
  - cbn [fst snd]. apply IH.
Qed.

Lemma eqb_length (a b : string) :
  String.length a <> String.length b -> String.eqb a b = false.
Proof.
  intros N. destruct (String.eqb_spec a b) as [->|_]; [congruence|reflexivity].
Qed.

Lemma endswith_cons (c : ascii) (x s : string) :
  Str.endswith (String c x) s
  = if (String.length s <=? String.length x)%nat then Str.endswith x s
    else String.eqb (String c x) s.
Proof.
  unfold Str.endswith. cbn [String.length].
  destruct (Nat.leb_spec (String.length s) (String.length x)) as [L|L].
  - replace (String.length s <=? S (String.length x))%nat with true
      by (symmetry; apply Nat.leb_le; lia).
    rewrite Nat.sub_succ_l by exact L. reflexivity.
  - destruct (Nat.eq_dec (String.length s) (S (String.length x))) as [E|N].
    + rewrite E, Nat.leb_refl, Nat.sub_diag. reflexivity.
    + replace (String.length s <=? S (String.length x))%nat with false
        by (symmetry; apply Nat.leb_gt; lia).
      symmetry. apply eqb_length. cbn. lia.
Qed.

Lemma endswith_longer (x s : string) :
  String.length x < String.length s -> Str.endswith x s = false.
Proof.
  intros L. unfold Str.endswith.
  replace (String.length s <=? String.length x)%nat with false
    by (symmetry; apply Nat.leb_gt; lia).
  reflexivity.
Qed.

Lemma has_char_append (c : ascii) (a b : string) :
  Str.has_char c (a ++ b) = Str.has_char c a || Str.has_char c b.
Proof.
  induction a as [|d a IH]; [reflexivity|].
  cbn [append Str.has_char]. now rewrite IH, orb_assoc.
Qed.

(** A suffix without ["."] of a dotted key is a suffix of its last
    part. *)
Lemma endswith_joined (q k s : string) :
  Str.has_char dot s = false ->
  Str.endswith (q ++ "." ++ k) s = Str.endswith k s.
Proof.
  intros Hs.
  assert (forall y, Str.has_char dot y = true -> String.eqb y s = false) as D.
  { intros y Hy. destruct (String.eqb_spec y s) as [->|_];
      [congruence|reflexivity]. }
  induction q as [|c q IH].
  - change ("" ++ "." ++ k)%string with (String "." k).
    rewrite endswith_cons.
    destruct (Nat.leb_spec (String.length s) (String.length k)) as [L|L];
      [reflexivity|].
    rewrite (endswith_longer _ _ L). apply D. reflexivity.
  - change (String c q ++ "." ++ k)%string with (String c (q ++ "." ++ k)).
    rewrite endswith_cons.
    destruct (Nat.leb_spec (String.length s) (String.length (q ++ "." ++ k)))
      as [L|L]; [exact IH|].
    rewrite endswith_longer.
    + apply D. cbn [Str.has_char]. rewrite has_char_append.
      cbn. now rewrite !orb_true_r.
    + rewrite !length_append in L. cbn in L. lia.
Qed.

Lemma is_grid_search_spec (v : value) :
  is_grid_search v = true -> exists a, v = Dict [("grid_search", Leaf a)].
Proof.
  destruct v as [a|[|[k [a|sub]] [|e items]]]; try discriminate.
  cbn. intros E. apply String.eqb_eq in E. subst. eauto.
Qed.

Lemma rewrite_grid_search (q : string) (a : atom) :
  rewrite_entry ((q ++ "." ++ "grid_search")%string, Leaf a)
  = (q, Dict [("grid_search", Leaf a)]).
Proof.
  unfold rewrite_entry. cbn [fst snd].
  assert (Str.endswith (q ++ "." ++ "grid_search") "grid_search" = true)
    as ->.
  { rewrite <- append_assoc. apply endswith_append. }
  destruct (split_last_segment "grid_search" (String.length q)
              eq_refl q (le_n _)) as (parts & E & NE & J).
  now rewrite E, removelast_last, J.
Qed.

Lemma rewrite_plain (p k : string) (v : value) :
  Str.endswith k "grid_search" = false ->
  rewrite_entry (joined p (k, v)) = joined p (k, v).
Proof.
  intros E. unfold rewrite_entry, joined. cbn [fst snd].
  destruct (Str.truthy p); [|now rewrite E].
  now rewrite (endswith_joined p k "grid_search" eq_refl), E.
Qed.

Lemma joined_grid_search (p k : string) (v : value) :
  joined p (under k ("grid_search", v))
  = ((fst (joined p (k, v)) ++ "." ++ "grid_search")%string, v).
Proof.
  unfold joined, under. cbn [fst snd].
  destruct (Str.truthy p); [|reflexivity].
  now rewrite !append_assoc.
Qed.

Lemma rewrite_paths (v : value) :
  well_keyed v = true -> grid_shaped v = true ->
  forall p,
    map rewrite_entry (map (joined p) (paths v)) = map (joined p) (paths_gs v).
Proof.
  induction v as [a|items IH] using path_value_ind; intros W G p;
    [reflexivity|].
  apply well_keyed_Dict in W as [_ W]. cbn [grid_shaped] in G.
  cbn [paths paths_gs].
  induction items as [|[k v] items IHi]; [reflexivity|].
  inversion W as [|? ? (Hk & Hn & Hw) W']; subst.
  inversion IH as [|? ? IHv IH']; subst. cbn [fst snd] in *.
  cbn [forallb fst snd] in G. apply andb_true_iff in G as [Gv G].
  apply plain_key_spec in Hk as [Hk _].
  cbn [flat_map]. rewrite !map_app, (IHi IH' W' G). f_equal.
  unfold entry_paths, entry_paths_gs. cbn [fst snd].
  destruct v as [a|sub].
  - cbn [map]. rewrite rewrite_plain; [reflexivity|].
    now apply negb_true_iff in Gv.
  - destruct (is_grid_search (Dict sub)) eqn:S.
    + destruct (is_grid_search_spec _ S) as [a E]. inversion E; subst.
      cbn [paths flat_map entry_paths fst snd app map].
      rewrite joined_grid_search, rewrite_grid_search.
      unfold joined. reflexivity.
    + cbn [orb] in Gv.
      rewrite !(joined_under p k _ Hk). now apply IHv.
Qed.

Lemma paths_gs_nonempty (v : value) :
  well_keyed v = true -> nonempty_mapping v = true ->
  v = Dict [] \/ (exists a, v = Leaf a) \/ paths_gs v <> [].
Proof.
  induction v as [a|items IH] using path_value_ind; intros W N.
  - right; left; eauto.
  - destruct items as [|[k v] items]; [left; reflexivity|].
    right; right. apply well_keyed_Dict in W as [_ W].
    inversion W as [|? ? (Hk & Hn & Hw) W']; subst.
    inversion IH as [|? ? IHv _]; subst. cbn [fst snd] in *.
    cbn [paths_gs flat_map]. unfold entry_paths_gs at 1. cbn [fst snd].
    destruct v as [a|sub]; [discriminate|].
    destruct (is_grid_search (Dict sub)); [discriminate|].
    destruct (IHv Hw Hn) as [E|[[a E]|E]].
    + inversion E; subst. discriminate.
    + discriminate.
    + intros C. apply app_eq_nil in C as [C _].
      apply map_eq_nil in C. contradiction.
Qed.

Lemma entry_paths_gs_head (k q : string) (v w : value) :
  Str.has_char dot k = false ->
  In (q, w) (entry_paths_gs paths_gs (k, v)) -> fst (Str.cut "." q) = k.
Proof.
  intros Hk. unfold entry_paths_gs. cbn [fst snd].
  assert (In (q, w) [(k, v)] -> fst (Str.cut "." q) = k) as One.
  { intros [E|[]]. inversion E; subst. now rewrite (cut_no_dot _ Hk). }
  destruct v as [a|sub]; [exact One|].
  destruct (is_grid_search (Dict sub)); [exact One|].
  intros I. apply in_map_iff in I as ([q' w'] & E & _).
  unfold under in E. cbn [fst snd] in E.
  assert (q = (k ++ "." ++ q')%string) as -> by congruence.
  now rewrite (cut_dot _ _ Hk).
Qed.

Lemma paths_gs_NoDup (v : value) :
  well_keyed v = true -> NoDup (keys (paths_gs v)).
Proof.
  induction v as [a|items IH] using path_value_ind; intros W; [constructor|].
  apply well_keyed_Dict in W as [ND W]. cbn [paths_gs].
  induction items as [|[k v] items IHi]; [constructor|].
  inversion W as [|? ? (Hk & Hn & Hw) W']; subst.
  inversion IH as [|? ? IHv IH']; subst. cbn [fst snd] in *.
  inversion ND as [|? ? Hnk ND']; subst.
  apply plain_key_spec in Hk as [_ Hk].
  cbn [flat_map]. rewrite keys_app. apply NoDup_app.
  - unfold entry_paths_gs. cbn [fst snd].
    assert (NoDup (keys [(k, v)])) as One
      by (repeat constructor; intros []).
    destruct v as [a|sub]; [exact One|].
    destruct (is_grid_search (Dict sub)); [exact One|].
    rewrite keys_under. apply Injective_map_NoDup; [|now apply IHv].
    intros x y E. now apply append_inj_l, append_inj_l in E.
  - now apply IHi.
  - intros q I1 I2. unfold keys in I1, I2.
    apply in_map_iff in I1 as ([q1 w1] & E1 & I1).
    apply in_map_iff in I2 as ([q2 w2] & E2 & I2).
    cbn [fst] in *. subst q1 q2.
    apply (entry_paths_gs_head _ _ _ _ Hk) in I1.
    apply in_flat_map in I2 as ([k2 v2] & I3 & I2).
    rewrite Forall_forall in W'. destruct (W' _ I3) as (Hk2 & _).
    apply plain_key_spec in Hk2 as [_ Hk2]. cbn [fst] in Hk2.
    apply (entry_paths_gs_head _ _ _ _ Hk2) in I2.
    apply Hnk. unfold keys. apply in_map_iff. exists (k2, v2).
    split; [cbn; congruence|exact I3].
Qed.

Lemma nest_paths_gs_items (items : dict) :
  Forall (fun kv => well_keyed (snd kv) = true ->
                    nest_loop (paths_gs (snd kv)) (Dict []) "." = Ok (snd kv)
                    \/ exists a, snd kv = Leaf a) items ->
  Forall (fun kv => plain_key (fst kv) = true
                    /\ nonempty_mapping (snd kv) = true
                    /\ well_keyed (snd kv) = true) items ->
  forall acc,
    NoDup (keys acc ++ keys items) ->
    nest_loop (flat_map (entry_paths_gs paths_gs) items) (Dict acc) "."
    = Ok (Dict (acc ++ items)).
Proof.
  induction items as [|[k v] items IHi]; intros IH W acc ND.
  - cbn. now rewrite app_nil_r.
  - inversion W as [|? ? (Hk & Hn & Hw) W']; subst.
    inversion IH as [|? ? IHv IH']; subst. cbn [fst snd] in *.
    apply plain_key_spec in Hk as [_ Hk].
    assert (~ In k (keys acc)) as Hfresh.
    { cbn in ND. apply NoDup_remove_2 in ND.
      intros I. apply ND, in_or_app. now left. }
    assert (NoDup (keys (acc ++ [(k, v)]) ++ keys items)) as ND'.
    { rewrite keys_app, <- app_assoc. exact ND. }
    assert (nest_loop ([(k, v)] ++ flat_map (entry_paths_gs paths_gs) items)
              (Dict acc) "." = Ok (Dict (acc ++ (k, v) :: items))) as One.
    { cbn [app nest_loop]. rewrite (nest_plain _ _ _ Hk). cbn [bind].
      rewrite dict_set_fresh by exact Hfresh.
      rewrite (IHi IH' W' _ ND'). now rewrite <- app_assoc. }
    cbn [flat_map]. unfold entry_paths_gs at 1. cbn [fst snd].
    destruct v as [a|sub]; [exact One|].
    destruct (is_grid_search (Dict sub)) eqn:S; [exact One|].
    rewrite nest_loop_app.
    destruct (paths_gs_nonempty _ Hw Hn) as [E|[[a E]|NE]];
      [inversion E; subst; discriminate|discriminate|].
    rewrite (nest_loop_under _ _ _ Hk NE).
    rewrite (dict_get_fresh _ _ Hfresh).
    destruct (IHv Hw) as [E|[a E]]; [|discriminate].
    rewrite E. cbn [bind].
    rewrite dict_set_fresh by exact Hfresh.
    rewrite (IHi IH' W' _ ND'). now rewrite <- app_assoc.
Qed.

Lemma nest_paths_gs (v : value) :
  well_keyed v = true ->
  nest_loop (paths_gs v) (Dict []) "." = Ok v \/ exists a, v = Leaf a.
Proof.
  induction v as [a|items IH] using path_value_ind; intros W; [right; eauto|].
  left. cbn [paths_gs]. apply well_keyed_Dict in W as [ND W].
  now rewrite (nest_paths_gs_items items IH W []).
Qed.

Section RoundTrip.
Variable Self : Type.
Variable to_dict : Self -> dict.

Lemma to_flattened_dict_paths (self : Self) :
  well_keyed (Dict (to_dict self)) = true ->
  grid_shaped (Dict (to_dict self)) = true ->
  to_flattened_dict Self to_dict self "."
  = Ok (paths_gs (Dict (to_dict self))).
Proof.
  intros W G. unfold to_flattened_dict, flatten_dict.
  rewrite (flatten_paths _ W), grid_search_loop_rewrite.
  rewrite (rewrite_paths _ W G), joined_top.
  rewrite dict_update_fresh; [reflexivity|].
  apply (paths_gs_NoDup _ W).
Qed.


Section FromFlattened.
Variable Func : Type.
Variable is_DictDataClass : string -> bool.
Variable get_disambiguators : string -> list (string * Func).
Variable annotations : string -> list (string * annotation).
Variable Object : Type.
Variable structure : list (string * Func) -> value -> string -> result Object.

(** X23: [from_flattened_dict] undoes [to_flattened_dict] as far as
    [from_dict] undoes [to_dict]: under the conditions of the round trip,
    [cls.from_flattened_dict(self.to_flattened_dict())] is
    [cls.from_dict(self.to_dict())], error or instance. *)
Theorem from_flattened_dict_inverts (self : Self) (cls : string) (fuel : nat)
  (flat : dict) :
  well_keyed (Dict (to_dict self)) = true ->
  grid_shaped (Dict (to_dict self)) = true ->
  to_flattened_dict Self to_dict self "." = Ok flat ->
  from_flattened_dict Func is_DictDataClass get_disambiguators annotations
    Object structure fuel cls flat
  = from_dict Func is_DictDataClass get_disambiguators annotations
      Object structure fuel cls (Dict (to_dict self)).
Proof.
  intros W G E. rewrite (to_flattened_dict_paths self W G) in E.
  assert (flat = paths_gs (Dict (to_dict self))) as -> by congruence.
  unfold from_flattened_dict, nest_dict.
  destruct (nest_paths_gs _ W) as [N|[a N]]; [|discriminate].
  now rewrite N.
Qed.

End FromFlattened.

End RoundTrip.


Lemma from_flattened_dict_inverts_witness :
  let d := [("lr", Dict [("grid_search", Leaf (AList [1; 2]%Z))]);
            ("seed", Leaf (AInt 7))] in
  let flat := [("lr", Dict [("grid_search", Leaf (AList [1; 2]%Z))]);
               ("seed", Leaf (AInt 7))] in
  from_flattened_dict string ClassSpec.example_is_DictDataClass
    ClassSpec.example_get_disambiguators ClassSpec.example_annotations
    value (fun _ v _ => Ok v) 3 "Outer" flat
  = from_dict string ClassSpec.example_is_DictDataClass
      ClassSpec.example_get_disambiguators ClassSpec.example_annotations
      value (fun _ v _ => Ok v) 3 "Outer" (Dict d).
Proof.
  cbv zeta.
  exact (from_flattened_dict_inverts unit
           (fun _ => [("lr", Dict [("grid_search", Leaf (AList [1; 2]%Z))]);
                      ("seed", Leaf (AInt 7))])
           string ClassSpec.example_is_DictDataClass
           ClassSpec.example_get_disambiguators ClassSpec.example_annotations
           value (fun _ v _ => Ok v) tt "Outer" 3 _ eq_refl eq_refl eq_refl).
Defined.

End FlattenFacts.

(** ** The class methods of DictDataClass *)

Module ClassFacts.
Import PathCodec PathSpec DictDataClass ClassSpec.

Section Updates.
Context {V : Type}.
Implicit Types (d o : list (string * V)) (k u : string) (v g : V).

Lemma dict_set_keys k v d :
  keys (dict_set k v d)
  = if in_dec string_dec k (keys d) then keys d else keys d ++ [k].
Proof.
  destruct (in_dec string_dec k (keys d)) as [I|N].
  - now apply keys_dict_set.
  - rewrite (dict_set_fresh _ _ _ N). apply keys_app.
Qed.

Lemma dict_set_distinct k v d : NoDup (keys d) -> NoDup (keys (dict_set k v d)).
Proof.
  intros ND. rewrite dict_set_keys.
  destruct (in_dec string_dec k (keys d)) as [I|N]; [exact ND|].
  apply NoDup_app; [exact ND|repeat constructor; intros []|].
  intros x I [<-|[]]. contradiction.
Qed.

Lemma dict_update_distinct d o :
  NoDup (keys d) -> NoDup (keys (dict_update d o)).
Proof.
  unfold dict_update. revert d.
  induction o as [|[k v] o IH]; intros d ND; [exact ND|].
  cbn [fold_left fst snd]. apply IH. now apply dict_set_distinct.
Qed.

Lemma dict_get_update_other u d o :
  ~ In u (keys o) -> dict_get u (dict_update d o) = dict_get u d.
Proof.
  unfold dict_update. revert d.
  induction o as [|[k v] o IH]; intros d N; [reflexivity|].
  cbn [fold_left fst snd]. cbn in N. rewrite IH by tauto.
  apply dict_get_set_other. intros ->. tauto.
Qed.

Lemma dict_get_update u g d o :
  NoDup (keys o) -> dict_get u o = Some g ->
  dict_get u (dict_update d o) = Some g.
Proof.
  revert d. induction o as [|[k v] o IH]; intros d ND G; [discriminate|].
  cbn in ND. inversion ND as [|? ? Nk ND']; subst.
  cbn [dict_get] in G. unfold dict_update. cbn [fold_left fst snd].
  fold (dict_update (dict_set k v d) o).
  destruct (String.eqb_spec u k) as [->|N].
  - inversion G; subst. rewrite dict_get_update_other by exact Nk.
    apply dict_get_set.
  - now apply IH.
Qed.

End Updates.

Section Classes.
Variable Func : Type.
Variable is_DictDataClass : string -> bool.
Variable get_disambiguators : string -> list (string * Func).
Variable annotations : string -> list (string * annotation).

Local Abbreviation get_all :=
  (get_all_disambiguators Func is_DictDataClass get_disambiguators annotations).
Local Abbreviation a_loop := (annotations_loop Func is_DictDataClass).
Local Abbreviation a_step := (annotation_step Func is_DictDataClass).
Local Abbreviation u_loop := (union_loop Func is_DictDataClass).

(** *** More fuel changes no result but [RecursionError] *)

Section Stable.
Variables rec rec' : string -> result (list (string * Func)).
Hypothesis rec_stable :
  forall c r, rec c = r -> r <> Raise RecursionError -> rec' c = r.

Lemma union_loop_stable (args : list annotation) :
  forall d r, u_loop rec args d = r -> r <> Raise RecursionError ->
              u_loop rec' args d = r.
Proof.
  induction args as [|t args IH]; intros d r E N; [exact E|].
  cbn [union_loop] in *. destruct t as [c|a|]; try exact E.
  destruct (is_DictDataClass c); [|eauto].
  destruct (rec c) as [dc|e] eqn:R.
  - rewrite (rec_stable c (Ok dc) R) by discriminate. cbn [bind] in *. eauto.
  - cbn [bind] in E. subst r. now rewrite (rec_stable c _ R N).
Qed.

Lemma annotation_step_stable (t : annotation) :
  forall d r, a_step rec t d = r -> r <> Raise RecursionError ->
              a_step rec' t d = r.
Proof.
  intros d r E N. destruct t as [c|args|]; cbn [annotation_step] in *;
    [|now apply union_loop_stable|exact E].
  destruct (is_DictDataClass c); [|exact E].
  destruct (rec c) as [dc|e] eqn:R.
  - now rewrite (rec_stable c (Ok dc) R) by discriminate.
  - assert (e <> RecursionError) as Ne.
    { intros ->. subst r. now apply N. }
    rewrite (rec_stable c _ R); [exact E|]. congruence.
Qed.

Lemma annotations_loop_stable (items : list (string * annotation)) :
  forall d r, a_loop rec items d = r -> r <> Raise RecursionError ->
              a_loop rec' items d = r.
Proof.
  induction items as [|[f t] items IH]; intros d r E N; [exact E|].
  cbn [annotations_loop] in *.
  destruct (a_step rec t d) as [d1|e] eqn:S.
  - rewrite (annotation_step_stable t d (Ok d1) S) by discriminate.
    cbn [bind] in *. eauto.
  - cbn [bind] in E. subst r. now rewrite (annotation_step_stable t d _ S N).
Qed.

End Stable.

Lemma get_all_disambiguators_stable (n : nat) :
  forall m c r, n <= m -> get_all n c = r -> r <> Raise RecursionError ->
                get_all m c = r.
Proof.
  induction n as [|n IH]; intros m c r L E N.
  - cbn in E. congruence.
  - destruct m as [|m]; [lia|]. cbn [get_all_disambiguators] in *.
    eapply annotations_loop_stable; [|exact E|exact N].
    intros c' r' E' N'. apply (IH m c' r'); [lia|exact E'|exact N'].
Qed.

(** *** Termination *)

Section Ranked.
Variable rank : string -> nat.
Hypothesis rank_decreases :
  forall c c', In c' (mentions is_DictDataClass annotations c) ->
               rank c' < rank c.

Section Below.
Variable n : nat.
Variable rec : string -> result (list (string * Func)).
Hypothesis rec_below :
  forall c, rank c < n -> returns_or_type_error (rec c).

Lemma union_loop_returns (args : list annotation) :
  (forall c, In c (flat_map (named_in is_DictDataClass) args) -> rank c < n) ->
  forall d, returns_or_type_error (u_loop rec args d).
Proof.
  induction args as [|t args IH]; intros H d; [left; eexists; reflexivity|].
  cbn [union_loop]. destruct t as [c|a|]; try (now right).
  cbn [flat_map named_in] in H.
  destruct (is_DictDataClass c) eqn:D.
  - destruct (rec_below c) as [[dc E]|E].
    + apply H. now left.
    + rewrite E. cbn [bind]. apply IH. intros c' I. apply H. now right.
    + rewrite E. now right.
  - apply IH. exact H.
Qed.

Lemma annotations_loop_returns (items : list (string * annotation)) :
  (forall c, In c (flat_map (fun ft => classes_of is_DictDataClass (snd ft))
                     items) -> rank c < n) ->
  forall d, returns_or_type_error (a_loop rec items d).
Proof.
  induction items as [|[f t] items IH]; intros H d; [left; eexists; reflexivity|].
  cbn [annotations_loop flat_map snd] in *.
  assert (returns_or_type_error (a_step rec t d)) as S.
  { destruct t as [c|args|]; cbn [annotation_step].
    - cbn [classes_of named_in] in H. destruct (is_DictDataClass c) eqn:D;
        [|left; eexists; reflexivity].
      destruct (rec_below c) as [[dc E]|E].
      + apply H. now left.
      + rewrite E. left; eexists; reflexivity.
      + rewrite E. left; eexists; reflexivity.
    - apply union_loop_returns. intros c I. apply H, in_or_app. now left.
    - left; eexists; reflexivity. }
  destruct S as [[d1 E]|E]; rewrite E; cbn [bind]; [|now right].
  apply IH. intros c I. apply H, in_or_app. now right.
Qed.

End Below.

Lemma get_all_disambiguators_ranked (n : nat) :
  forall c, rank c < n -> returns_or_type_error (get_all n c).
Proof.
  induction n as [|n IH]; intros c L; [lia|].
  cbn [get_all_disambiguators].
  apply (annotations_loop_returns (rank c)).
  - intros c' L'. apply IH. lia.
  - intros c' I. now apply rank_decreases.
Qed.

(** X7: when the classes can be ranked so that every [DictDataClass]
    found in the annotations of a class (as the type of a field or as an
    argument of its [Union]) has a smaller rank, the recursion of
    [get_all_disambiguators] ends within that depth: the call returns a
    dictionary or raises [TypeError], never [RecursionError]. *)
Theorem get_all_disambiguators_terminates (cls : string) :
  (exists d, get_all_disambiguators Func is_DictDataClass get_disambiguators
      annotations (S (rank cls)) cls = Ok d)
  \/ get_all_disambiguators Func is_DictDataClass get_disambiguators
      annotations (S (rank cls)) cls = Raise TypeError.
Proof. apply get_all_disambiguators_ranked. lia. Qed.

End Ranked.

(** *** A class that has a field of its own class *)

Lemma annotations_loop_raises (rec : string -> result (list (string * Func)))
  (cls f : string) (e : exn) (items : list (string * annotation)) :
  is_DictDataClass cls = true -> rec cls = Raise e -> e <> TypeError ->
  In (f, TClass cls) items ->
  forall d, exists e', a_loop rec items d = Raise e'.
Proof.
  intros D R Ne. induction items as [|[f' t] items IH]; intros I d;
    [contradiction|].
  cbn [annotations_loop].
  destruct (a_step rec t d) as [d1|e1] eqn:S; cbn [bind]; [|eauto].
  destruct I as [E|I]; [|now apply IH].
  inversion E; subst. cbn [annotation_step] in S. rewrite D, R in S.
  destruct e; congruence.
Qed.

(** X8: a class with a field annotated with the class itself makes
    [get_all_disambiguators] recurse without end: whatever depth the
    interpreter allows, the call raises and returns no dictionary. *)
Theorem self_annotation_never_returns (cls f : string) :
  is_DictDataClass cls = true ->
  In (f, TClass cls) (annotations cls) ->
  forall fuel, exists e, get_all_disambiguators Func is_DictDataClass get_disambiguators
      annotations fuel cls = Raise e.
Proof.
  intros D I. induction fuel as [|fuel [e IH]]; [cbn; eauto|].
  destruct (match e with TypeError => true | _ => false end) eqn:T.
  - exists e. apply (get_all_disambiguators_stable fuel); [lia|exact IH|].
    destruct e; congruence.
  - cbn [get_all_disambiguators].
    apply (annotations_loop_raises _ cls f e); auto.
    intros ->. discriminate.
Qed.

(** *** Annotations that contribute nothing *)

Lemma union_loop_other (rec : string -> result (list (string * Func)))
  (args : list annotation) (d : list (string * Func)) :
  forallb (other_class is_DictDataClass) args = true ->
  u_loop rec args d = Ok d.
Proof.
  induction args as [|t args IH]; intros H; [reflexivity|].
  cbn [forallb] in H. apply andb_true_iff in H as [H1 H2].
  destruct t as [c|a|]; try discriminate. cbn [other_class] in H1.
  cbn [union_loop]. apply negb_true_iff in H1. rewrite H1. now apply IH.
Qed.

Lemma annotation_step_inert (rec : string -> result (list (string * Func)))
  (t : annotation) (d : list (string * Func)) :
  inert is_DictDataClass t = true -> a_step rec t d = Ok d.
Proof.
  destruct t as [c|args|]; cbn [inert annotation_step]; intros H.
  - apply negb_true_iff in H. now rewrite H.
  - now apply union_loop_other.
  - reflexivity.
Qed.

Lemma annotations_loop_inert (rec : string -> result (list (string * Func)))
  (items : list (string * annotation)) (d : list (string * Func)) :
  forallb (fun ft => inert is_DictDataClass (snd ft)) items = true ->
  a_loop rec items d = Ok d.
Proof.
  induction items as [|[f t] items IH]; intros H; [reflexivity|].
  cbn [forallb snd] in H. apply andb_true_iff in H as [H1 H2].
  cbn [annotations_loop]. rewrite (annotation_step_inert _ _ _ H1).
  cbn [bind]. now apply IH.
Qed.

Lemma annotations_loop_app (rec : string -> result (list (string * Func)))
  (pre post : list (string * annotation)) (d : list (string * Func)) :
  a_loop rec (pre ++ post) d = (d1 <- a_loop rec pre d ;; a_loop rec post d1).
Proof.
  revert d. induction pre as [|[f t] pre IH]; intros d; [reflexivity|].
  cbn [app annotations_loop].
  destruct (a_step rec t d); cbn [bind]; [apply IH|reflexivity].
Qed.

(** X9: a class none of whose annotations is a [DictDataClass] or a
    [Union] with one (and none a [Union] with an argument that is not a
    class) gets exactly its own [get_disambiguators()], at any depth of
    recursion left. *)
Theorem get_all_disambiguators_own (cls : string) (fuel : nat) :
  forallb (fun ft => inert is_DictDataClass (snd ft)) (annotations cls) = true ->
  get_all_disambiguators Func is_DictDataClass get_disambiguators
      annotations (S fuel) cls = Ok (get_disambiguators cls).
Proof. intros H. cbn [get_all_disambiguators]. now apply annotations_loop_inert. Qed.

(** *** Where the entries come from *)

Lemma in_dict_set (u k : string) (g v : Func) (d : list (string * Func)) :
  In (u, g) (dict_set k v d) -> (u, g) = (k, v) \/ In (u, g) d.
Proof.
  induction d as [|[k' v'] d IH]; cbn [dict_set]; intros I.
  - destruct I as [E|[]]. left. congruence.
  - destruct (String.eqb_spec k k') as [->|N].
    + destruct I as [E|I]; [left; congruence|right; now right].
    + destruct I as [E|I]; [right; now left|].
      destruct (IH I) as [E|I']; [now left|right; now right].
Qed.

Lemma in_dict_update (u : string) (g : Func) (o d : list (string * Func)) :
  In (u, g) (dict_update d o) -> In (u, g) o \/ In (u, g) d.
Proof.
  unfold dict_update. revert d.
  induction o as [|[k v] o IH]; intros d I; [now right|].
  cbn [fold_left fst snd] in I. destruct (IH _ I) as [I'|I'].
  - left. now right.
  - destruct (in_dict_set _ _ _ _ _ I') as [E|I2]; [|now right].
    left. left. congruence.
Qed.

Section Provenance.
Variable rec : string -> result (list (string * Func)).
Variable cls : string.
Hypothesis rec_from :
  forall c d, In c (mentions is_DictDataClass annotations cls) ->
              rec c = Ok d -> from_reachable is_DictDataClass annotations get_disambiguators cls d.

Lemma union_loop_from (args : list annotation) :
  (forall c, In c (flat_map (named_in is_DictDataClass) args) ->
             In c (mentions is_DictDataClass annotations cls)) ->
  forall d d', u_loop rec args d = Ok d' ->
               from_reachable is_DictDataClass annotations get_disambiguators cls d -> from_reachable is_DictDataClass annotations get_disambiguators cls d'.
Proof.
  induction args as [|t args IH]; intros H d d' E F.
  - inversion E; subst. exact F.
  - cbn [union_loop] in E. destruct t as [c|a|]; try discriminate.
    cbn [flat_map named_in] in H.
    destruct (is_DictDataClass c) eqn:D.
    + destruct (rec c) as [dc|e] eqn:R; [|discriminate]. cbn [bind] in E.
      apply (IH ltac:(intros c' I; apply H; now right) _ _ E).
      intros u g I. destruct (in_dict_update _ _ _ _ I) as [I'|I'];
        [|now apply F].
      apply (rec_from c dc); [apply H; now left|exact R|exact I'].
    + apply (IH H _ _ E F).
Qed.

Lemma annotations_loop_from (items : list (string * annotation)) :
  (forall c, In c (flat_map (fun ft => classes_of is_DictDataClass (snd ft))
                     items) ->
             In c (mentions is_DictDataClass annotations cls)) ->
  forall d d', a_loop rec items d = Ok d' ->
               from_reachable is_DictDataClass annotations get_disambiguators cls d -> from_reachable is_DictDataClass annotations get_disambiguators cls d'.
Proof.
  induction items as [|[f t] items IH]; intros H d d' E F.
  - inversion E; subst. exact F.
  - cbn [annotations_loop] in E. cbn [flat_map snd] in H.
    destruct (a_step rec t d) as [d1|e] eqn:S; [|discriminate].
    cbn [bind] in E.
    apply (IH ltac:(intros c' I; apply H, in_or_app; now right) _ _ E).
    destruct t as [c|args|]; cbn [annotation_step] in S.
    + cbn [classes_of named_in] in H.
      destruct (is_DictDataClass c) eqn:D; [|inversion S; subst; exact F].
      destruct (rec c) as [dc|e] eqn:R.
      * inversion S; subst. intros u g I.
        destruct (in_dict_update _ _ _ _ I) as [I'|I']; [|now apply F].
        apply (rec_from c dc); [apply H; now left|exact R|exact I'].
      * destruct e; inversion S; subst; exact F.
    + apply (union_loop_from args
               ltac:(intros c' I; apply H, in_or_app; now left) _ _ S F).
    + inversion S; subst. exact F.
Qed.

End Provenance.

(** X10: nothing is invented and nothing comes from elsewhere: every
    entry of the dictionary that [get_all_disambiguators] returns is an
    entry of [get_disambiguators()] of the class itself or of a
    [DictDataClass] reached from it through annotations. *)
Theorem get_all_disambiguators_provenance (fuel : nat) :
  forall cls d u g,
    get_all_disambiguators Func is_DictDataClass get_disambiguators
      annotations fuel cls = Ok d -> In (u, g) d ->
    exists c, reachable is_DictDataClass annotations cls c
              /\ In (u, g) (get_disambiguators c).
Proof.
  induction fuel as [|fuel IH]; intros cls d u g E I; [discriminate|].
  cbn [get_all_disambiguators] in E.
  revert u g I. fold (from_reachable is_DictDataClass annotations get_disambiguators cls d).
  apply (annotations_loop_from (get_all fuel) cls) with (3 := E).
  - intros c dc M R u g I. destruct (IH _ _ _ _ R I) as (c' & Rc & Ic).
    exists c'. split; [|exact Ic]. eapply reachable_step; eauto.
  - intros c M. exact M.
  - intros u g I. exists cls. split; [constructor|exact I].
Qed.

(** *** TypeError: raised by a Union, swallowed above a class *)

Section Loading.
Variable Object : Type.
Variable structure : list (string * Func) -> value -> string -> result Object.

(** X11: a [Union] annotation with an argument that is not a class (as
    in [Optional[List[int]]]) makes [get_all_disambiguators] raise
    [TypeError], when the fields before it are inert and the arguments
    before it are classes other than a [DictDataClass]: [issubclass] is
    called on the argument inside the [except] clause, where nothing
    catches its error.  So [from_dict] raises it for every dictionary,
    before the converter is used: such a class cannot be loaded. *)
Theorem union_argument_not_a_class_raises (cls f : string) (fuel : nat)
  (pre post : list (string * annotation)) (cs rest : list annotation)
  (bad : annotation) :
  annotations cls = pre ++ (f, TUnion (cs ++ bad :: rest)) :: post ->
  forallb (fun ft => inert is_DictDataClass (snd ft)) pre = true ->
  forallb (other_class is_DictDataClass) cs = true ->
  not_a_class bad = true ->
  get_all_disambiguators Func is_DictDataClass get_disambiguators
    annotations (S fuel) cls = Raise TypeError
  /\ forall d,
       from_dict Func is_DictDataClass get_disambiguators annotations
         Object structure (S fuel) cls d = Raise TypeError.
Proof.
  intros A Hpre Hcs Hbad.
  assert (get_all (S fuel) cls = Raise TypeError) as E.
  { cbn [get_all_disambiguators]. rewrite A.
    rewrite annotations_loop_app, (annotations_loop_inert _ _ _ Hpre).
    cbn [bind annotations_loop annotation_step].
    assert (forall d, u_loop (get_all fuel) (cs ++ bad :: rest) d
                      = Raise TypeError) as U.
    { clear -Hcs Hbad. induction cs as [|t cs IH]; intros d.
      - cbn [app union_loop]. destruct bad; [discriminate|reflexivity..].
      - cbn [forallb] in Hcs. apply andb_true_iff in Hcs as [H1 H2].
        destruct t as [c|a|]; try discriminate. cbn [other_class] in H1.
        apply negb_true_iff in H1. cbn [app union_loop]. rewrite H1.
        now apply IH. }
    now rewrite U. }
  split; [exact E|]. intros d. unfold from_dict. now rewrite E.
Qed.

End Loading.

(** X12: a [TypeError] raised while the disambiguators of the class [c]
    of a field are collected is caught by the class that has the field:
    the field contributes nothing, not even the entries that [c] itself
    declares, and the loop goes on as if the field were not annotated. *)
Theorem nested_type_error_swallowed (p c g : string) (fuel : nat)
  (pre post : list (string * annotation)) :
  is_DictDataClass c = true ->
  get_all_disambiguators Func is_DictDataClass get_disambiguators
      annotations fuel c = Raise TypeError ->
  annotations p = pre ++ (g, TClass c) :: post ->
  get_all_disambiguators Func is_DictDataClass get_disambiguators
      annotations (S fuel) p
  = a_loop (get_all_disambiguators Func is_DictDataClass get_disambiguators
      annotations fuel) (pre ++ post) (get_disambiguators p).
Proof.
  intros D R A. cbn [get_all_disambiguators]. rewrite A.
  rewrite !annotations_loop_app.
  destruct (a_loop (get_all fuel) pre (get_disambiguators p)) as [d|e];
    cbn [bind]; [|reflexivity].
  cbn [annotations_loop annotation_step]. now rewrite D, R.
Qed.

(** *** The entry of a nested class replaces the one of the class *)

Section Distinct.
Hypothesis own_distinct : forall c, NoDup (keys (get_disambiguators c)).

Section Loops.
Variable rec : string -> result (list (string * Func)).

Lemma union_loop_distinct (args : list annotation) :
  forall d d', u_loop rec args d = Ok d' -> NoDup (keys d) -> NoDup (keys d').
Proof.
  induction args as [|t args IH]; intros d d' E ND.
  - inversion E; subst. exact ND.
  - cbn [union_loop] in E. destruct t as [c|a|]; try discriminate.
    destruct (is_DictDataClass c); [|eauto].
    destruct (rec c) as [dc|e]; [|discriminate]. cbn [bind] in E.
    apply (IH _ _ E). now apply dict_update_distinct.
Qed.

Lemma annotations_loop_distinct (items : list (string * annotation)) :
  forall d d', a_loop rec items d = Ok d' -> NoDup (keys d) -> NoDup (keys d').
Proof.
  induction items as [|[f t] items IH]; intros d d' E ND.
  - inversion E; subst. exact ND.
  - cbn [annotations_loop] in E.
    destruct (a_step rec t d) as [d1|e] eqn:S; [|discriminate].
    cbn [bind] in E. apply (IH _ _ E).
    destruct t as [c|args|]; cbn [annotation_step] in S.
    + destruct (is_DictDataClass c); [|inversion S; subst; exact ND].
      destruct (rec c) as [dc|e].
      * inversion S; subst. now apply dict_update_distinct.
      * destruct e; inversion S; subst; exact ND.
    + now apply (union_loop_distinct args d).
    + inversion S; subst. exact ND.
Qed.

End Loops.

Lemma get_all_disambiguators_distinct (fuel : nat) :
  forall cls d, get_all fuel cls = Ok d -> NoDup (keys d).
Proof.
  destruct fuel as [|fuel]; intros cls d E; [discriminate|].
  cbn [get_all_disambiguators] in E.
  apply (annotations_loop_distinct (get_all fuel) _ _ _ E).
  apply own_distinct.
Qed.

(** X13: when the class [c] of a field supplies a disambiguator for a
    union type, and the fields after it are inert, that entry is the one
    [get_all_disambiguators] returns for the union type: [update]
    replaces what the class itself declared for it in
    [get_disambiguators()]. *)
Theorem nested_disambiguator_wins (cls c f u : string) (g : Func)
  (fuel : nat) (pre post : list (string * annotation))
  (dc d : list (string * Func)) :
  annotations cls = pre ++ (f, TClass c) :: post ->
  forallb (fun ft => inert is_DictDataClass (snd ft)) post = true ->
  is_DictDataClass c = true ->
  get_all_disambiguators Func is_DictDataClass get_disambiguators
      annotations fuel c = Ok dc -> dict_get u dc = Some g ->
  get_all_disambiguators Func is_DictDataClass get_disambiguators
      annotations (S fuel) cls = Ok d ->
  dict_get u d = Some g.
Proof.
  intros A Hpost D R G E. cbn [get_all_disambiguators] in E.
  rewrite A, annotations_loop_app in E.
  destruct (a_loop (get_all fuel) pre (get_disambiguators cls)) as [d0|e];
    [|discriminate].
  cbn [bind annotations_loop annotation_step] in E. rewrite D, R in E.
  cbn [bind] in E. rewrite (annotations_loop_inert _ _ _ Hpost) in E.
  inversion E; subst. apply dict_get_update; [|exact G].
  apply (get_all_disambiguators_distinct _ _ _ R).
Qed.

End Distinct.

End Classes.

(** *** The theorems at the example hierarchy *)

Lemma example_rank_decreases :
  forall c c',
    In c' (mentions example_is_DictDataClass example_annotations c) ->
    example_rank c' < example_rank c.
Proof.
  intros c c'. unfold mentions, example_annotations, example_rank.
  destruct (String.eqb_spec c "Outer") as [->|_];
    [cbn; intros [<-|[<-|[]]]; cbn; lia|].
  destruct (String.eqb_spec c "Wrapper") as [->|_];
    [cbn; intros [<-|[]]; cbn; lia|].
  destruct (String.eqb_spec c "Inner") as [->|_];
    [cbn; intros [<-|[<-|[]]]; cbn; lia|].
  destruct (String.eqb_spec c "A") as [->|_]; [cbn; intros []|].
  destruct (String.eqb_spec c "Broken") as [->|_]; [cbn; intros []|].
  destruct (String.eqb_spec c "Holder") as [->|_];
    [cbn; intros [<-|[]]; cbn; lia|].
  intros [].
Qed.

Lemma get_all_disambiguators_terminates_witness :
  (exists d,
      get_all_disambiguators string example_is_DictDataClass
        example_get_disambiguators example_annotations
        (S (example_rank "Outer")) "Outer" = Ok d)
  \/ get_all_disambiguators string example_is_DictDataClass
       example_get_disambiguators example_annotations
       (S (example_rank "Outer")) "Outer" = Raise TypeError.
Proof.
  apply (get_all_disambiguators_terminates string example_is_DictDataClass
           example_get_disambiguators example_annotations example_rank
           example_rank_decreases "Outer").
Defined.

Lemma self_annotation_never_returns_witness :
  exists e,
    get_all_disambiguators string example_is_DictDataClass
      example_get_disambiguators example_annotations_with_node 40 "Node"
    = Raise e.
Proof.
  apply (self_annotation_never_returns string example_is_DictDataClass
           example_get_disambiguators example_annotations_with_node
           "Node" "next").
  - reflexivity.
  - cbn. right. left. reflexivity.
Defined.

Lemma get_all_disambiguators_own_witness :
  get_all_disambiguators string example_is_DictDataClass
    example_get_disambiguators example_annotations 1 "A"
  = Ok [("Union[int, str]", "int_or_str")].
Proof.
  apply (get_all_disambiguators_own string example_is_DictDataClass
           example_get_disambiguators example_annotations "A" 0).
  reflexivity.
Defined.

Lemma get_all_disambiguators_provenance_witness :
  exists c,
    reachable example_is_DictDataClass example_annotations "Outer" c
    /\ In ("Union[A, B]", "inner_a_or_b") (example_get_disambiguators c).
Proof.
  apply (get_all_disambiguators_provenance string example_is_DictDataClass
           example_get_disambiguators example_annotations 3 "Outer"
           [("Union[A, int]", "outer_a_or_int");
            ("Union[A, B]", "inner_a_or_b");
            ("Union[int, str]", "int_or_str")]).
  - reflexivity.
  - cbn. right. left. reflexivity.
Defined.

Lemma union_argument_not_a_class_raises_witness :
  get_all_disambiguators string example_is_DictDataClass
    example_get_disambiguators example_annotations 1 "Broken"
  = Raise TypeError
  /\ forall d,
       from_dict string example_is_DictDataClass example_get_disambiguators
         example_annotations value (fun _ v _ => Ok v) 1 "Broken" d
       = Raise TypeError.
Proof.
  apply (union_argument_not_a_class_raises string example_is_DictDataClass
           example_get_disambiguators example_annotations value
           (fun _ v _ => Ok v) "Broken" "sizes" 0
           [] [] [] [TClass "NoneType"] TOther); reflexivity.
Defined.

Lemma nested_type_error_swallowed_witness :
  get_all_disambiguators string example_is_DictDataClass
    example_get_disambiguators example_annotations 2 "Holder"
  = Ok [("Union[P, Q]", "p_or_q")].
Proof.
  apply (nested_type_error_swallowed string example_is_DictDataClass
           example_get_disambiguators example_annotations
           "Holder" "Broken" "part" 1 [] []); reflexivity.
Defined.

Lemma example_own_distinct :
  forall c, NoDup (keys (example_get_disambiguators c)).
Proof.
  intros c. unfold example_get_disambiguators.
  repeat match goal with
         | |- context [String.eqb c ?x] => destruct (String.eqb c x)
         end;
    cbn; repeat constructor; cbn; intuition discriminate.
Qed.

Lemma nested_disambiguator_wins_witness :
  dict_get "Union[A, B]"
    [("Union[A, B]", "inner_a_or_b"); ("Union[int, str]", "int_or_str")]
  = Some "inner_a_or_b".
Proof.
  apply (nested_disambiguator_wins string example_is_DictDataClass
           example_get_disambiguators example_annotations example_own_distinct
           "Wrapper" "Inner" "inner" "Union[A, B]" "inner_a_or_b" 2
           [("n", TClass "int")] []
           [("Union[A, B]", "inner_a_or_b"); ("Union[int, str]", "int_or_str")]);
    reflexivity.
Defined.

End ClassFacts.

(** ** Expansion on values *)

Module SweepFacts.
Import Sweep SweepSpec.

Lemma sweep_value_ind (P : value -> Prop) :
  (forall a, P (VLeaf a)) ->
  (forall fields, Forall (fun kv => P (snd kv)) fields -> P (VParams fields)) ->
  (forall data, Forall P data -> P (VSettings data)) ->
  forall v, P v.
Proof.
  intros HL HP HS. fix IH 1. intros [a|fields|data].
  - apply HL.
  - apply HP. induction fields as [|[k v] fields IHf]; constructor.
    + apply IH.
    + exact IHf.
  - apply HS. induction data as [|v data IHd]; constructor.
    + apply IH.
    + exact IHd.
Qed.

(** *** The product *)

Lemma flat_map_flat_map {A B C : Type} (f : B -> list C) (g : A -> list B)
  (l : list A) :
  flat_map f (flat_map g l) = flat_map (fun x => flat_map f (g x)) l.
Proof.
  induction l as [|x l IH]; cbn; [reflexivity|].
  now rewrite flat_map_app, IH.
Qed.

Lemma flat_map_map' {A B C : Type} (f : B -> list C) (g : A -> B)
  (l : list A) :
  flat_map f (map g l) = flat_map (fun x => f (g x)) l.
Proof. induction l as [|x l IH]; cbn; [reflexivity|now rewrite IH]. Qed.

Lemma map_flat_map' {A B C : Type} (f : B -> C) (g : A -> list B)
  (l : list A) :
  map f (flat_map g l) = flat_map (fun x => map f (g x)) l.
Proof.
  induction l as [|x l IH]; cbn; [reflexivity|].
  now rewrite map_app, IH.
Qed.

Section Product.
Context {A : Type}.
Implicit Types (pools : list (list A)) (acc : list (list A)).

Lemma product_from acc pools :
  fold_left
    (fun result pool => flat_map (fun x => map (fun y => x ++ [y]) pool) result)
    pools acc
  = flat_map (fun x => map (app x) (cartesian pools)) acc.
Proof.
  revert acc. induction pools as [|pool pools IH]; intros acc.
  - cbn. induction acc as [|x acc IHa]; cbn; [reflexivity|].
    now rewrite app_nil_r, <- IHa.
  - cbn [fold_left cartesian]. rewrite IH.
    rewrite flat_map_flat_map.
    apply flat_map_ext. intros x.
    rewrite flat_map_map', map_flat_map'.
    apply flat_map_ext. intros y. rewrite !map_map.
    apply map_ext. intros t. now rewrite <- app_assoc.
Qed.

(** [itertools.product] enumerates the cartesian product with the last
    pool iterating fastest. *)
Lemma product_cartesian pools : product pools = cartesian pools.
Proof.
  unfold product. rewrite product_from. cbn.
  rewrite app_nil_r. apply map_id.
Qed.

Lemma length_flat_map_const {B : Type} (f : A -> list B) (l : list A)
  (n : nat) :
  (forall x, List.length (f x) = n) ->
  List.length (flat_map f l) = List.length l * n.
Proof.
  intros H. induction l as [|x l IH]; cbn; [reflexivity|].
  rewrite length_app, H, IH. reflexivity.
Qed.

Lemma length_cartesian pools :
  List.length (cartesian pools) = list_prod (map (@List.length A) pools).
Proof.
  induction pools as [|pool pools IH]; cbn; [reflexivity|].
  rewrite (length_flat_map_const _ _ (List.length (cartesian pools))).
  - now rewrite IH.
  - intros x. apply length_map.
Qed.

Lemma cartesian_tuple_length pools (t : list A) :
  In t (cartesian pools) -> List.length t = List.length pools.
Proof.
  revert t. induction pools as [|pool pools IH]; intros t I; cbn in I.
  - destruct I as [<-|[]]. reflexivity.
  - apply in_flat_map in I as (x & _ & I).
    apply in_map_iff in I as (t' & <- & I). cbn. f_equal. now apply IH.
Qed.

End Product.

(** *** Assigning the fields of a tuple *)

Lemma assign_keys (kvs s : list (string * value)) :
  incl (map fst kvs) (keys s) -> keys (assign kvs s) = keys s.
Proof.
  revert s. induction kvs as [|[k v] kvs IH]; intros s H; [reflexivity|].
  cbn [assign]. assert (In k (keys s)) as Hk by (apply H; now left).
  rewrite IH; [now apply keys_dict_set|].
  rewrite (keys_dict_set _ _ _ Hk). intros x I. apply H. now right.
Qed.

Lemma dict_set_assign (k : string) (v : value) (kvs s : list (string * value)) :
  ~ In k (map fst kvs) -> In k (keys s) -> incl (map fst kvs) (keys s) ->
  dict_set k v (assign kvs s) = assign kvs (dict_set k v s).
Proof.
  revert s. induction kvs as [|[k' v'] kvs IH]; intros s N Hk H;
    [reflexivity|].
  cbn [assign]. cbn [map fst] in N, H.
  assert (In k' (keys s)) as Hk' by (apply H; now left).
  assert (k <> k') as D by (intros ->; apply N; now left).
  rewrite IH.
  - f_equal. destruct (dict_set_comm k k' v v' s D) as [E|[C|C]];
      [exact E|contradiction|contradiction].
  - intros I. apply N. now right.
  - now rewrite (keys_dict_set _ _ _ Hk').
  - rewrite (keys_dict_set _ _ _ Hk'). intros x I. apply H. now right.
Qed.

Lemma in_combine_fst {A B : Type} (l : list A) (l' : list B) (x : A) :
  In x (map fst (combine l l')) -> In x l.
Proof.
  intros I. apply in_map_iff in I as ([a b] & <- & I).
  now apply in_combine_l in I.
Qed.

Lemma assign_overwrite (ks : list string) (vs vs' : list value)
  (s : list (string * value)) :
  NoDup ks -> incl ks (keys s) ->
  List.length vs = List.length ks -> List.length vs' = List.length ks ->
  assign (combine ks vs) (assign (combine ks vs') s)
  = assign (combine ks vs) s.
Proof.
  revert vs vs' s. induction ks as [|k ks IH]; intros vs vs' s ND H L L';
    [reflexivity|].
  destruct vs as [|v vs]; [discriminate|].
  destruct vs' as [|v' vs']; [discriminate|].
  inversion ND as [|? ? Nk ND']; subst. cbn [combine assign].
  assert (In k (keys s)) as Hk by (apply H; now left).
  assert (incl ks (keys s)) as Hks by (intros x I; apply H; now right).
  assert (forall w, keys (dict_set k w s) = keys s) as Kk
    by (intros w; now apply keys_dict_set).
  rewrite (dict_set_assign k v (combine ks vs') (dict_set k v' s)).
  - rewrite dict_set_set. apply IH; auto. now rewrite Kk.
  - intros I. apply Nk. eapply in_combine_fst; eauto.
  - now rewrite Kk.
  - rewrite Kk. intros x I. apply Hks. eapply in_combine_fst; eauto.
Qed.

Lemma length_settings_loop (tuples : list (list value)) (ks : list string)
  (s : list (string * value)) (acc : list value) :
  List.length (settings_loop tuples ks s acc)
  = List.length acc + List.length tuples.
Proof.
  revert s acc. induction tuples as [|t tuples IH]; intros s acc; cbn.
  - lia.
  - rewrite IH, length_app. cbn. lia.
Qed.

(** [_setting] is reused between tuples, but every tuple assigns all of
    [keys], so each output is the original tree with the tuple assigned. *)
Lemma settings_loop_map (tuples : list (list value)) (ks : list string)
  (s0 s : list (string * value)) (acc : list value) :
  NoDup ks -> incl ks (keys s0) ->
  (forall t, In t tuples -> List.length t = List.length ks) ->
  (s = s0 \/ exists t', List.length t' = List.length ks
                        /\ s = assign (combine ks t') s0) ->
  settings_loop tuples ks s acc = acc ++ map (with_values s0 ks) tuples.
Proof.
  intros ND H. revert s acc.
  induction tuples as [|t tuples IH]; intros s acc L Hs.
  - cbn. now rewrite app_nil_r.
  - cbn [settings_loop map]. unfold deepcopy.
    assert (List.length t = List.length ks) as Lt by (apply L; now left).
    assert (assign (combine ks t) s = assign (combine ks t) s0) as E.
    { destruct Hs as [->|(t' & Lt' & ->)]; [reflexivity|].
      now apply assign_overwrite. }
    rewrite E, IH.
    + now rewrite <- app_assoc.
    + intros t' I. apply L. now right.
    + right. eauto.
Qed.

(** *** The loop over the fields *)

Section Collect.
Variable rec : value -> result (list value).

Lemma collect_acc (items : list (string * value)) (ks : list string)
  (vls : list (list value)) :
  collect rec items ks vls
  = (r <- collect rec items [] [] ;; Ok (ks ++ fst r, vls ++ snd r)).
Proof.
  revert ks vls. induction items as [|[k v] items IH]; intros ks vls.
  - cbn. now rewrite !app_nil_r.
  - cbn [collect]. destruct (candidates rec k v) as [[vs|]|e]; cbn [bind].
    + rewrite (IH (ks ++ [k])), (IH ([] ++ [k])).
      destruct (collect rec items [] []) as [[ks' vls']|e]; cbn;
        [|reflexivity].
      now rewrite <- !app_assoc.
    + apply IH.
    + reflexivity.
Qed.

Lemma candidates_varying (k : string) (v : value) (c : option (list value)) :
  candidates rec k v = Ok c ->
  c = None /\ varying v = false \/ (exists vs, c = Some vs) /\ varying v = true.
Proof.
  destruct v as [a|fields|data]; cbn.
  - intros E. inversion E. now left.
  - destruct (rec (VParams fields)); cbn; intros E; inversion E.
    right. eauto.
  - destruct data as [|v0 data]; [discriminate|].
    destruct (is_Parameters v0).
    + destruct (expand_each rec (v0 :: data)); cbn; intros E; inversion E.
      right. eauto.
    + intros E; inversion E. right. eauto.
Qed.

Lemma collect_keys (items : list (string * value)) (ks : list string)
  (vls : list (list value)) :
  collect rec items [] [] = Ok (ks, vls) ->
  ks = map fst (filter (fun kv => varying (snd kv)) items)
  /\ List.length vls = List.length ks.
Proof.
  revert ks vls. induction items as [|[k v] items IH]; intros ks vls E.
  - cbn in E. inversion E. now split.
  - cbn [collect] in E. destruct (candidates rec k v) as [c|e] eqn:C;
      [|discriminate].
    cbn [bind] in E. cbn [filter snd].
    destruct (candidates_varying _ _ _ C) as [[-> V]|[[vs ->] V]]; rewrite V.
    + now apply IH.
    + rewrite collect_acc in E.
      destruct (collect rec items [] []) as [[ks' vls']|e] eqn:C';
        [|discriminate].
      cbn in E. inversion E; subst. destruct (IH _ _ eq_refl) as [-> L].
      split; [reflexivity|]. cbn. now rewrite L.
Qed.

End Collect.

Lemma filter_keys_NoDup (sel : string * value -> bool)
  (fields : list (string * value)) :
  NoDup (keys fields) -> NoDup (keys (filter sel fields)).
Proof.
  unfold keys. intros ND.
  induction fields as [|[k v] fields IH]; [constructor|].
  cbn [map fst] in ND. inversion ND as [|? ? N ND']; subst.
  cbn [filter]. destruct (sel (k, v)); [|now apply IH].
  cbn [map fst]. constructor; [|now apply IH].
  intros I. apply N. apply in_map_iff in I as (kv & E & I).
  apply filter_In in I as [I _]. apply in_map_iff. eauto.
Qed.

Lemma filter_keys_incl (sel : string * value -> bool)
  (fields : list (string * value)) :
  incl (keys (filter sel fields)) (keys fields).
Proof.
  unfold keys. intros k I. apply in_map_iff in I as (kv & E & I).
  apply filter_In in I as [I _]. apply in_map_iff. eauto.
Qed.

(** *** The fields of a tuple, in the order of the fields *)

Lemma assign_cons_other (k : string) (v : value) (kvs : list (string * value)) :
  forall s, ~ In k (map fst kvs) ->
            assign kvs ((k, v) :: s) = (k, v) :: assign kvs s.
Proof.
  induction kvs as [|[k' x] kvs IH]; intros s N; [reflexivity|].
  cbn [map fst] in N. cbn [assign dict_set].
  destruct (String.eqb_spec k' k) as [->|_];
    [exfalso; apply N; now left|].
  apply IH. intros I. apply N. now right.
Qed.

Lemma refill_nil (fields : list (string * value)) : refill fields [] = fields.
Proof.
  induction fields as [|[k v] fields IH]; [reflexivity|].
  cbn [refill]. rewrite IH. now destruct (varying v).
Qed.

Lemma keys_refill (fields : list (string * value)) :
  forall values, keys (refill fields values) = keys fields.
Proof.
  induction fields as [|[k v] fields IH]; intros values; [reflexivity|].
  cbn [refill]. destruct (varying v); [destruct values as [|x values]|];
    unfold keys in *; cbn [map fst]; now rewrite IH.
Qed.

(** The assignments of one tuple replace the varying fields in order. *)
Lemma assign_refill (fields : list (string * value)) :
  NoDup (keys fields) ->
  forall values,
    assign (combine (map fst (filter (fun kv => varying (snd kv)) fields))
              values) fields
    = refill fields values.
Proof.
  induction fields as [|[k v] fields IH]; intros ND values;
    [now destruct values|].
  cbn in ND. inversion ND as [|? ? Nk ND']; subst.
  assert (forall t : list value, ~ In k (map fst (combine
            (map fst (filter (fun kv => varying (snd kv)) fields)) t))) as F.
  { intros t I. apply in_combine_fst in I. apply Nk.
    now apply filter_keys_incl in I. }
  cbn [filter snd refill]. destruct (varying v).
  - destruct values as [|x values]; cbn [map fst combine assign].
    + now rewrite refill_nil.
    + cbn [dict_set]. rewrite String.eqb_refl.
      rewrite assign_cons_other by apply F. now rewrite IH.
  - rewrite assign_cons_other by apply F. now rewrite IH.
Qed.

Lemma refill_own (fields : list (string * value)) :
  refill fields (map snd (filter (fun kv => varying (snd kv)) fields))
  = fields.
Proof.
  induction fields as [|[k v] fields IH]; [reflexivity|].
  cbn [filter snd refill]. destruct (varying v) eqn:V.
  - cbn [map snd]. now rewrite IH.
  - now rewrite IH.
Qed.

Lemma get_settings_eq (fields : list (string * value)) :
  get_settings (VParams fields)
  = (if methods_visible fields
     then kv <- collect get_settings fields [] [] ;;
          Ok (settings_loop (product (snd kv)) (fst kv) fields [])
     else Raise TypeError).
Proof.
  cbn [get_settings]. unfold bound_method, methods_visible, deepcopy.
  destruct (has_attribute "get_settings" fields); [reflexivity|].
  destruct (has_attribute "items" fields); reflexivity.
Qed.

Lemma get_settings_visible (fields : list (string * value)) :
  methods_visible fields = true ->
  get_settings (VParams fields)
  = (kv <- collect get_settings fields [] [] ;;
     Ok (settings_loop (product (snd kv)) (fst kv) fields [])).
Proof. intros V. now rewrite get_settings_eq, V. Qed.

Lemma get_settings_hidden (fields : list (string * value)) :
  methods_visible fields = false ->
  get_settings (VParams fields) = Raise TypeError.
Proof. intros V. now rewrite get_settings_eq, V. Qed.

Lemma get_settings_returned (fields : list (string * value))
  (outs : list value) :
  get_settings (VParams fields) = Ok outs -> methods_visible fields = true.
Proof.
  rewrite get_settings_eq. now destruct (methods_visible fields).
Qed.

(** A call that returned went past the two lookups. *)
Ltac returned E :=
  let V := fresh "Vis" in
  pose proof (get_settings_returned _ _ E) as V;
  rewrite (get_settings_visible _ V) in E.

Lemma collect_fixed (rec : value -> result (list value))
  (items : list (string * value)) :
  forallb (fun kv => negb (varying (snd kv))) items = true ->
  collect rec items [] [] = Ok ([], []).
Proof.
  induction items as [|[k v] items IH]; cbn [forallb snd]; intros H;
    [reflexivity|].
  apply andb_true_iff in H as [H1 H2].
  destruct v as [a|fields|data]; try discriminate.
  cbn. now apply IH.
Qed.

(** *** Candidate lists of a Settings field *)

Section Candidates.
Variable rec : value -> result (list value).

Lemma expand_each_concat (data : list value) (outss : list (list value)) :
  Forall2 (fun v outs => rec v = Ok outs) data outss ->
  expand_each rec data = Ok (List.concat outss).
Proof.
  induction 1 as [|v outs data outss E _ IH]; [reflexivity|].
  cbn. now rewrite E, IH.
Qed.

Lemma expand_each_raise (data : list value) (v : value) (e : exn) :
  In v data -> rec v = Raise e -> exists e', expand_each rec data = Raise e'.
Proof.
  induction data as [|x data IH]; intros I E; [contradiction|].
  cbn. destruct I as [->|I].
  - rewrite E. cbn. eauto.
  - destruct (rec x); cbn; [|eauto].
    destruct (IH I E) as [e' ->]. cbn. eauto.
Qed.

End Candidates.

(** C6: for a non-empty [Settings] list of [Parameters] instances the
    candidate list is the concatenation, in list order, of the expansions
    of its elements; for a non-empty list without such instance it is the
    list itself. *)
Theorem settings_candidates (k : string) (data : list value) :
  data <> [] ->
  (forall outss,
      Forall (fun v => is_Parameters v = true) data ->
      Forall2 (fun v outs => get_settings v = Ok outs) data outss ->
      candidates get_settings k (VSettings data)
      = Ok (Some (List.concat outss)))
  /\ (Forall (fun v => is_Parameters v = false) data ->
      candidates get_settings k (VSettings data) = Ok (Some data)).
Proof.
  intros NE. destruct data as [|v0 data]; [congruence|]. split.
  - intros outss P F. inversion P as [|? ? P0 _]; subst.
    cbn [candidates]. rewrite P0.
    now rewrite (expand_each_concat _ _ _ F).
  - intros P. inversion P as [|? ? P0 _]; subst.
    cbn [candidates]. now rewrite P0.
Qed.

Lemma settings_candidates_witness :
  let p1 := VParams [("x", VSettings [VLeaf (AInt 1); VLeaf (AInt 2)])] in
  let p2 := VParams [("x", VLeaf (AInt 3))] in
  candidates get_settings "opt" (VSettings [p1; p2])
  = Ok (Some [VParams [("x", VLeaf (AInt 1))];
              VParams [("x", VLeaf (AInt 2))];
              VParams [("x", VLeaf (AInt 3))]])
  /\ candidates get_settings "lr" (VSettings [VLeaf (AInt 10); VLeaf (AInt 20)])
     = Ok (Some [VLeaf (AInt 10); VLeaf (AInt 20)]).
Proof.
  cbv zeta. split.
  - apply (proj1 (settings_candidates "opt"
                    [VParams [("x", VSettings [VLeaf (AInt 1);
                                               VLeaf (AInt 2)])];
                     VParams [("x", VLeaf (AInt 3))]]
                    ltac:(discriminate))
             [[VParams [("x", VLeaf (AInt 1))];
               VParams [("x", VLeaf (AInt 2))]];
              [VParams [("x", VLeaf (AInt 3))]]]).
    + repeat (apply Forall_cons; [reflexivity|]). apply Forall_nil.
    + repeat (apply Forall2_cons; [reflexivity|]). apply Forall2_nil.
  - apply (proj2 (settings_candidates "lr"
                    [VLeaf (AInt 10); VLeaf (AInt 20)]
                    ltac:(discriminate))).
    repeat (apply Forall_cons; [reflexivity|]). apply Forall_nil.
Defined.

(** *** The expansion that the specification describes *)

Lemma expand_each_parameters (data vs : list value) :
  expand_each get_settings data = Ok vs ->
  forallb is_Parameters data = true.
Proof.
  revert vs. induction data as [|v data IH]; intros vs E; [reflexivity|].
  cbn [expand_each] in E.
  destruct (get_settings v) as [ss|e] eqn:G; [|discriminate].
  cbn [bind] in E.
  destruct (expand_each get_settings data) as [rs|e]; [|discriminate].
  cbn [forallb]. rewrite (IH _ eq_refl).
  destruct v; [discriminate|reflexivity|discriminate].
Qed.

Lemma expand_each_specified (data : list value) :
  Forall expands_as_specified data ->
  forallb well_named data = true ->
  forall vs,
    expand_each get_settings data = Ok vs ->
    exists outss, expansions data outss /\ vs = List.concat outss.
Proof.
  induction 1 as [|v data Hv _ IH]; intros W vs E.
  - inversion E; subst. exists []. split; [constructor|reflexivity].
  - cbn [forallb] in W. apply andb_true_iff in W as [Wv W].
    cbn [expand_each] in E.
    destruct (get_settings v) as [ss|e] eqn:G; [|discriminate].
    cbn [bind] in E.
    destruct (expand_each get_settings data) as [rs|e]; [|discriminate].
    inversion E; subst.
    destruct (IH W _ eq_refl) as (outss & X & ->).
    exists (ss :: outss). split; [|reflexivity].
    constructor; [now apply Hv|exact X].
Qed.

Lemma candidates_specified (k : string) (v : value)
  (c : option (list value)) (fields : list (string * value))
  (cands : list (list value)) :
  expands_as_specified v ->
  (forall data, v = VSettings data -> Forall expands_as_specified data) ->
  well_named v = true ->
  candidates get_settings k v = Ok c ->
  candidate_lists fields cands ->
  candidate_lists ((k, v) :: fields)
    (match c with Some vs => vs :: cands | None => cands end).
Proof.
  intros Hv Hd W C L. destruct v as [a|sub|data]; cbn [candidates] in C.
  - inversion C; subst. now apply fixed_field.
  - destruct (get_settings (VParams sub)) as [vs|e] eqn:G; [|discriminate].
    inversion C; subst. apply tree_field; [now apply Hv|exact L].
  - destruct data as [|v0 data]; [discriminate|].
    specialize (Hd _ eq_refl). cbn [well_named] in W.
    destruct (is_Parameters v0) eqn:P0.
    + destruct (expand_each get_settings (v0 :: data)) as [vs|e] eqn:X;
        [|discriminate].
      inversion C; subst.
      destruct (expand_each_specified _ Hd W _ X) as (outss & Xs & ->).
      apply tree_list_field; [discriminate| |exact Xs|exact L].
      exact (expand_each_parameters _ _ X).
    + inversion C; subst.
      apply leaf_list_field; [discriminate| |exact L].
      cbn [forallb]. now rewrite P0.
Qed.

Lemma collect_specified (items : list (string * value)) :
  Forall (fun kv => expands_as_specified (snd kv)
                    /\ forall data, snd kv = VSettings data ->
                                    Forall expands_as_specified data) items ->
  forallb (fun kv => well_named (snd kv)) items = true ->
  forall ks vls,
    collect get_settings items [] [] = Ok (ks, vls) ->
    candidate_lists items vls.
Proof.
  induction 1 as [|[k v] items [Hv Hd] _ IH]; intros W ks vls E.
  - inversion E; subst. constructor.
  - cbn [forallb snd] in W, Hv, Hd. apply andb_true_iff in W as [Wv W].
    cbn [collect] in E.
    destruct (candidates get_settings k v) as [c|e] eqn:C; [|discriminate].
    cbn [bind] in E.
    assert (exists ks' vls',
               collect get_settings items [] [] = Ok (ks', vls')
               /\ vls = match c with
                        | Some vs => vs :: vls'
                        | None => vls'
                        end) as (ks' & vls' & E' & ->).
    { destruct c as [vs|]; [|eauto].
      rewrite collect_acc in E.
      destruct (collect get_settings items [] []) as [[ks' vls']|e];
        [|discriminate].
      inversion E; subst. eauto. }
    eapply candidates_specified; eauto.
Qed.

Lemma candidate_lists_length (fields : list (string * value))
  (cands : list (list value)) :
  candidate_lists fields cands ->
  List.length cands
  = List.length (filter (fun kv => varying (snd kv)) fields).
Proof.
  induction 1 as [|k v fields cands V _ IH|k sub outs fields cands _ _ IH
                  |k data outss fields cands _ _ _ _ IH
                  |k data fields cands _ _ _ IH];
    cbn [filter snd]; [reflexivity|now rewrite V|..];
    cbn [varying is_Parameters is_Settings orb List.length]; now rewrite IH.
Qed.

Lemma get_settings_specified_below (v : value) :
  expands_as_specified v
  /\ forall data, v = VSettings data -> Forall expands_as_specified data.
Proof.
  induction v as [a|fields IH|data IH] using sweep_value_ind.
  - split; [intros outs _ E; discriminate|intros data E; discriminate].
  - split; [|intros data E; discriminate].
    intros outs W E. cbn [well_named] in W.
    apply andb_true_iff in W as [D W].
    pose proof (PathFacts.distinct_NoDup _ D) as ND.
    returned E.
    destruct (collect get_settings fields [] []) as [[ks vls]|e] eqn:C;
      [|discriminate].
    cbn [bind fst snd] in E. inversion E; subst. clear E.
    destruct (collect_keys _ _ _ _ C) as [-> L].
    rewrite product_cartesian.
    rewrite (settings_loop_map _ _ fields fields []);
      [|now apply filter_keys_NoDup|apply filter_keys_incl
       |intros t I; apply cartesian_tuple_length in I; congruence|now left].
    cbn [app].
    rewrite (map_ext _ (fun tuple => VParams (refill fields tuple))).
    + constructor. exact (collect_specified fields IH W _ _ C).
    + intros tuple. unfold with_values. now rewrite (assign_refill _ ND).
  - split; [intros outs _ E; discriminate|].
    intros data' E. inversion E; subst.
    eapply Forall_impl; [|exact IH]. intros v [H _]. exact H.
Qed.

(** The specification describes one expansion at most. *)
Lemma expansion_functional_all :
  (forall t outs, expansion t outs ->
                  forall outs', expansion t outs' -> outs = outs')
  /\ (forall fields cands, candidate_lists fields cands ->
        forall cands', candidate_lists fields cands' -> cands = cands')
  /\ (forall data outss, expansions data outss ->
        forall outss', expansions data outss' -> outss = outss').
Proof.
  apply expansion_mutind.
  - intros fields cands _ IH outs' X. inversion X as [? cands' L]; subst.
    now rewrite (IH _ L).
  - intros cands' X. now inversion X.
  - intros k v fields cands V _ IH cands' X.
    inversion X; subst; try discriminate; auto.
  - intros k sub outs fields cands _ IHo _ IH cands' X.
    inversion X; subst; try discriminate.
    f_equal; auto.
  - intros k data outss fields cands NE P _ IHo _ IH cands' X.
    inversion X; subst; try discriminate; try congruence.
    f_equal; auto. f_equal; auto.
  - intros k data fields cands NE P _ IH cands' X.
    inversion X; subst; try discriminate; try congruence.
    f_equal; auto.
  - intros outss' X. now inversion X.
  - intros v outs data outss _ IHv _ IH outss' X. inversion X; subst.
    f_equal; auto.
Qed.

Lemma expansion_functional (t : value) (outs outs' : list value) :
  expansion t outs -> expansion t outs' -> outs = outs'.
Proof. intros X X'. exact (proj1 expansion_functional_all _ _ X _ X'). Qed.

(** On a tree with distinct attribute names, a call of [get_settings]
    that returns gives the expansion of the specification. *)
Lemma get_settings_expansion (t : value) (outs : list value) :
  well_named t = true -> get_settings t = Ok outs -> expansion t outs.
Proof. intros W E. now apply (proj1 (get_settings_specified_below t)). Qed.

Lemma ordinary_fixed_tree (fields : list (string * value)) :
  forallb (fun kv => negb (varying (snd kv))) fields = true ->
  methods_visible fields = true ->
  get_settings (VParams fields) = Ok [deepcopy (VParams fields)].
Proof.
  intros H V. rewrite (get_settings_visible _ V), (collect_fixed _ _ H).
  reflexivity.
Qed.

(** C1: when [get_settings] returns, every varying field has its
    candidate list (the expansion of the tree it holds, the concatenated
    expansions of the trees of its [Settings] list, or the list itself),
    and the number of outputs is the product of the lengths of these
    lists.  A tree without varying field, whose attributes hide no
    method, has exactly one output, equal to the tree. *)
Theorem expansion_cardinality (fields : list (string * value)) :
  (forall outs,
      well_named (VParams fields) = true ->
      get_settings (VParams fields) = Ok outs ->
      exists cands,
        candidate_lists fields cands
        /\ List.length cands
           = List.length (filter (fun kv => varying (snd kv)) fields)
        /\ List.length outs = list_prod (map (@List.length value) cands))
  /\ (forallb (fun kv => negb (varying (snd kv))) fields = true ->
      methods_visible fields = true ->
      ordinary_names (VParams fields) = true ->
      get_settings (VParams fields) = Ok [deepcopy (VParams fields)]).
Proof.
  split.
  - intros outs W E. pose proof (get_settings_expansion _ _ W E) as X.
    inversion X as [fields' cands L]; subst. exists cands.
    split; [exact L|]. split; [now apply candidate_lists_length|].
    now rewrite length_map, length_cartesian.
  - intros H V _. now apply ordinary_fixed_tree.
Qed.

Lemma expansion_cardinality_witness :
  let p1 := VParams [("x", VLeaf (AInt 1))] in
  let p2 := VParams [("x", VSettings [VLeaf (AInt 2); VLeaf (AInt 3)])] in
  let fields := [("lr", VSettings [VLeaf (AInt 10); VLeaf (AInt 20)]);
                 ("momentum", VLeaf (AInt 9));
                 ("opt", VSettings [p1; p2])] in
  (exists cands,
      candidate_lists fields cands
      /\ List.length cands = 2
      /\ 6 = list_prod (map (@List.length value) cands))
  /\ get_settings (VParams [("momentum", VLeaf (AInt 9))])
     = Ok [VParams [("momentum", VLeaf (AInt 9))]].
Proof.
  cbv zeta. split.
  - apply (proj1 (expansion_cardinality
                    [("lr", VSettings [VLeaf (AInt 10); VLeaf (AInt 20)]);
                     ("momentum", VLeaf (AInt 9));
                     ("opt", VSettings
                               [VParams [("x", VLeaf (AInt 1))];
                                VParams [("x", VSettings [VLeaf (AInt 2);
                                                          VLeaf (AInt 3)])]])])
             (let out lr x := VParams [("lr", VLeaf (AInt lr));
                                       ("momentum", VLeaf (AInt 9));
                                       ("opt", VParams [("x", VLeaf (AInt x))])]
              in [out 10%Z 1%Z; out 10%Z 2%Z; out 10%Z 3%Z;
                  out 20%Z 1%Z; out 20%Z 2%Z; out 20%Z 3%Z]));
      reflexivity.
  - apply (proj2 (expansion_cardinality [("momentum", VLeaf (AInt 9))]));
      reflexivity.
Defined.

(** C1 fails as stated: a tree whose only attribute is called [items]
    has no varying field, and [get_settings] raises [TypeError] at
    [self.items()] where the claim has it return one output. *)
Lemma hidden_items_no_output :
  let fields := [("items", VLeaf (AInt 1))] in
  forallb (fun kv => negb (varying (snd kv))) fields = true
  /\ get_settings (VParams fields) = Raise TypeError
  /\ forall outs, get_settings (VParams fields) <> Ok outs.
Proof. cbv zeta. repeat split. intros outs. discriminate. Qed.

(** C5: on a tree with distinct attribute names, what [get_settings]
    returns is the expansion of the specification: the candidate lists
    of the varying fields are taken in the declared order of the fields,
    and the outputs are the tuples of their cartesian product, last field
    fastest, in the order of the product, each tuple set into the
    varying fields of the tree.  The specification allows no other
    list. *)
Theorem expansion_order (t : value) (outs : list value) :
  well_named t = true ->
  get_settings t = Ok outs ->
  (exists fields cands,
      t = VParams fields
      /\ candidate_lists fields cands
      /\ outs = map (fun tuple => VParams (refill fields tuple))
                  (cartesian cands))
  /\ forall outs', expansion t outs' -> outs' = outs.
Proof.
  intros W E. pose proof (get_settings_expansion _ _ W E) as X. split.
  - inversion X as [fields cands L]; subst. eauto.
  - intros outs' X'. exact (expansion_functional _ _ _ X' X).
Qed.

Lemma expansion_order_witness :
  let p1 := VParams [("x", VLeaf (AInt 1))] in
  let p2 := VParams [("x", VSettings [VLeaf (AInt 2); VLeaf (AInt 3)])] in
  let t := VParams [("lr", VSettings [VLeaf (AInt 10); VLeaf (AInt 20)]);
                    ("momentum", VLeaf (AInt 9));
                    ("opt", VSettings [p1; p2])] in
  let out lr x := VParams [("lr", VLeaf (AInt lr));
                           ("momentum", VLeaf (AInt 9));
                           ("opt", VParams [("x", VLeaf (AInt x))])] in
  exists fields cands,
    t = VParams fields
    /\ candidate_lists fields cands
    /\ [out 10%Z 1%Z; out 10%Z 2%Z; out 10%Z 3%Z;
        out 20%Z 1%Z; out 20%Z 2%Z; out 20%Z 3%Z]
       = map (fun tuple => VParams (refill fields tuple)) (cartesian cands).
Proof.
  cbv zeta.
  apply (proj1 (expansion_order
                  (VParams [("lr", VSettings [VLeaf (AInt 10);
                                              VLeaf (AInt 20)]);
                            ("momentum", VLeaf (AInt 9));
                            ("opt", VSettings
                                      [VParams [("x", VLeaf (AInt 1))];
                                       VParams [("x", VSettings
                                                        [VLeaf (AInt 2);
                                                         VLeaf (AInt 3)])]])])
                  _ eq_refl eq_refl)).
Defined.

Lemma expand_each_stops (pre post : list value) (v : value)
  (outss : list (list value)) :
  Forall2 (fun x outs => get_settings x = Ok outs) pre outss ->
  is_Parameters v = false ->
  expand_each get_settings (pre ++ v :: post) = Raise AttributeError.
Proof.
  intros F Pv. induction F as [|x outs pre outss E _ IH].
  - cbn. destruct v; [reflexivity|discriminate|reflexivity].
  - cbn [app expand_each]. now rewrite E, IH.
Qed.

(** C10: for a non-empty [Settings] list the branch is chosen by the
    first element alone.  If it is a [Parameters] instance, every element
    is expanded: the candidate list is the concatenation of the
    expansions when all elements have one, and an element further on
    that is no [Parameters] instance is asked for its [get_settings] all
    the same, which raises [AttributeError] once the elements before it
    are expanded.  If it is not, the list is the candidate list as it
    stands, whatever the other elements are. *)
Theorem first_element_decides (k : string) (v0 : value) (rest : list value) :
  (is_Parameters v0 = true ->
   (forall outss,
       Forall2 (fun v outs => get_settings v = Ok outs) (v0 :: rest) outss ->
       candidates get_settings k (VSettings (v0 :: rest))
       = Ok (Some (List.concat outss)))
   /\ (forall pre v post outss,
          rest = pre ++ v :: post ->
          forallb ordinary_names (v0 :: pre) = true ->
          Forall2 (fun x outs => get_settings x = Ok outs) (v0 :: pre) outss ->
          is_Parameters v = false ->
          candidates get_settings k (VSettings (v0 :: rest))
          = Raise AttributeError))
  /\ (is_Parameters v0 = false ->
      candidates get_settings k (VSettings (v0 :: rest))
      = Ok (Some (v0 :: rest))).
Proof.
  split; [intros P0; split|intros P0].
  - intros outss F. cbn [candidates]. rewrite P0.
    now rewrite (expand_each_concat _ _ _ F).
  - intros pre v post outss -> _ F Pv. cbn [candidates]. rewrite P0.
    change (v0 :: pre ++ v :: post) with ((v0 :: pre) ++ v :: post).
    now rewrite (expand_each_stops _ _ _ _ F Pv).
  - cbn [candidates]. now rewrite P0.
Qed.

Lemma first_element_decides_witness :
  let p := VParams [("x", VSettings [VLeaf (AInt 1); VLeaf (AInt 2)])] in
  let q := VParams [("x", VLeaf (AInt 3))] in
  candidates get_settings "a" (VSettings [p; q])
  = Ok (Some [VParams [("x", VLeaf (AInt 1))];
              VParams [("x", VLeaf (AInt 2))];
              VParams [("x", VLeaf (AInt 3))]])
  /\ candidates get_settings "a" (VSettings [p; VLeaf (AInt 5); q])
     = Raise AttributeError
  /\ candidates get_settings "a" (VSettings [VLeaf (AInt 5); p])
     = Ok (Some [VLeaf (AInt 5); p]).
Proof.
  cbv zeta. split; [|split].
  - apply (proj1 (proj1 (first_element_decides "a"
                           (VParams [("x", VSettings [VLeaf (AInt 1);
                                                      VLeaf (AInt 2)])])
                           [VParams [("x", VLeaf (AInt 3))]])
                    eq_refl)
             [[VParams [("x", VLeaf (AInt 1))];
               VParams [("x", VLeaf (AInt 2))]];
              [VParams [("x", VLeaf (AInt 3))]]]).
    repeat (apply Forall2_cons; [reflexivity|]). apply Forall2_nil.
  - apply (proj2 (proj1 (first_element_decides "a"
                           (VParams [("x", VSettings [VLeaf (AInt 1);
                                                      VLeaf (AInt 2)])])
                           [VLeaf (AInt 5); VParams [("x", VLeaf (AInt 3))]])
                    eq_refl)
             [] (VLeaf (AInt 5)) [VParams [("x", VLeaf (AInt 3))]]
             [[VParams [("x", VLeaf (AInt 1))];
               VParams [("x", VLeaf (AInt 2))]]]).
    + reflexivity.
    + reflexivity.
    + repeat (apply Forall2_cons; [reflexivity|]). apply Forall2_nil.
    + reflexivity.
  - apply (proj2 (first_element_decides "a" (VLeaf (AInt 5))
                    [VParams [("x", VSettings [VLeaf (AInt 1);
                                               VLeaf (AInt 2)])]])).
    reflexivity.
Defined.

(** The same on whole trees: a list that starts with a tree and goes on
    with a leaf has no expansion; a list that starts with a leaf gives
    its elements as they are, trees included. *)
Lemma first_element_decides_mixed :
  let p := VParams [("x", VSettings [VLeaf (AInt 1); VLeaf (AInt 2)])] in
  get_settings (VParams [("a", VSettings [p; VLeaf (AInt 5)])])
  = Raise AttributeError
  /\ get_settings (VParams [("a", VSettings [VLeaf (AInt 5); p])])
     = Ok [VParams [("a", VLeaf (AInt 5))]; VParams [("a", p)]].
Proof. split; reflexivity. Qed.

(** *** Empty Settings lists *)

Lemma collect_raise (rec : value -> result (list value))
  (items : list (string * value)) (ks : list string)
  (vls : list (list value)) (k : string) (v : value) (e : exn) :
  In (k, v) items -> candidates rec k v = Raise e ->
  exists e', collect rec items ks vls = Raise e'.
Proof.
  revert ks vls. induction items as [|[k0 x] items IH]; intros ks vls I E;
    [contradiction|].
  cbn [collect]. destruct I as [I|I].
  - inversion I; subst. rewrite E. cbn. eauto.
  - destruct (candidates rec k0 x) as [[vs|]|e0]; cbn [bind]; eauto.
Qed.

Lemma get_settings_raise (fields : list (string * value)) (k : string)
  (v : value) (e : exn) :
  In (k, v) fields -> candidates get_settings k v = Raise e ->
  exists e', get_settings (VParams fields) = Raise e'.
Proof.
  intros I E. rewrite get_settings_eq.
  destruct (methods_visible fields); [|eauto].
  destruct (collect_raise get_settings fields [] [] k v e I E) as [e' ->].
  cbn. eauto.
Qed.

Lemma has_empty_raises (t : value) (k : string) :
  has_empty_settings t k -> exists e, get_settings t = Raise e.
Proof.
  induction 1 as [fields k I|fields fields' k' k I _ [e IH]
                  |fields k' k v0 v rest I P Iv _ [e IH]].
  - eapply get_settings_raise; [exact I|reflexivity].
  - eapply get_settings_raise; [exact I|].
    cbn [candidates]. rewrite IH. reflexivity.
  - destruct (expand_each_raise get_settings _ _ _ Iv IH) as [e' E].
    eapply get_settings_raise; [exact I|].
    cbn [candidates]. rewrite P, E. reflexivity.
Qed.

Lemma expand_each_uniform (data : list value) :
  Forall (fun x => expands_or_names_empty x) data ->
  (exists outs, expand_each get_settings data = Ok outs)
  \/ (exists k v, In v data /\ has_empty_settings v k
                  /\ expand_each get_settings data
                     = Raise (ValueError (empty_settings_message k))).
Proof.
  induction 1 as [|x data Hx _ IH]; [left; cbn; eauto|].
  cbn [expand_each]. destruct Hx as [[outs ->]|(k & He & ->)]; cbn [bind].
  - destruct IH as [[outs' ->]|(k & v & I & He & ->)]; cbn [bind].
    + left; eauto.
    + right. exists k, v. repeat split; auto. now right.
  - right. exists k, x. repeat split; auto. now left.
Qed.

Lemma candidates_uniform (fields : list (string * value)) (k : string)
  (v : value) :
  In (k, v) fields ->
  uniform_field uniform v = true ->
  unshadowed v = true ->
  expansion_ok_below v ->
  (exists c, candidates get_settings k v = Ok c)
  \/ (exists k', has_empty_settings (VParams fields) k'
                 /\ candidates get_settings k v
                    = Raise (ValueError (empty_settings_message k'))).
Proof.
  intros I U Un IH. unfold expansion_ok_below, expansion_ok in IH.
  destruct v as [a|fields'|data].
  - left. cbn. eauto.
  - cbn [uniform_field] in U. cbn [candidates].
    destruct (IH U Un eq_refl) as [[outs ->]|(k' & He & ->)]; cbn [bind].
    + left; eauto.
    + right. exists k'. split; [|reflexivity].
      eapply empty_in_field; eauto.
  - destruct data as [|v0 rest].
    + right. exists k. split; [now apply empty_here|reflexivity].
    + cbn [uniform_field candidates] in *.
      destruct (is_Parameters v0) eqn:P0; [|left; eauto].
      assert (Forall (fun x => expands_or_names_empty x) (v0 :: rest)) as F.
      { rewrite Forall_forall in *. intros x Ix.
        cbn [unshadowed] in Un. rewrite forallb_forall in U, Un.
        specialize (U x Ix).
        apply andb_true_iff in U as [U1 U2]. apply IH; auto. }
      destruct (expand_each_uniform _ F)
        as [[outs ->]|(k' & v & Iv & He & ->)]; cbn [bind].
      * left; eauto.
      * right. exists k'. split; [|reflexivity].
        eapply empty_in_element; eauto.
Qed.

Lemma collect_uniform (fields items : list (string * value))
  (ks : list string) (vls : list (list value)) :
  incl items fields ->
  forallb (fun kv => uniform_field uniform (snd kv)) items = true ->
  forallb (fun kv => unshadowed (snd kv)) items = true ->
  Forall (fun kv => expansion_ok_below (snd kv)) items ->
  (exists r, collect get_settings items ks vls = Ok r)
  \/ (exists k', has_empty_settings (VParams fields) k'
                 /\ collect get_settings items ks vls
                    = Raise (ValueError (empty_settings_message k'))).
Proof.
  revert ks vls.
  induction items as [|[k v] items IHi]; intros ks vls I U Un IH.
  - left. cbn. eauto.
  - cbn [forallb snd] in U, Un. apply andb_true_iff in U as [U1 U2].
    apply andb_true_iff in Un as [Un1 Un2].
    inversion IH as [|? ? IHv IH']; subst. cbn [snd] in IHv.
    assert (In (k, v) fields) as Ikv by (apply I; now left).
    assert (incl items fields) as I' by (intros x Ix; apply I; now right).
    cbn [collect].
    destruct (candidates_uniform fields k v Ikv U1 Un1)
      as [[c ->]|(k' & He & ->)].
    + exact IHv.
    + cbn [bind]. destruct c; now apply IHi.
    + right. exists k'. split; [exact He|reflexivity].
Qed.

Lemma uniform_expands (t : value) : expansion_ok_below t.
Proof.
  induction t as [a|fields IH|data IH] using sweep_value_ind;
    unfold expansion_ok_below, expansion_ok.
  - discriminate.
  - intros U Un _. cbn [uniform] in U. cbn [unshadowed] in Un.
    apply andb_true_iff in Un as [Vis Un]. unfold expands_or_names_empty.
    rewrite (get_settings_visible _ Vis).
    destruct (collect_uniform fields fields [] [] (incl_refl _) U Un IH)
      as [[r ->]|(k' & He & ->)]; cbn [bind].
    + left; eauto.
    + right. exists k'. split; [exact He|reflexivity].
  - rewrite Forall_forall in *. intros x Ix Ux Unx Px.
    specialize (IH x Ix). destruct x; try discriminate. now apply IH.
Qed.

(** C4: a tree with an empty [Settings] list, in one of its fields or in
    a field of a tree that its expansion expands, has no expansion:
    [get_settings] raises and returns no list.  When every [Settings] list
    that starts with a tree holds only trees, no attribute hides a
    method and none has a name that starts with two underscores, the
    error is the [ValueError] whose message names a field with an empty
    list. *)
Theorem empty_settings_fatal (t : value) (k : string) :
  has_empty_settings t k ->
  (exists e, get_settings t = Raise e)
  /\ (uniform t = true -> unshadowed t = true -> ordinary_names t = true ->
      exists k', has_empty_settings t k'
                 /\ get_settings t
                    = Raise (ValueError ("Empty settings list for " ++ k'))).
Proof.
  intros He. pose proof (has_empty_raises t k He) as [e E].
  split; [eauto|]. intros U Un _.
  pose proof (uniform_expands t) as X.
  unfold expansion_ok_below, expansion_ok in X.
  destruct He; (destruct (X U Un eq_refl) as [[outs O]|(k2 & He2 & R)];
                [congruence|eauto]).
Qed.

Lemma empty_settings_fatal_witness :
  let t := VParams [("lr", VSettings [VLeaf (AInt 1); VLeaf (AInt 2)]);
                    ("opt", VParams [("beta", VSettings [])])] in
  (exists e, get_settings t = Raise e)
  /\ exists k', has_empty_settings t k'
                /\ get_settings t
                   = Raise (ValueError ("Empty settings list for " ++ k')).
Proof.
  cbv zeta.
  assert (has_empty_settings
            (VParams [("lr", VSettings [VLeaf (AInt 1); VLeaf (AInt 2)]);
                      ("opt", VParams [("beta", VSettings [])])]) "beta") as H.
  { eapply empty_in_field.
    - right; left; reflexivity.
    - apply empty_here. left; reflexivity. }
  destruct (empty_settings_fatal _ _ H) as [A B].
  split; [exact A|]. apply B; reflexivity.
Defined.

(** C4 fails as stated: with a [Settings] list that starts with a tree
    and goes on with a leaf in an earlier field, the leaf is asked for
    its [get_settings] before the empty list is reached, and the error
    is an [AttributeError] that names no field. *)
Lemma empty_settings_after_mixed_list :
  let p := VParams [("x", VLeaf (AInt 1))] in
  let t := VParams [("opt", VSettings [p; VLeaf (AInt 5)]);
                    ("lr", VSettings [])] in
  has_empty_settings t "lr"
  /\ get_settings t = Raise AttributeError
  /\ forall k, get_settings t
               <> Raise (ValueError ("Empty settings list for " ++ k)).
Proof.
  cbv zeta. split; [|split].
  - apply empty_here. right; left; reflexivity.
  - reflexivity.
  - intros k. discriminate.
Qed.

(** *** What every expansion has *)

Lemma list_prod_positive (ns : list nat) :
  Forall (fun n => 1 <= n) ns -> 1 <= list_prod ns.
Proof.
  unfold list_prod. induction 1 as [|n ns Hn _ IH]; cbn [fold_right]; [lia|].
  change 1 with (1 * 1) at 1. now apply Nat.mul_le_mono.
Qed.

Section NeverEmpty.
Variable rec : value -> result (list value).

Lemma expand_each_never_empty (v0 : value) (rest outs : list value) :
  (forall outs, rec v0 = Ok outs -> 1 <= List.length outs) ->
  expand_each rec (v0 :: rest) = Ok outs -> 1 <= List.length outs.
Proof.
  intros H E. cbn [expand_each] in E.
  destruct (rec v0) as [ss|e] eqn:R; [|discriminate]. cbn [bind] in E.
  destruct (expand_each rec rest) as [rs|e]; [|discriminate].
  inversion E; subst. rewrite length_app. specialize (H _ eq_refl). lia.
Qed.

Lemma collect_never_empty (items : list (string * value)) :
  Forall (fun kv =>
            (forall outs, rec (snd kv) = Ok outs -> 1 <= List.length outs)
            /\ forall data, snd kv = VSettings data ->
                 Forall (fun v => forall outs, rec v = Ok outs ->
                                               1 <= List.length outs) data)
    items ->
  forall ks vls ks' vls',
    collect rec items ks vls = Ok (ks', vls') ->
    Forall (fun vl => 1 <= List.length vl) vls ->
    Forall (fun vl : list value => 1 <= List.length vl) vls'.
Proof.
  induction 1 as [|[k v] items [Hv Hd] _ IH]; intros ks vls ks' vls' E F.
  - inversion E; subst. exact F.
  - cbn [collect] in E. cbn [snd] in Hv, Hd.
    destruct (candidates rec k v) as [c|e] eqn:C; [|discriminate].
    cbn [bind] in E. destruct c as [vs|]; [|eauto].
    apply (IH _ _ _ _ E). apply Forall_app. split; [exact F|].
    constructor; [|constructor].
    destruct v as [a|fields|data]; cbn [candidates] in C.
    + discriminate.
    + destruct (rec (VParams fields)) as [vs'|e] eqn:R; [|discriminate].
      inversion C; subst. now apply Hv.
    + destruct data as [|v0 data]; [discriminate|].
      destruct (is_Parameters v0).
      * destruct (expand_each rec (v0 :: data)) as [vs'|e] eqn:X;
          [|discriminate].
        inversion C; subst.
        apply (expand_each_never_empty v0 data); [|exact X].
        specialize (Hd _ eq_refl). now inversion Hd.
      * inversion C; subst. cbn. lia.
Qed.

End NeverEmpty.

Lemma never_empty_below (v : value) :
  never_empty v
  /\ forall data, v = VSettings data -> Forall never_empty data.
Proof.
  induction v as [a|fields IH|data IH] using sweep_value_ind.
  - split; [intros outs E; discriminate|intros data E; discriminate].
  - split; [|intros data E; discriminate].
    intros outs E. returned E.
    destruct (collect get_settings fields [] []) as [[ks vls]|e] eqn:C;
      [|discriminate].
    cbn [bind fst snd] in E. inversion E; subst.
    rewrite length_settings_loop, product_cartesian, length_cartesian.
    cbn [List.length Nat.add]. apply list_prod_positive.
    apply Forall_map.
    apply (collect_never_empty get_settings fields IH _ _ _ _ C).
    constructor.
  - split; [intros outs E; discriminate|].
    intros data' E. inversion E; subst.
    eapply Forall_impl; [|exact IH]. intros v [H _]. exact H.
Qed.

(** X14: [get_settings] never returns an empty list: when it returns,
    there is at least one output, because every [Settings] list it went
    through had an element and every sub-tree an expansion. *)
Theorem get_settings_never_empty (t : value) (outs : list value) :
  get_settings t = Ok outs -> 1 <= List.length outs.
Proof. apply (proj1 (never_empty_below t)). Qed.

Lemma get_settings_never_empty_witness :
  1 <= List.length
         [VParams [("lr", VLeaf (AInt 1)); ("sub", VParams [])];
          VParams [("lr", VLeaf (AInt 2)); ("sub", VParams [])]].
Proof.
  apply (get_settings_never_empty
           (VParams [("lr", VSettings [VLeaf (AInt 1); VLeaf (AInt 2)]);
                     ("sub", VParams [])])).
  reflexivity.
Defined.

Lemma settings_loop_keeps_fields (P : value -> Prop)
  (tuples : list (list value)) (ks : list string) :
  forall s acc,
    incl ks (keys s) ->
    (forall s', keys s' = keys s -> P (VParams s')) ->
    Forall P acc -> Forall P (settings_loop tuples ks s acc).
Proof.
  induction tuples as [|t tuples IH]; intros s acc H HP F; [exact F|].
  cbn [settings_loop]. unfold deepcopy.
  assert (keys (assign (combine ks t) s) = keys s) as K.
  { apply assign_keys. intros k I. apply H. eapply in_combine_fst; eauto. }
  apply IH.
  - now rewrite K.
  - intros s' E. apply HP. congruence.
  - apply Forall_app. split; [exact F|]. constructor; [|constructor].
    now apply HP.
Qed.

(** X15: every output of [get_settings] is a [Parameters] tree with the
    field names of the input, in the same order: the assignments of the
    second loop only replace values of fields that exist. *)
Theorem get_settings_keeps_fields (fields : list (string * value))
  (outs : list value) :
  get_settings (VParams fields) = Ok outs ->
  Forall (fun o => exists fields',
              o = VParams fields' /\ keys fields' = keys fields) outs.
Proof.
  intros E. returned E.
  destruct (collect get_settings fields [] []) as [[ks vls]|e] eqn:C;
    [|discriminate].
  cbn [bind fst snd] in E. inversion E; subst.
  apply settings_loop_keeps_fields.
  - destruct (collect_keys _ _ _ _ C) as [-> _]. apply filter_keys_incl.
  - intros s' K. eauto.
  - constructor.
Qed.

Lemma get_settings_keeps_fields_witness :
  Forall (fun o => exists fields',
              o = VParams fields'
              /\ keys fields'
                 = keys [("lr", VSettings [VLeaf (AInt 1); VLeaf (AInt 2)]);
                         ("seed", VLeaf (AInt 7))])
    [VParams [("lr", VLeaf (AInt 1)); ("seed", VLeaf (AInt 7))];
     VParams [("lr", VLeaf (AInt 2)); ("seed", VLeaf (AInt 7))]].
Proof.
  apply (get_settings_keeps_fields
           [("lr", VSettings [VLeaf (AInt 1); VLeaf (AInt 2)]);
            ("seed", VLeaf (AInt 7))]).
  reflexivity.
Defined.

(** *** Expanding an output again *)

Lemma cartesian_in {A : Type} (pools : list (list A)) :
  forall t, In t (cartesian pools) -> Forall2 (fun x pool => In x pool) t pools.
Proof.
  induction pools as [|pool pools IH]; intros t I; cbn in I.
  - destruct I as [<-|[]]. constructor.
  - apply in_flat_map in I as (x & Ix & I).
    apply in_map_iff in I as (t' & <- & I). constructor; auto.
Qed.

Lemma cartesian_singletons {A : Type} (l : list A) :
  cartesian (map (fun x => [x]) l) = [l].
Proof.
  induction l as [|x l IH]; [reflexivity|].
  cbn [map cartesian flat_map]. rewrite IH. reflexivity.
Qed.

Lemma not_varying_fine (v : value) : varying v = false -> fine v = true.
Proof. destruct v; [reflexivity|discriminate|discriminate]. Qed.

Lemma refill_fine (fields : list (string * value)) :
  forall values,
    Forall (fun x => fine x = true) values ->
    List.length values
    = List.length (filter (fun kv => varying (snd kv)) fields) ->
    Forall (fun kv => fine (snd kv) = true) (refill fields values).
Proof.
  induction fields as [|[k v] fields IH]; intros values F L; [constructor|].
  cbn [filter snd refill] in *. destruct (varying v) eqn:V.
  - destruct values as [|x values]; [discriminate|].
    inversion F; subst. cbn in L. constructor; [assumption|].
    apply IH; [assumption|lia].
  - constructor; [now apply not_varying_fine|]. now apply IH.
Qed.

Lemma fine_parts (v : value) :
  fine v = true <->
  settled v = true /\ well_named v = true /\ unshadowed v = true.
Proof.
  unfold fine. rewrite !andb_true_iff. tauto.
Qed.

Lemma methods_visible_keys (fields fields' : list (string * value)) :
  keys fields' = keys fields ->
  methods_visible fields' = methods_visible fields.
Proof.
  intros K. unfold methods_visible, has_attribute. now rewrite K.
Qed.

Lemma fine_fields (fields : list (string * value)) :
  PathSpec.distinct (keys fields) = true ->
  methods_visible fields = true ->
  Forall (fun kv => fine (snd kv) = true) fields ->
  fine (VParams fields) = true.
Proof.
  intros D V F. apply fine_parts. cbn [settled well_named unshadowed].
  rewrite D, V. cbn [andb].
  repeat split; apply forallb_forall; intros kv I;
    rewrite Forall_forall in F; specialize (F kv I);
    apply fine_parts in F; tauto.
Qed.

Lemma expand_each_all (R : value -> Prop) (data : list value) :
  forall vs,
    expand_each get_settings data = Ok vs ->
    Forall (fun v => forall outs, get_settings v = Ok outs -> Forall R outs)
      data ->
    Forall R vs.
Proof.
  induction data as [|v data IH]; intros vs E F; cbn [expand_each] in E.
  - inversion E; subst. constructor.
  - inversion F as [|? ? Hv F']; subst.
    destruct (get_settings v) as [ss|e]; [|discriminate]. cbn [bind] in E.
    destruct (expand_each get_settings data) as [rs|e]; [|discriminate].
    inversion E; subst. apply Forall_app. split; [now apply Hv|now apply IH].
Qed.

Lemma candidates_fine (k : string) (v : value) (vs : list value) :
  expands_to_fine v ->
  (forall data, v = VSettings data -> Forall expands_to_fine data) ->
  well_named v = true -> plain_lists v = true ->
  candidates get_settings k v = Ok (Some vs) ->
  Forall (fun x => fine x = true) vs.
Proof.
  intros Hv Hd W P C. destruct v as [a|fields|data]; cbn [candidates] in C.
  - discriminate.
  - destruct (get_settings (VParams fields)) as [vs'|e] eqn:R; [|discriminate].
    inversion C; subst. eapply Forall_impl; [|exact (Hv _ R W P)].
    now intros x [H _].
  - destruct data as [|v0 data]; [discriminate|].
    specialize (Hd _ eq_refl). cbn [well_named] in W. cbn [plain_lists] in P.
    destruct (is_Parameters v0).
    + destruct (expand_each get_settings (v0 :: data)) as [vs'|e] eqn:X;
        [|discriminate].
      inversion C; subst. apply (expand_each_all _ _ _ X).
      rewrite forallb_forall in W, P. rewrite Forall_forall in Hd |- *.
      intros x I outs R. eapply Forall_impl; [|exact (Hd x I outs R (W x I) (P x I))].
      now intros y [H _].
    + inversion C; subst. apply Forall_forall. intros x I.
      rewrite forallb_forall in P. specialize (P x I).
      apply not_varying_fine. now apply negb_true_iff in P.
Qed.

Lemma collect_fine (items : list (string * value)) :
  Forall (fun kv => expands_to_fine (snd kv)
                    /\ forall data, snd kv = VSettings data ->
                                    Forall expands_to_fine data) items ->
  forallb (fun kv => well_named (snd kv)) items = true ->
  forallb (fun kv => plain_lists (snd kv)) items = true ->
  forall ks vls ks' vls',
    collect get_settings items ks vls = Ok (ks', vls') ->
    Forall (Forall (fun x => fine x = true)) vls ->
    Forall (Forall (fun x => fine x = true)) vls'.
Proof.
  induction 1 as [|[k v] items [Hv Hd] _ IH]; intros W P ks vls ks' vls' E F.
  - inversion E; subst. exact F.
  - cbn [forallb snd] in W, P, Hv, Hd.
    apply andb_true_iff in W as [W1 W2]. apply andb_true_iff in P as [P1 P2].
    cbn [collect] in E.
    destruct (candidates get_settings k v) as [c|e] eqn:C; [|discriminate].
    cbn [bind] in E. destruct c as [vs|]; [|eauto].
    apply (IH W2 P2 _ _ _ _ E). apply Forall_app. split; [exact F|].
    constructor; [|constructor]. eapply candidates_fine; eauto.
Qed.

Lemma expands_to_fine_below (v : value) :
  expands_to_fine v
  /\ forall data, v = VSettings data -> Forall expands_to_fine data.
Proof.
  induction v as [a|fields IH|data IH] using sweep_value_ind.
  - split; [intros outs E; discriminate|intros data E; discriminate].
  - split; [|intros data E; discriminate].
    intros outs E W P. cbn [well_named plain_lists] in W, P.
    apply andb_true_iff in W as [D W].
    pose proof (PathFacts.distinct_NoDup _ D) as ND.
    returned E.
    destruct (collect get_settings fields [] []) as [[ks vls]|e] eqn:C;
      [|discriminate].
    cbn [bind fst snd] in E. inversion E; subst. clear E.
    destruct (collect_keys _ _ _ _ C) as [-> L].
    pose proof (collect_fine fields IH W P _ _ _ _ C (Forall_nil _)) as F.
    rewrite product_cartesian.
    rewrite (settings_loop_map _ _ fields fields []);
      [|now apply filter_keys_NoDup|apply filter_keys_incl
       |intros t I; apply cartesian_tuple_length in I; congruence|now left].
    cbn [app]. apply Forall_forall. intros o I.
    apply in_map_iff in I as (t & <- & I). unfold with_values.
    rewrite (assign_refill _ ND). split; [|reflexivity].
    apply fine_fields;
      [now rewrite keys_refill
      |now rewrite (methods_visible_keys fields _ (keys_refill _ _))|].
    apply refill_fine.
    + pose proof (cartesian_in _ _ I) as F2. clear -F F2.
      induction F2 as [|x pool t pools Ix _ IHt]; [constructor|].
      inversion F as [|? ? Fp F']; subst. constructor; [|now apply IHt].
      rewrite Forall_forall in Fp. now apply Fp.
    + apply cartesian_tuple_length in I. rewrite I, L. apply length_map.
  - split; [intros outs E; discriminate|].
    intros data' E. inversion E; subst.
    eapply Forall_impl; [|exact IH]. intros v [H _]. exact H.
Qed.

Lemma collect_settled (items : list (string * value)) :
  Forall (fun kv => fine (snd kv) = true -> is_Parameters (snd kv) = true ->
                    get_settings (snd kv) = Ok [snd kv]) items ->
  Forall (fun kv => fine (snd kv) = true) items ->
  forall ks vls,
    collect get_settings items ks vls
    = Ok (ks ++ map fst (filter (fun kv => varying (snd kv)) items),
          vls ++ map (fun x => [x])
                   (map snd (filter (fun kv => varying (snd kv)) items))).
Proof.
  induction 1 as [|[k v] items Hv _ IH]; intros F ks vls.
  - cbn. now rewrite !app_nil_r.
  - inversion F as [|? ? Fv F']; subst. cbn [snd] in Hv, Fv.
    cbn [collect filter snd]. destruct v as [a|fields|data].
    + cbn. now apply IH.
    + cbn [candidates]. rewrite (Hv Fv eq_refl). cbn [bind varying is_Parameters orb].
      rewrite (IH F'). cbn [map fst snd]. now rewrite <- !app_assoc.
    + discriminate.
Qed.

Lemma fine_Forall (fields : list (string * value)) :
  fine (VParams fields) = true ->
  NoDup (keys fields) /\ methods_visible fields = true
  /\ Forall (fun kv => fine (snd kv) = true) fields.
Proof.
  intros H. apply fine_parts in H as (S & W & U).
  cbn [settled well_named unshadowed] in S, W, U.
  apply andb_true_iff in W as [D W]. apply andb_true_iff in U as [V U].
  split; [now apply PathFacts.distinct_NoDup|]. split; [exact V|].
  apply Forall_forall. intros kv I. rewrite forallb_forall in S, W, U.
  apply fine_parts. auto.
Qed.

Lemma settled_fixed_point (v : value) :
  fine v = true -> is_Parameters v = true -> get_settings v = Ok [v].
Proof.
  induction v as [a|fields IH|data IH] using sweep_value_ind;
    intros F P; try discriminate.
  destruct (fine_Forall _ F) as (ND & V & Ff).
  rewrite (get_settings_visible _ V), (collect_settled fields IH Ff [] []).
  cbn [bind fst snd app]. rewrite product_cartesian, cartesian_singletons.
  cbn [settings_loop app]. unfold deepcopy.
  now rewrite (assign_refill _ ND), refill_own.
Qed.

(** X16: expanding an output again changes nothing.  For a tree with
    distinct field names at every level, whose [Settings] lists that do
    not start with a [Parameters] instance hold leaves only, every output
    [o] of [get_settings] holds no [Settings] list any more, and
    [o.get_settings()] returns the one-element list of [o] itself. *)
Theorem expansion_idempotent (t : value) (outs : list value) :
  well_named t = true -> plain_lists t = true ->
  get_settings t = Ok outs ->
  Forall (fun o => settled o = true /\ get_settings o = Ok [o]) outs.
Proof.
  intros W P E.
  eapply Forall_impl; [|exact (proj1 (expands_to_fine_below t) outs E W P)].
  intros o [F Po]. split; [|now apply settled_fixed_point].
  now apply fine_parts in F.
Qed.

Lemma expansion_idempotent_witness :
  let sub := VParams [("x", VSettings [VLeaf (AInt 1); VLeaf (AInt 2)])] in
  let t := VParams [("lr", VSettings [VLeaf (AInt 10); VLeaf (AInt 20)]);
                    ("opt", sub)] in
  let out lr x := VParams [("lr", VLeaf (AInt lr));
                           ("opt", VParams [("x", VLeaf (AInt x))])] in
  Forall (fun o => settled o = true /\ get_settings o = Ok [o])
    [out 10%Z 1%Z; out 10%Z 2%Z; out 20%Z 1%Z; out 20%Z 2%Z].
Proof.
  cbv zeta.
  apply (expansion_idempotent
           (VParams [("lr", VSettings [VLeaf (AInt 10); VLeaf (AInt 20)]);
                     ("opt", VParams [("x", VSettings [VLeaf (AInt 1);
                                                       VLeaf (AInt 2)])])]));
    reflexivity.
Defined.

End SweepFacts.

(** ** Expansion on the object store *)

Module StoreFacts.
Import Store StoreSpec.

(** A call of [get_settings] that returned found its two methods. *)
Ltac past_lookups E fields :=
  let Vg := fresh "Vg" in
  let Vi := fresh "Vi" in
  unfold bound_method in E;
  destruct (has_attribute "get_settings" fields) eqn:Vg;
    [discriminate E|];
  destruct (has_attribute "items" fields) eqn:Vi;
    [discriminate E|];
  cbn [bind] in E.

Lemma length_update (h : store) (a : addr) (o : obj) :
  List.length (update h a o) = List.length h.
Proof.
  revert a. induction h as [|x h IH]; intros [|a]; cbn; auto.
Qed.

Lemma nth_error_update_other (h : store) (a b : addr) (o : obj) :
  b <> a -> nth_error (update h a o) b = nth_error h b.
Proof.
  revert a b. induction h as [|x h IH]; intros [|a] [|b] N; cbn; auto.
  congruence.
Qed.

Lemma nth_error_update_same (h : store) (a : addr) (o : obj) :
  a < List.length h -> nth_error (update h a o) a = Some o.
Proof.
  revert a. induction h as [|x h IH]; intros [|a] L; cbn in *; try lia; auto.
  apply IH. lia.
Qed.

Lemma extends_refl (h : store) : extends h h.
Proof. split; auto. Qed.

Lemma extends_trans (h1 h2 h3 : store) :
  extends h1 h2 -> extends h2 h3 -> extends h1 h3.
Proof.
  intros [L1 E1] [L2 E2]. split; [lia|].
  intros b Hb. rewrite E2 by lia. now apply E1.
Qed.

Lemma extends_app (h : store) (o : obj) : extends h (h ++ [o]).
Proof.
  split; [rewrite length_app; cbn; lia|].
  intros b Hb. now apply nth_error_app1.
Qed.

Lemma extends_keeps (s : addr) (h h' : store) : extends h h' -> keeps s h h'.
Proof. intros [L E]. split; auto. Qed.

Lemma keeps_trans (s : addr) (h1 h2 h3 : store) :
  keeps s h1 h2 -> keeps s h2 h3 -> keeps s h1 h3.
Proof.
  intros [L1 E1] [L2 E2]. split; [lia|].
  intros b Hb N. rewrite E2 by (auto; lia). now apply E1.
Qed.

Lemma keeps_fresh (s : addr) (h h' : store) :
  List.length h <= s -> keeps s h h' -> extends h h'.
Proof.
  intros Hs [L E]. split; [exact L|]. intros b Hb. apply E; lia.
Qed.

Lemma extends_then_keeps (s : addr) (h1 h2 h3 : store) :
  extends h1 h2 -> keeps s h2 h3 -> List.length h1 <= s -> extends h1 h3.
Proof.
  intros [L1 E1] [L2 E2] Hs. split; [lia|].
  intros b Hb. rewrite E2 by lia. now apply E1.
Qed.

Lemma is_leaf_extends (h h' : store) (a : addr) :
  extends h h' -> is_leaf h a -> is_leaf h' a.
Proof.
  intros [L E] [x Hx]. exists x. rewrite E; [exact Hx|].
  apply nth_error_Some. congruence.
Qed.

Lemma is_leaf_keeps (s : addr) (h h' : store) (a : addr) :
  keeps s h h' -> mutable h s -> is_leaf h a -> is_leaf h' a.
Proof.
  intros [L E] (o & Ho & No) [x Hx]. exists x. rewrite E; [exact Hx| |].
  - apply nth_error_Some. congruence.
  - intros ->. rewrite Ho in Hx. inversion Hx. now apply (No x).
Qed.

Lemma confined_mono (h h' : store) (lo hi hi' : nat) (a : addr) :
  (forall c, is_leaf h c -> is_leaf h' c) -> hi <= hi' ->
  confined h lo hi a -> confined h' lo hi' a.
Proof. intros Hl Hh [I|I]; [left; lia|right; auto]. Qed.

Lemma closed_region_preserved (h h' : store) (lo hi : nat) :
  (forall b, lo <= b < hi -> nth_error h' b = nth_error h b) ->
  (forall c, is_leaf h c -> is_leaf h' c) ->
  hi <= List.length h' ->
  closed_region h lo hi -> closed_region h' lo hi.
Proof.
  intros E Hl L [_ C]. split; [exact L|].
  intros b Hb. destruct (C b Hb) as (o & Ho & No & Hc).
  exists o. rewrite (E b Hb). split; [exact Ho|]. split; [exact No|].
  intros c Ic. eapply confined_mono; eauto.
Qed.

(** *** deepcopy allocates a closed region *)

Lemma rebuild_not_leaf (o : obj) (cs : list addr) :
  not_leaf o -> not_leaf (rebuild o cs).
Proof.
  intros N. destruct o; cbn; intros x E; try discriminate. now apply (N a).
Qed.

Lemma children_rebuild (o : obj) (cs : list addr) (c : addr) :
  not_leaf o -> In c (children (rebuild o cs)) -> In c cs.
Proof.
  intros N. destruct o as [a|items|fields|data]; cbn; auto.
  - now destruct (N a).
  - intros I. apply in_map_iff in I as ([k c'] & <- & I).
    now apply in_combine_r in I.
Qed.

Lemma memo_in_cons (m : memo) (x y lo hi : nat) :
  memo_in m lo hi -> lo <= y < hi -> memo_in ((x, y) :: m) lo hi.
Proof.
  intros M Hy a b. cbn. destruct (Nat.eqb a x); [|apply M].
  intros E. inversion E. now subst.
Qed.

Lemma memo_in_mono (m : memo) (lo hi hi' : nat) :
  memo_in m lo hi -> hi <= hi' -> memo_in m lo hi'.
Proof. intros M L a b E. specialize (M a b E). lia. Qed.

Lemma closed_region_alloc (h : store) (o : obj) (base : nat) :
  base <= List.length h -> not_leaf o -> children o = [] ->
  closed_region h base (List.length h) ->
  closed_region (h ++ [o]) base (List.length (h ++ [o])).
Proof.
  intros B N C [_ H]. split; [lia|]. intros b Hb.
  rewrite length_app in Hb. cbn in Hb.
  destruct (Nat.eq_dec b (List.length h)) as [->|D].
  - exists o. rewrite nth_error_app2, Nat.sub_diag by lia.
    split; [reflexivity|]. split; [exact N|]. rewrite C. intros c [].
  - destruct (H b ltac:(lia)) as (o' & Ho & No & Hc). exists o'.
    rewrite nth_error_app1 by lia.
    split; [exact Ho|]. split; [exact No|].
    intros c Ic. eapply confined_mono; [| |apply Hc, Ic].
    + intros c'. apply is_leaf_extends, extends_app.
    + rewrite length_app. cbn. lia.
Qed.

Section CopyAllInv.
Variable copy : store -> memo -> addr -> result (store * memo * addr).
Variable base : nat.

Hypothesis copy_inv :
  forall h m x h1 m1 y,
    copy h m x = Ok (h1, m1, y) ->
    base <= List.length h ->
    memo_in m base (List.length h) ->
    closed_region h base (List.length h) ->
    extends h h1
    /\ memo_in m1 base (List.length h1)
    /\ closed_region h1 base (List.length h1)
    /\ confined h1 base (List.length h1) y.

Lemma copy_all_inv (xs : list addr) :
  forall h m h1 m1 ys,
    copy_all copy h m xs = Ok (h1, m1, ys) ->
    base <= List.length h ->
    memo_in m base (List.length h) ->
    closed_region h base (List.length h) ->
    extends h h1
    /\ memo_in m1 base (List.length h1)
    /\ closed_region h1 base (List.length h1)
    /\ Forall (confined h1 base (List.length h1)) ys.
Proof.
  induction xs as [|x xs IH]; intros h m h1 m1 ys E B M C.
  - cbn in E. inversion E; subst.
    split; [apply extends_refl|]. split; [exact M|]. split; [exact C|].
    constructor.
  - cbn [copy_all] in E.
    destruct (copy h m x) as [[[hA mA] yA]|e] eqn:EA; [|discriminate].
    cbn [bind fst snd] in E.
    destruct (copy_all copy hA mA xs) as [[[hB mB] ys']|e] eqn:EB;
      [|discriminate].
    cbn [bind fst snd] in E. inversion E; subst.
    destruct (copy_inv _ _ _ _ _ _ EA B M C) as (XA & MA & CA & YA).
    assert (base <= List.length hA) as BA by (destruct XA; lia).
    destruct (IH _ _ _ _ _ EB BA MA CA) as (XB & MB & CB & YB).
    split; [|split; [exact MB|split; [exact CB|]]].
    + eapply extends_trans; eauto.
    + constructor; [|exact YB].
      eapply confined_mono; [| |exact YA].
      * intros c. now apply is_leaf_extends.
      * now destruct XB.
Qed.

Lemma alloc_copy_inv (h : store) (m : memo) (x : addr) (o : obj)
  (h2 : store) (m2 : memo) (ys : list addr) :
  not_leaf o ->
  base <= List.length h ->
  memo_in m base (List.length h) ->
  closed_region h base (List.length h) ->
  copy_all copy (h ++ [rebuild o []]) ((x, List.length h) :: m) (children o)
  = Ok (h2, m2, ys) ->
  let h1 := update h2 (List.length h) (rebuild o ys) in
  extends h h1
  /\ memo_in m2 base (List.length h1)
  /\ closed_region h1 base (List.length h1)
  /\ confined h1 base (List.length h1) (List.length h)
  /\ nth_error h1 (List.length h) = Some (rebuild o ys).
Proof.
  intros N B M C E h1.
  assert (List.length (h ++ [rebuild o []]) = S (List.length h)) as LA
    by (rewrite length_app; cbn; lia).
  assert (children (rebuild o []) = []) as Cnil.
  { destruct (children (rebuild o [])) as [|c cs] eqn:Ec; [reflexivity|].
    exfalso. apply (children_rebuild o [] c N). rewrite Ec. now left. }
  destruct (copy_all_inv _ _ _ _ _ _ E) as (X2 & M2 & C2 & Y2).
  - lia.
  - apply memo_in_cons; [|lia]. eapply memo_in_mono; [exact M|lia].
  - apply closed_region_alloc; auto. now apply rebuild_not_leaf.
  - assert (List.length h1 = List.length h2) as L1 by apply length_update.
    assert (List.length h < List.length h2) as Lh by (destruct X2; lia).
    assert (nth_error h2 (List.length h) = Some (rebuild o [])) as Hy.
    { destruct X2 as [_ X2]. rewrite X2 by lia.
      now rewrite nth_error_app2, Nat.sub_diag by lia. }
    assert (forall c, is_leaf h2 c -> is_leaf h1 c) as Hleaf.
    { intros c [a Ha]. exists a. unfold h1.
      rewrite nth_error_update_other; [exact Ha|].
      intros ->. rewrite Hy in Ha. inversion Ha as [Ha'].
      eapply rebuild_not_leaf; eauto. }
    split; [|split; [|split; [|split]]].
    + split; [lia|].
      intros b Hb. unfold h1. rewrite nth_error_update_other by lia.
      destruct X2 as [_ X2]. rewrite X2 by lia. now apply nth_error_app1.
    + now rewrite L1.
    + rewrite L1. split; [lia|]. intros b Hb.
      destruct (Nat.eq_dec b (List.length h)) as [->|D].
      * exists (rebuild o ys). unfold h1.
        rewrite nth_error_update_same by lia.
        split; [reflexivity|]. split; [now apply rebuild_not_leaf|].
        intros c Ic. apply children_rebuild in Ic; [|exact N].
        rewrite Forall_forall in Y2.
        eapply confined_mono; [exact Hleaf| |apply Y2, Ic]. lia.
      * destruct C2 as [_ C2].
        destruct (C2 b Hb) as (o' & Ho & No & Hc). exists o'.
        unfold h1. rewrite nth_error_update_other by exact D.
        split; [exact Ho|]. split; [exact No|]. intros c Ic.
        eapply confined_mono; [exact Hleaf| |apply Hc, Ic]. lia.
    + left. lia.
    + unfold h1. now rewrite nth_error_update_same by lia.
Qed.

End CopyAllInv.

Lemma deepcopy_fuel_inv (base fuel : nat) :
  forall h m x h1 m1 y,
    deepcopy_fuel fuel h m x = Ok (h1, m1, y) ->
    base <= List.length h ->
    memo_in m base (List.length h) ->
    closed_region h base (List.length h) ->
    extends h h1
    /\ memo_in m1 base (List.length h1)
    /\ closed_region h1 base (List.length h1)
    /\ confined h1 base (List.length h1) y.
Proof.
  induction fuel as [|fuel IH]; intros h m x h1 m1 y E B M C;
    [discriminate|].
  cbn [deepcopy_fuel] in E.
  destruct (memo_get m x) as [y'|] eqn:G.
  { inversion E; subst.
    split; [apply extends_refl|]. split; [exact M|]. split; [exact C|].
    left. apply (M _ _ G). }
  destruct (nth_error h x) as [o|] eqn:Hx; [|discriminate].
  assert (not_leaf o \/ exists a, o = OLeaf a) as [N|[a ->]].
  { destruct o; [right; eauto|left..]; intros ? ?; discriminate. }
  - assert (exists r,
               copy_all (deepcopy_fuel fuel) (h ++ [rebuild o []])
                 ((x, List.length h) :: m) (children o) = Ok r
               /\ Ok (update (fst (fst r)) (List.length h)
                        (rebuild o (snd r)), snd (fst r), List.length h)
                  = Ok (h1, m1, y)) as ([[h2 m2] ys] & E1 & E2).
    { destruct o; [now destruct (N a)|..];
        (destruct (copy_all _ _ _ _) as [r|e]; [|discriminate];
         exists r; split; [reflexivity|exact E]). }
    cbn [fst snd] in E2. inversion E2; subst.
    destruct (alloc_copy_inv _ base IH _ _ _ _ _ _ _ N B M C E1)
      as (X & M' & C' & Y & _).
    auto.
  - inversion E; subst.
    split; [apply extends_refl|]. split; [exact M|]. split; [exact C|].
    right. exists a. exact Hx.
Qed.

Lemma deepcopy_inv (fuel : nat) (h : store) (x : addr) (h1 : store) (y : addr) :
  deepcopy fuel h x = Ok (h1, y) ->
  extends h h1
  /\ closed_region h1 (List.length h) (List.length h1)
  /\ confined h1 (List.length h) (List.length h1) y.
Proof.
  unfold deepcopy. intros E.
  destruct (deepcopy_fuel fuel h [] x) as [[[h' m'] y']|e] eqn:D;
    [|discriminate].
  cbn in E. inversion E; subst.
  destruct (deepcopy_fuel_inv (List.length h) _ _ _ _ _ _ _ D)
    as (X & _ & C & Y); auto.
  - intros a b G. discriminate.
  - split; [lia|]. intros b Hb. lia.
Qed.

(** The copy of an object that is no leaf is a new object of the same
    class, at the first free address. *)
Lemma deepcopy_not_leaf (fuel : nat) (h : store) (x : addr) (o : obj)
  (h1 : store) (y : addr) :
  nth_error h x = Some o -> not_leaf o ->
  deepcopy fuel h x = Ok (h1, y) ->
  y = List.length h /\ exists cs, nth_error h1 y = Some (rebuild o cs).
Proof.
  intros Hx N E. unfold deepcopy in E.
  destruct fuel as [|fuel]; [discriminate|].
  cbn [deepcopy_fuel memo_get] in E. rewrite Hx in E.
  assert (exists r,
             copy_all (deepcopy_fuel fuel) (h ++ [rebuild o []])
               [(x, List.length h)] (children o) = Ok r
             /\ Ok (update (fst (fst r)) (List.length h)
                      (rebuild o (snd r)), List.length h)
                = Ok (h1, y)) as ([[h2 m2] ys] & E1 & E2).
  { destruct o; [now destruct (N a)|..];
      (destruct (copy_all _ _ _ _) as [r|e]; [|discriminate];
       exists r; split; [reflexivity|exact E]). }
  cbn [fst snd] in E2. inversion E2; subst. split; [reflexivity|].
  exists ys.
  eapply (alloc_copy_inv _ (List.length h) (deepcopy_fuel_inv _ fuel));
    eauto.
  - intros a b G. discriminate.
  - split; [lia|]. intros b Hb. lia.
Qed.

(** *** What the loops change *)

Lemma setattr_keeps (h : store) (a : addr) (k : string) (v : addr)
  (h' : store) :
  setattr h a k v = Ok h' ->
  keeps a h h' /\ List.length h' = List.length h /\ mutable h' a.
Proof.
  unfold setattr. intros E.
  destruct (nth_error h a) as [[x|items|fields|data]|] eqn:Ha;
    try discriminate.
  inversion E; subst.
  assert (a < List.length h) as La by (apply nth_error_Some; congruence).
  split; [|split].
  - split; [rewrite length_update; lia|].
    intros b _ N. now apply nth_error_update_other.
  - apply length_update.
  - eexists. split; [now apply nth_error_update_same|].
    intros x. discriminate.
Qed.

Lemma assign_keeps (kvs : list (string * addr)) (h : store) (a : addr)
  (h' : store) :
  assign h a kvs = Ok h' ->
  keeps a h h' /\ List.length h' = List.length h
  /\ (mutable h a -> mutable h' a).
Proof.
  revert h. induction kvs as [|[k v] kvs IH]; intros h E; cbn in E.
  - inversion E; subst. split; [apply extends_keeps, extends_refl|auto].
  - destruct (setattr h a k v) as [h1|e] eqn:S; [|discriminate].
    cbn in E. destruct (setattr_keeps _ _ _ _ _ S) as (K1 & L1 & M1).
    destruct (IH _ E) as (K2 & L2 & M2).
    split; [eapply keeps_trans; eauto|]. split; [lia|auto].
Qed.

Lemma settings_loop_keeps (fuel : nat) (keys : list string) (s : addr)
  (tuples : list (list addr)) :
  forall h settings h' outs,
    settings_loop fuel tuples keys s h settings = Ok (h', outs) ->
    keeps s h h'.
Proof.
  induction tuples as [|t tuples IH]; intros h settings h' outs E;
    cbn [settings_loop] in E.
  - inversion E; subst. apply extends_keeps, extends_refl.
  - destruct (assign h s (combine keys t)) as [h1|e] eqn:A; [|discriminate].
    cbn [bind] in E.
    destruct (deepcopy fuel h1 s) as [[h2 o]|e] eqn:D; [|discriminate].
    cbn [bind fst snd] in E.
    destruct (assign_keeps _ _ _ _ A) as (K1 & _).
    destruct (deepcopy_inv _ _ _ _ _ D) as (X2 & _).
    eapply keeps_trans; [exact K1|].
    eapply keeps_trans; [apply extends_keeps, X2|]. eapply IH; eauto.
Qed.

Section RecursionExtends.
Variable rec : store -> addr -> result (store * list addr).
Hypothesis rec_extends :
  forall h a h' outs, rec h a = Ok (h', outs) -> extends h h'.

Lemma expand_each_extends (data : list addr) :
  forall h h' outs, expand_each rec h data = Ok (h', outs) -> extends h h'.
Proof.
  induction data as [|v data IH]; intros h h' outs E; cbn [expand_each] in E.
  - inversion E; subst. apply extends_refl.
  - destruct (rec h v) as [[h1 o1]|e] eqn:R; [|discriminate].
    cbn [bind fst snd] in E.
    destruct (expand_each rec h1 data) as [[h2 o2]|e] eqn:R2; [|discriminate].
    cbn [bind fst snd] in E. inversion E; subst.
    eapply extends_trans; eauto.
Qed.

Lemma candidates_extends (h : store) (k : string) (v : addr) (h' : store)
  (c : option pool) :
  candidates rec h k v = Ok (h', c) -> extends h h'.
Proof.
  unfold candidates. intros E.
  destruct (nth_error h v) as [[x|items|fields|data]|]; try discriminate.
  - inversion E; subst. apply extends_refl.
  - inversion E; subst. apply extends_refl.
  - destruct (rec h v) as [[h1 o1]|e] eqn:R; [|discriminate].
    cbn in E. inversion E; subst. eauto.
  - destruct data as [|v0 data]; [discriminate|].
    destruct (nth_error h v0) as [[x|items|fields|data']|];
      try discriminate;
      try (inversion E; subst; apply extends_refl).
    destruct (expand_each rec h (v0 :: data)) as [[h1 o1]|e] eqn:R;
      [|discriminate].
    cbn in E. inversion E; subst. eapply expand_each_extends; eauto.
Qed.

Lemma collect_extends (items : list (string * addr)) :
  forall h keys vls h' r,
    collect rec h items keys vls = Ok (h', r) -> extends h h'.
Proof.
  induction items as [|[k v] items IH]; intros h keys vls h' r E;
    cbn [collect] in E.
  - inversion E; subst. apply extends_refl.
  - destruct (candidates rec h k v) as [[h1 c]|e] eqn:C; [|discriminate].
    cbn [bind fst snd] in E.
    apply candidates_extends in C.
    destruct c; (eapply extends_trans; [exact C|eapply IH; eauto]).
Qed.

End RecursionExtends.

(** [get_settings] changes no object that was in the store. *)
Lemma get_settings_extends (fuel : nat) :
  forall h self h' outs,
    get_settings fuel h self = Ok (h', outs) -> extends h h'.
Proof.
  induction fuel as [|fuel IH]; intros h self h' outs E; [discriminate|].
  cbn [get_settings] in E.
  destruct (nth_error h self) as [[x|items|fields|data]|] eqn:Hs;
    try discriminate.
  past_lookups E fields.
  destruct (collect (get_settings fuel) h fields [] [])
    as [[h1 [keys vls]]|e] eqn:C; [|discriminate].
  cbn [bind fst snd] in E.
  destruct (deepcopy fuel h1 self) as [[h2 s]|e] eqn:D; [|discriminate].
  cbn [bind fst snd] in E.
  destruct (read_pools h2 vls) as [pools|e]; [|discriminate].
  cbn [bind] in E.
  pose proof (collect_extends _ IH _ _ _ _ _ _ C) as X1.
  destruct (deepcopy_inv _ _ _ _ _ D) as (X2 & _).
  assert (nth_error h1 self = Some (OParams fields)) as Hs1.
  { destruct X1 as [_ X1]. rewrite X1; [exact Hs|].
    apply nth_error_Some. congruence. }
  destruct (deepcopy_not_leaf _ _ _ _ _ _ Hs1 ltac:(intros ? ?; discriminate) D)
    as [-> _].
  apply settings_loop_keeps in E.
  eapply extends_then_keeps; [|exact E|destruct X1; lia].
  eapply extends_trans; eauto.
Qed.

(** *** The regions of the outputs *)

Lemma tiled_le (h : store) (lo hi : nat) (outs : list addr) :
  tiled h lo hi outs -> lo <= hi.
Proof. induction 1; lia. Qed.

Lemma tiled_snoc (h : store) (lo mid hi : nat) (outs : list addr) (o : addr) :
  tiled h lo mid outs -> mid <= hi -> confined h mid hi o ->
  closed_region h mid hi -> tiled h lo hi (outs ++ [o]).
Proof.
  induction 1 as [lo|lo mid' mid o' outs L O C T IH]; intros Lh Ho Hc; cbn.
  - eapply tiled_cons; eauto. constructor.
  - eapply tiled_cons; eauto.
Qed.

Lemma tiled_preserved (h h' : store) (lo hi : nat) (outs : list addr) :
  tiled h lo hi outs ->
  (forall b, lo <= b < hi -> nth_error h' b = nth_error h b) ->
  (forall c, is_leaf h c -> is_leaf h' c) ->
  hi <= List.length h' ->
  tiled h' lo hi outs.
Proof.
  induction 1 as [lo|lo mid hi o outs L O C T IH]; intros E Hl Lh;
    [constructor|].
  pose proof (tiled_le _ _ _ _ T) as Lm.
  eapply tiled_cons; [exact L| | |].
  - eapply confined_mono; [exact Hl| |exact O]. lia.
  - eapply closed_region_preserved; [|exact Hl| |exact C].
    + intros b Hb. apply E. lia.
    + lia.
  - apply IH; auto. intros b Hb. apply E. lia.
Qed.

Lemma mutable_extends (h h' : store) (a : addr) :
  extends h h' -> mutable h a -> mutable h' a.
Proof.
  intros [L E] (o & Ho & No). exists o. split; [|exact No].
  rewrite E; [exact Ho|]. apply nth_error_Some. congruence.
Qed.

Lemma settings_loop_tiled (fuel : nat) (keys : list string) (s lo0 : nat)
  (tuples : list (list addr)) :
  forall h settings h' outs,
    settings_loop fuel tuples keys s h settings = Ok (h', outs) ->
    s < lo0 -> mutable h s ->
    tiled h lo0 (List.length h) settings ->
    tiled h' lo0 (List.length h') outs.
Proof.
  induction tuples as [|t tuples IH]; intros h settings h' outs E Hs Ms T;
    cbn [settings_loop] in E.
  - inversion E; subst. exact T.
  - destruct (assign h s (combine keys t)) as [h1|e] eqn:A; [|discriminate].
    cbn [bind] in E.
    destruct (deepcopy fuel h1 s) as [[h2 o]|e] eqn:D; [|discriminate].
    cbn [bind fst snd] in E.
    destruct (assign_keeps _ _ _ _ A) as (K1 & L1 & M1).
    destruct (deepcopy_inv _ _ _ _ _ D) as (X2 & C2 & O2).
    assert (tiled h1 lo0 (List.length h1) settings) as T1.
    { rewrite L1. eapply tiled_preserved; [exact T| | |lia].
      - intros b Hb. destruct K1 as [_ K1]. apply K1; lia.
      - intros c. now apply (is_leaf_keeps s). }
    assert (tiled h2 lo0 (List.length h1) settings) as T2.
    { eapply tiled_preserved; [exact T1| | |now destruct X2].
      - intros b Hb. destruct X2 as [_ X2]. apply X2. lia.
      - intros c. now apply is_leaf_extends. }
    eapply IH; [exact E|exact Hs| |].
    + eapply mutable_extends; eauto.
    + eapply tiled_snoc; eauto. now destruct X2.
Qed.

Lemma reach_confined (h : store) (lo hi : nat) (a b : addr) :
  closed_region h lo hi -> confined h lo hi a -> reach h a b ->
  confined h lo hi b.
Proof.
  intros C Ha R. induction R as [a|a c b o Ho Ic R IH]; [exact Ha|].
  apply IH. destruct Ha as [Ha|[x Hx]].
  - destruct C as [_ C]. destruct (C a Ha) as (o' & Ho' & _ & Hc).
    apply Hc. congruence.
  - rewrite Hx in Ho. inversion Ho; subst. destruct Ic.
Qed.

Lemma confined_mutable (h : store) (lo hi : nat) (b : addr) :
  confined h lo hi b -> mutable h b -> lo <= b < hi.
Proof.
  intros [I|[x Hx]] (o & Ho & No); [exact I|].
  rewrite Hx in Ho. inversion Ho; subst. now destruct (No x).
Qed.

Lemma tiled_range (h : store) (lo hi : nat) (outs : list addr) :
  tiled h lo hi outs ->
  forall i o b, nth_error outs i = Some o -> reach h o b -> mutable h b ->
                lo <= b < hi.
Proof.
  induction 1 as [lo|lo mid hi o0 outs L O C T IH]; intros i o b Hi R M.
  - destruct i; discriminate.
  - pose proof (tiled_le _ _ _ _ T) as Lm. destruct i as [|i]; cbn in Hi.
    + inversion Hi; subst.
      pose proof (confined_mutable _ _ _ _ (reach_confined _ _ _ _ _ C O R) M).
      lia.
    + specialize (IH _ _ _ Hi R M). lia.
Qed.

(** The changeable objects of one output are in its region, and the
    regions of different outputs do not meet. *)
Lemma tiled_separate (h : store) (lo hi : nat) (outs : list addr) :
  tiled h lo hi outs ->
  forall i o b, nth_error outs i = Some o -> reach h o b -> mutable h b ->
                forall j o', j <> i -> nth_error outs j = Some o' ->
                             ~ reach h o' b.
Proof.
  induction 1 as [lo|lo mid hi o0 outs L O C T IH];
    intros i o b Hi R M j o' D Hj R'.
  - destruct i; discriminate.
  - destruct i as [|i], j as [|j]; cbn in Hi, Hj; try congruence.
    + inversion Hi; subst.
      pose proof (confined_mutable _ _ _ _ (reach_confined _ _ _ _ _ C O R) M).
      pose proof (tiled_range _ _ _ _ T _ _ _ Hj R' M). lia.
    + inversion Hj; subst.
      pose proof (confined_mutable _ _ _ _ (reach_confined _ _ _ _ _ C O R') M).
      pose proof (tiled_range _ _ _ _ T _ _ _ Hi R M). lia.
    + eapply (IH i o b Hi R M j o'); auto.
Qed.

(** *** Reading values *)

Lemma reach_old (h h' : store) (a b : addr) :
  wf h -> extends h h' -> a < List.length h -> reach h' a b ->
  b < List.length h.
Proof.
  intros W [L E] Ha R. induction R as [a|a c b o Ho Ic R IH]; [exact Ha|].
  apply IH. rewrite E in Ho by exact Ha. eapply W; eauto.
Qed.

Lemma unfold_update (n : nat) (h : store) (a b : addr) (o : obj) :
  (forall c, reach h a c -> c <> b) ->
  unfold n (update h b o) a = unfold n h a.
Proof.
  revert a. induction n as [|n IH]; intros a H; [reflexivity|].
  cbn [unfold].
  rewrite nth_error_update_other by (apply H; constructor).
  destruct (nth_error h a) as [[x|items|fields|data]|] eqn:Ha;
    try reflexivity; f_equal; apply map_ext_in; intros c Ic.
  - apply IH. intros c' R. apply H. eapply reach_part; eauto.
  - f_equal. apply IH. intros c' R. apply H.
    eapply reach_part; eauto. cbn. now apply in_map.
  - apply IH. intros c' R. apply H. eapply reach_part; eauto.
Qed.

Lemma unfold_extends (n : nat) (h h' : store) (a : addr) :
  wf h -> extends h h' -> a < List.length h ->
  unfold n h' a = unfold n h a.
Proof.
  intros W [L E]. revert a. induction n as [|n IH]; intros a Ha;
    [reflexivity|].
  cbn [unfold]. rewrite E by exact Ha.
  destruct (nth_error h a) as [[x|items|fields|data]|] eqn:Hx;
    try reflexivity; f_equal; apply map_ext_in; intros c Ic.
  - apply IH. eapply W; eauto.
  - f_equal. apply IH. eapply W; eauto. cbn. now apply in_map.
  - apply IH. eapply W; eauto.
Qed.

Lemma well_formed_wf (h : store) : well_formed h = true -> wf h.
Proof.
  unfold well_formed. intros H a o c Ha Ic.
  rewrite forallb_forall in H. apply nth_error_In in Ha.
  specialize (H o Ha). rewrite forallb_forall in H.
  now apply Nat.ltb_lt, H.
Qed.

(** *** Independence of the outputs *)

Lemma get_settings_tiled (fuel : nat) (h : store) (self : addr) (h' : store)
  (outs : list addr) :
  get_settings fuel h self = Ok (h', outs) ->
  exists lo, List.length h <= lo /\ tiled h' lo (List.length h') outs.
Proof.
  intros E. destruct fuel as [|fuel]; [discriminate|].
  cbn [get_settings] in E.
  destruct (nth_error h self) as [[x|items|fields|data]|] eqn:Hs;
    try discriminate.
  past_lookups E fields.
  destruct (collect (get_settings fuel) h fields [] [])
    as [[h1 [keys vls]]|e] eqn:C; [|discriminate].
  cbn [bind fst snd] in E.
  destruct (deepcopy fuel h1 self) as [[h2 s]|e] eqn:D; [|discriminate].
  cbn [bind fst snd] in E.
  destruct (read_pools h2 vls) as [pools|e]; [|discriminate].
  cbn [bind] in E.
  pose proof (collect_extends _ (get_settings_extends fuel) _ _ _ _ _ _ C)
    as X1.
  destruct (deepcopy_inv _ _ _ _ _ D) as (X2 & _).
  assert (nth_error h1 self = Some (OParams fields)) as Hs1.
  { destruct X1 as [_ X1]. rewrite X1; [exact Hs|].
    apply nth_error_Some. congruence. }
  destruct (deepcopy_not_leaf _ _ _ _ _ _ Hs1 ltac:(intros ? ?; discriminate) D)
    as [-> [cs Hcs]].
  assert (List.length h1 < List.length h2) as L12
    by (apply nth_error_Some; congruence).
  exists (List.length h2). split; [destruct X1; lia|].
  eapply settings_loop_tiled; [exact E|exact L12| |constructor].
  eexists. split; [exact Hcs|]. intros x. discriminate.
Qed.

(** *** deepcopy builds a copy *)

Lemma rel_mono (h0 : store) (m m1 : memo) (a b : addr) :
  memo_le m m1 -> rel h0 m a b -> rel h0 m1 a b.
Proof. intros L [G|I]; [left; auto|right; exact I]. Qed.

Lemma complete_mono (h0 h h1 : store) (m m1 : memo) (a b : addr) :
  memo_le m m1 -> nth_error h1 b = nth_error h b ->
  complete h0 h m a b -> complete h0 h1 m1 a b.
Proof.
  intros L E (o & cs & Ha & No & Hb & F). exists o, cs.
  split; [exact Ha|]. split; [exact No|]. split; [congruence|].
  eapply Forall2_impl; [|exact F]. intros x y. now apply rel_mono.
Qed.

Lemma memo_le_refl (m : memo) : memo_le m m.
Proof. intros a b G. exact G. Qed.

Lemma memo_le_trans (m1 m2 m3 : memo) :
  memo_le m1 m2 -> memo_le m2 m3 -> memo_le m1 m3.
Proof. intros A B a b G. auto. Qed.

Lemma memo_le_cons (m : memo) (x y : addr) :
  memo_get m x = None -> memo_le m ((x, y) :: m).
Proof.
  intros N a b G. cbn. destruct (Nat.eqb_spec a x) as [->|D]; [congruence|].
  exact G.
Qed.

Section CopySim.
Variable copy : store -> memo -> addr -> result (store * memo * addr).
Variable h0 : store.
Hypothesis wf0 : wf h0.

Hypothesis copy_inv :
  forall h m x h1 m1 y,
    copy h m x = Ok (h1, m1, y) ->
    List.length h0 <= List.length h ->
    memo_in m (List.length h0) (List.length h) ->
    closed_region h (List.length h0) (List.length h) ->
    extends h h1
    /\ memo_in m1 (List.length h0) (List.length h1)
    /\ closed_region h1 (List.length h0) (List.length h1)
    /\ confined h1 (List.length h0) (List.length h1) y.

Hypothesis copy_sim :
  forall pend h m x h1 m1 y,
    copy h m x = Ok (h1, m1, y) ->
    x < List.length h0 ->
    extends h0 h ->
    memo_in m (List.length h0) (List.length h) ->
    closed_region h (List.length h0) (List.length h) ->
    sim h0 pend h m ->
    sim h0 pend h1 m1 /\ rel h0 m1 x y /\ memo_le m m1.

Lemma copy_all_sim (xs : list addr) :
  forall pend h m h1 m1 ys,
    copy_all copy h m xs = Ok (h1, m1, ys) ->
    Forall (fun x => x < List.length h0) xs ->
    extends h0 h ->
    memo_in m (List.length h0) (List.length h) ->
    closed_region h (List.length h0) (List.length h) ->
    sim h0 pend h m ->
    sim h0 pend h1 m1 /\ Forall2 (rel h0 m1) xs ys /\ memo_le m m1.
Proof.
  induction xs as [|x xs IH]; intros pend h m h1 m1 ys E V X M C S.
  - cbn in E. inversion E; subst.
    split; [exact S|]. split; [constructor|apply memo_le_refl].
  - cbn [copy_all] in E.
    destruct (copy h m x) as [[[hA mA] yA]|e] eqn:EA; [|discriminate].
    cbn [bind fst snd] in E.
    destruct (copy_all copy hA mA xs) as [[[hB mB] ys']|e] eqn:EB;
      [|discriminate].
    cbn [bind fst snd] in E. inversion E; subst.
    inversion V as [|? ? Vx Vxs]; subst.
    assert (List.length h0 <= List.length h) as B by (now destruct X).
    destruct (copy_inv _ _ _ _ _ _ EA B M C) as (XA & MA & CA & _).
    destruct (copy_sim _ _ _ _ _ _ _ EA Vx X M C S) as (SA & RA & LA).
    destruct (IH _ _ _ _ _ _ EB Vxs (extends_trans _ _ _ X XA) MA CA SA)
      as (SB & RB & LB).
    split; [exact SB|]. split.
    + constructor; [now apply (rel_mono _ mA)|exact RB].
    + eapply memo_le_trans; eauto.
Qed.

Lemma alloc_copy_sim (pend : list addr) (h : store) (m : memo) (x : addr)
  (o : obj) (h2 : store) (m2 : memo) (ys : list addr) :
  nth_error h x = Some o -> not_leaf o -> memo_get m x = None ->
  x < List.length h0 ->
  extends h0 h ->
  memo_in m (List.length h0) (List.length h) ->
  closed_region h (List.length h0) (List.length h) ->
  sim h0 pend h m ->
  copy_all copy (h ++ [rebuild o []]) ((x, List.length h) :: m) (children o)
  = Ok (h2, m2, ys) ->
  sim h0 pend (update h2 (List.length h) (rebuild o ys)) m2
  /\ rel h0 m2 x (List.length h)
  /\ memo_le m m2.
Proof.
  intros Hx N G Vx X M C (S1 & S2 & S3) E.
  assert (List.length h0 <= List.length h) as B by (now destruct X).
  assert (nth_error h0 x = Some o) as Hx0
    by (destruct X as [_ X]; now rewrite <- X).
  assert (List.length (h ++ [rebuild o []]) = S (List.length h)) as LA
    by (rewrite length_app; cbn; lia).
  assert (children (rebuild o []) = []) as Cnil.
  { destruct (children (rebuild o [])) as [|c cs] eqn:Ec; [reflexivity|].
    exfalso. apply (children_rebuild o [] c N). rewrite Ec. now left. }
  pose proof (memo_le_cons m x (List.length h) G) as LmA.
  assert (memo_in ((x, List.length h) :: m) (List.length h0)
            (List.length (h ++ [rebuild o []]))) as MA.
  { apply memo_in_cons; [|lia]. eapply memo_in_mono; [exact M|lia]. }
  assert (closed_region (h ++ [rebuild o []]) (List.length h0)
            (List.length (h ++ [rebuild o []]))) as CA.
  { apply closed_region_alloc; auto. now apply rebuild_not_leaf. }
  assert (extends h0 (h ++ [rebuild o []])) as XA
    by (eapply extends_trans; [exact X|apply extends_app]).
  assert (sim h0 (x :: pend) (h ++ [rebuild o []]) ((x, List.length h) :: m))
    as SA.
  { split; [|split].
    - intros a b Ga. destruct (Nat.eq_dec a x) as [->|D]; [left; now left|].
      assert (memo_get m a = Some b) as Ga'.
      { cbn in Ga. destruct (Nat.eqb_spec a x); [contradiction|exact Ga]. }
      destruct (S1 _ _ Ga') as [I|Cm]; [left; now right|right].
      eapply complete_mono; [exact LmA| |exact Cm].
      apply nth_error_app1. apply (M _ _ Ga').
    - intros a a' b Ga Ga'. cbn in Ga, Ga'.
      destruct (Nat.eqb_spec a x) as [->|D], (Nat.eqb_spec a' x) as [->|D'];
        auto.
      + inversion Ga; subst. pose proof (M _ _ Ga'). lia.
      + inversion Ga'; subst. pose proof (M _ _ Ga). lia.
      + eapply S2; eauto.
    - intros b Hb. rewrite LA in Hb.
      destruct (Nat.eq_dec b (List.length h)) as [->|D].
      + exists x. cbn. now rewrite Nat.eqb_refl.
      + destruct (S3 b ltac:(lia)) as [a Ga]. exists a. now apply LmA. }
  assert (Forall (fun c => c < List.length h0) (children o)) as Vc.
  { apply Forall_forall. intros c Ic. eapply wf0; eauto. }
  destruct (copy_all_inv _ _ copy_inv _ _ _ _ _ _ E ltac:(lia) MA CA)
    as (X2 & M2 & C2 & _).
  destruct (copy_all_sim _ _ _ _ _ _ _ E Vc XA MA CA SA)
    as ((T1 & T2 & T3) & F & L2).
  assert (List.length h < List.length h2) as Lh by (destruct X2; lia).
  assert (memo_get m2 x = Some (List.length h)) as Gx.
  { apply L2. cbn. now rewrite Nat.eqb_refl. }
  assert (complete h0 (update h2 (List.length h) (rebuild o ys)) m2 x
            (List.length h)) as Cx.
  { exists o, ys. split; [exact Hx0|]. split; [exact N|]. split; [|exact F].
    now apply nth_error_update_same. }
  split; [|split].
  - split; [|split].
    + intros a b Ga. destruct (T1 _ _ Ga) as [[<-|I]|Cm].
      * right. assert (b = List.length h) as -> by congruence. exact Cx.
      * now left.
      * right. destruct (Nat.eq_dec b (List.length h)) as [->|D].
        -- assert (a = x) as -> by (eapply T2; eauto). exact Cx.
        -- eapply complete_mono; [apply memo_le_refl| |exact Cm].
           now apply nth_error_update_other.
    + exact T2.
    + intros b Hb. rewrite length_update in Hb. now apply T3.
  - now left.
  - eapply memo_le_trans; eauto.
Qed.

End CopySim.

Lemma deepcopy_fuel_sim (h0 : store) (fuel : nat) :
  wf h0 ->
  forall pend h m x h1 m1 y,
    deepcopy_fuel fuel h m x = Ok (h1, m1, y) ->
    x < List.length h0 ->
    extends h0 h ->
    memo_in m (List.length h0) (List.length h) ->
    closed_region h (List.length h0) (List.length h) ->
    sim h0 pend h m ->
    sim h0 pend h1 m1 /\ rel h0 m1 x y /\ memo_le m m1.
Proof.
  intros W. induction fuel as [|fuel IH];
    intros pend h m x h1 m1 y E Vx X M C S; [discriminate|].
  cbn [deepcopy_fuel] in E.
  destruct (memo_get m x) as [y'|] eqn:G.
  { inversion E; subst. split; [exact S|].
    split; [now left|apply memo_le_refl]. }
  destruct (nth_error h x) as [o|] eqn:Hx; [|discriminate].
  assert (not_leaf o \/ exists a, o = OLeaf a) as [N|[a ->]].
  { destruct o; [right; eauto|left..]; intros ? ?; discriminate. }
  - assert (exists r,
               copy_all (deepcopy_fuel fuel) (h ++ [rebuild o []])
                 ((x, List.length h) :: m) (children o) = Ok r
               /\ Ok (update (fst (fst r)) (List.length h)
                        (rebuild o (snd r)), snd (fst r), List.length h)
                  = Ok (h1, m1, y)) as ([[h2 m2] ys] & E1 & E2).
    { destruct o; [now destruct (N a)|..];
        (destruct (copy_all _ _ _ _) as [r|e]; [|discriminate];
         exists r; split; [reflexivity|exact E]). }
    cbn [fst snd] in E2. inversion E2; subst.
    eapply (alloc_copy_sim (deepcopy_fuel fuel) h0 W
              (deepcopy_fuel_inv (List.length h0) fuel) IH); eauto.
  - inversion E; subst. split; [exact S|]. split; [|apply memo_le_refl].
    right. split; [reflexivity|]. exists a.
    destruct X as [_ X]. now rewrite <- X.
Qed.

(** After [deepcopy] of [x] in the store [h0]: every entry of the memo
    is complete. *)
Lemma deepcopy_sim (fuel : nat) (h0 : store) (x : addr) (h1 : store)
  (y : addr) :
  wf h0 -> x < List.length h0 ->
  deepcopy fuel h0 x = Ok (h1, y) ->
  exists m1,
    (forall a b, memo_get m1 a = Some b -> complete h0 h1 m1 a b)
    /\ memo_injective m1
    /\ rel h0 m1 x y.
Proof.
  intros W Vx E. unfold deepcopy in E.
  destruct (deepcopy_fuel fuel h0 [] x) as [[[h' m'] y']|e] eqn:D;
    [|discriminate].
  cbn in E. inversion E; subst.
  destruct (deepcopy_fuel_sim h0 fuel W [] _ _ _ _ _ _ D Vx (extends_refl _))
    as ((S1 & S2 & _) & R & _).
  - intros a b G. discriminate.
  - split; [lia|]. intros b Hb. lia.
  - split; [|split].
    + intros a b G. discriminate.
    + intros a a' b G. discriminate.
    + intros b Hb. lia.
  - exists m'. split; [|split; [exact S2|exact R]].
    intros a b G. destruct (S1 _ _ G) as [[]|Cm]. exact Cm.
Qed.

Lemma map_related {A B C : Type} (R : A -> B -> Prop) (f : B -> C)
  (g : A -> C) (xs : list A) (ys : list B) :
  Forall2 R xs ys -> (forall a b, R a b -> In a xs -> f b = g a) ->
  map f ys = map g xs.
Proof.
  induction 1 as [|a b xs ys Rab F IH]; intros H; [reflexivity|].
  cbn. f_equal.
  - apply H; [exact Rab|now left].
  - apply IH. intros a' b' R' I. apply H; [exact R'|now right].
Qed.

Lemma fields_related {C : Type} (R : addr -> addr -> Prop) (f g : addr -> C)
  (fields : list (string * addr)) :
  forall cs,
    Forall2 R (map snd fields) cs ->
    (forall a b, R a b -> In a (map snd fields) -> f b = g a) ->
    map (fun kv => (fst kv, f (snd kv))) (combine (map fst fields) cs)
    = map (fun kv => (fst kv, g (snd kv))) fields.
Proof.
  induction fields as [|[k a] fields IH]; intros cs F H; [reflexivity|].
  cbn [map fst snd] in F. inversion F as [|? b ? cs' Rab F']; subst.
  cbn [map fst snd combine]. f_equal.
  - f_equal. apply H; [exact Rab|now left].
  - apply IH; [exact F'|]. intros a' b' R' I. apply H; [exact R'|now right].
Qed.

Lemma related_in_r {A B : Type} (R : A -> B -> Prop) (xs : list A)
  (ys : list B) (y : B) :
  Forall2 R xs ys -> In y ys -> exists x, In x xs /\ R x y.
Proof.
  induction 1 as [|a b xs ys Rab F IH]; intros I; [contradiction|].
  destruct I as [->|I].
  - exists a. split; [now left|exact Rab].
  - destruct (IH I) as (x & Ix & Rx). exists x. split; [now right|exact Rx].
Qed.

Lemma dict_get_related (R : addr -> addr -> Prop)
  (fields : list (string * addr)) (k : string) (a : addr) :
  forall cs,
    Forall2 R (map snd fields) cs ->
    dict_get k fields = Some a ->
    exists a', dict_get k (combine (map fst fields) cs) = Some a' /\ R a a'.
Proof.
  induction fields as [|[k0 a0] fields IH]; intros cs F G; [discriminate|].
  cbn [map fst snd] in F. inversion F as [|? b ? cs' Rab F']; subst.
  cbn [map fst snd combine dict_get] in *.
  destruct (String.eqb k k0).
  - inversion G; subst. eauto.
  - now apply IH.
Qed.

Section Copies.
Variables (h0 h1 : store) (m1 : memo).
Hypothesis wf0 : wf h0.
Hypothesis ext : extends h0 h1.
Hypothesis all_complete :
  forall a b, memo_get m1 a = Some b -> complete h0 h1 m1 a b.

(** A copy reads as the original. *)
Lemma rel_unfold (n : nat) :
  forall a b, rel h0 m1 a b -> a < List.length h0 ->
              unfold n h1 b = unfold n h0 a.
Proof.
  induction n as [|n IH]; intros a b R Va; [reflexivity|].
  cbn [unfold]. destruct R as [G|[<- [x Hx]]].
  - destruct (all_complete _ _ G) as (o & cs & Ha & No & Hb & F).
    rewrite Ha, Hb.
    assert (forall c c', rel h0 m1 c c' -> In c (children o) ->
                         unfold n h1 c' = unfold n h0 c) as H.
    { intros c c' Rc Ic. apply IH; [exact Rc|]. eapply wf0; eauto. }
    destruct o as [x|items|fields|data]; cbn [rebuild children] in *.
    + now destruct (No x).
    + f_equal. eapply map_related; eauto.
    + f_equal. eapply fields_related; eauto.
    + f_equal. eapply map_related; eauto.
  - destruct ext as [_ E]. rewrite E by exact Va. now rewrite Hx.
Qed.

(** What a copy reaches is a copy of what the original reaches. *)
Lemma reach_back (b c' : addr) :
  reach h1 b c' ->
  forall a, rel h0 m1 a b -> a < List.length h0 ->
            exists c, rel h0 m1 c c' /\ reach h0 a c.
Proof.
  induction 1 as [b|b c1' c' ob Hb Ic R IH]; intros a Ra Va.
  - exists a. split; [exact Ra|constructor].
  - destruct Ra as [G|[<- [x Hx]]].
    + destruct (all_complete _ _ G) as (o & cs & Ha & No & Hb' & F).
      rewrite Hb in Hb'. inversion Hb'; subst ob.
      apply children_rebuild in Ic; [|exact No].
      destruct (related_in_r _ _ _ _ F Ic) as (c1 & Ic1 & R1).
      destruct (IH c1 R1 ltac:(eapply wf0; eauto)) as (c & Rc & Rch).
      exists c. split; [exact Rc|]. eapply reach_part; eauto.
    + destruct ext as [_ E]. rewrite E, Hx in Hb by exact Va.
      inversion Hb; subst. destruct Ic.
Qed.

End Copies.

(** [deepcopy] returns an object that reads as the one it copies. *)
Lemma deepcopy_unfold (fuel : nat) (h : store) (x : addr) (h1 : store)
  (y : addr) :
  wf h -> x < List.length h ->
  deepcopy fuel h x = Ok (h1, y) ->
  forall n, unfold n h1 y = unfold n h x.
Proof.
  intros W Vx E n.
  destruct (deepcopy_sim _ _ _ _ _ W Vx E) as (m1 & Cm & _ & R).
  destruct (deepcopy_inv _ _ _ _ _ E) as (X & _).
  eapply rel_unfold; eauto.
Qed.

(** The copy of a [Parameters] object: a new object with the same field
    names; each field holds a copy that reads as the original field, and
    that does not lead back to the new object unless the original field
    leads back to the original object. *)
Lemma deepcopy_params (fuel : nat) (h : store) (self : addr)
  (fields : list (string * addr)) (h1 : store) (s : addr) :
  wf h -> nth_error h self = Some (OParams fields) ->
  deepcopy fuel h self = Ok (h1, s) ->
  s = List.length h
  /\ exists cs,
       nth_error h1 s = Some (OParams (combine (map fst fields) cs))
       /\ forall k a,
            dict_get k fields = Some a ->
            exists a',
              dict_get k (combine (map fst fields) cs) = Some a'
              /\ a' < List.length h1
              /\ (forall n, unfold n h1 a' = unfold n h a)
              /\ (~ reach h a self -> forall c, reach h1 a' c -> c <> s).
Proof.
  intros W Hs E.
  assert (self < List.length h) as Vs by (apply nth_error_Some; congruence).
  assert (not_leaf (OParams fields)) as N by (intros ? ?; discriminate).
  destruct (deepcopy_not_leaf _ _ _ _ _ _ Hs N E) as [-> _].
  split; [reflexivity|].
  destruct (deepcopy_sim _ _ _ _ _ W Vs E) as (m1 & Cm & Inj & R).
  destruct (deepcopy_inv _ _ _ _ _ E) as (X & _).
  assert (memo_get m1 self = Some (List.length h)) as Gs.
  { destruct R as [G|[_ [x Hx]]]; [exact G|congruence]. }
  destruct (Cm _ _ Gs) as (o & cs & Ho & _ & Hb & F).
  rewrite Hs in Ho. inversion Ho; subst o. cbn [rebuild children] in *.
  exists cs. split; [exact Hb|].
  intros k a G.
  destruct (dict_get_related _ _ _ _ _ F G) as (a' & G' & Ra).
  assert (a < List.length h) as Va.
  { eapply W; [exact Hs|]. cbn.
    clear -G. induction fields as [|[k0 a0] fields IH]; [discriminate|].
    cbn in *. destruct (String.eqb k k0); [inversion G; now left|].
    right. now apply IH. }
  exists a'. split; [exact G'|]. split; [|split].
  - destruct Ra as [Ga|[<- _]]; [|destruct X; lia].
    destruct (Cm _ _ Ga) as (o' & cs' & _ & _ & Hb' & _).
    apply nth_error_Some. congruence.
  - intros n. eapply rel_unfold; eauto.
  - intros NR c Rc ->.
    destruct (reach_back _ _ _ W X Cm _ _ Rc _ Ra Va) as (c & Rcs & Rac).
    destruct Rcs as [Gc|[-> [x Hx]]].
    + assert (c = self) as -> by (eapply Inj; eauto). contradiction.
    + assert (List.length h < List.length h) as L
        by (apply nth_error_Some; congruence).
      lia.
Qed.

(** *** Stores that agree where an object leads *)

Lemma unfold_stable (n : nat) (h h' : store) (a : addr) :
  stable_from h h' a -> unfold n h' a = unfold n h a.
Proof.
  revert a. induction n as [|n IH]; intros a H; [reflexivity|].
  cbn [unfold]. rewrite (H a (reach_here _ _)).
  destruct (nth_error h a) as [[x|items|fields|data]|] eqn:Ha;
    try reflexivity; f_equal; apply map_ext_in; intros c Ic.
  - apply IH. intros c' R. apply H. eapply reach_part; eauto.
  - f_equal. apply IH. intros c' R. apply H.
    eapply reach_part; eauto. cbn. now apply in_map.
  - apply IH. intros c' R. apply H. eapply reach_part; eauto.
Qed.

Lemma reach_stable (h h' : store) (a b : addr) :
  stable_from h h' a -> reach h' a b -> reach h a b.
Proof.
  intros H R. induction R as [a|a c b o Ho Ic R IH]; [constructor|].
  rewrite (H a (reach_here _ _)) in Ho.
  eapply reach_part; [exact Ho|exact Ic|].
  apply IH. intros c' Rc. apply H. eapply reach_part; eauto.
Qed.

Lemma reach_valid (h : store) (a b : addr) :
  wf h -> valid h a -> reach h a b -> valid h b.
Proof.
  intros W Va R. eapply reach_old; eauto. apply extends_refl.
Qed.

Lemma stable_keeps (s : addr) (h h' : store) (a : addr) :
  wf h -> keeps s h h' -> valid h a ->
  (forall c, reach h a c -> c <> s) -> stable_from h h' a.
Proof.
  intros W [_ K] Va N c R. apply K; [|now apply N].
  eapply reach_valid; eauto.
Qed.

Lemma stable_extends (h h' : store) (a : addr) :
  wf h -> extends h h' -> valid h a -> stable_from h h' a.
Proof. intros W [_ E] Va c R. apply E. eapply reach_valid; eauto. Qed.

Lemma stable_confined (s : addr) (h h' : store) (l u : nat) (o : addr) :
  closed_region h l u -> confined h l u o -> keeps s h h' -> s < l ->
  mutable h s -> stable_from h h' o.
Proof.
  intros C O [_ K] Hs (os & Hos & Nos) c R.
  pose proof (reach_confined _ _ _ _ _ C O R) as [I|[x Hx]].
  - apply K; [destruct C; lia|lia].
  - apply K.
    + apply nth_error_Some. congruence.
    + intros ->. rewrite Hos in Hx. inversion Hx. now apply (Nos x).
Qed.

Lemma tiled_in (h : store) (lo hi : nat) (outs : list addr) (o : addr) :
  tiled h lo hi outs -> In o outs ->
  exists l u, lo <= l /\ closed_region h l u /\ confined h l u o.
Proof.
  induction 1 as [lo|lo mid hi o0 outs L O C T IH]; intros I;
    [contradiction|].
  destruct I as [->|I].
  - exists lo, mid. auto.
  - destruct (IH I) as (l & u & Hl & Cl & Ol). exists l, u.
    split; [lia|auto].
Qed.

(** *** Stores stay well formed *)

Lemma wf_closed (h h1 : store) :
  wf h -> extends h h1 ->
  closed_region h1 (List.length h) (List.length h1) -> wf h1.
Proof.
  intros W [L E] [_ C] a o c Ha Ic.
  destruct (Nat.lt_ge_cases a (List.length h)) as [Va|Va].
  - rewrite E in Ha by exact Va. pose proof (W _ _ _ Ha Ic). lia.
  - assert (a < List.length h1) as Va1 by (apply nth_error_Some; congruence).
    destruct (C a ltac:(lia)) as (o' & Ho' & _ & Hc).
    rewrite Ha in Ho'. inversion Ho'; subst o'.
    destruct (Hc c Ic) as [I|[x Hx]]; [lia|].
    apply nth_error_Some. congruence.
Qed.

Lemma deepcopy_wf (fuel : nat) (h : store) (x : addr) (h1 : store)
  (y : addr) :
  wf h -> deepcopy fuel h x = Ok (h1, y) -> wf h1 /\ valid h1 y.
Proof.
  intros W E. destruct (deepcopy_inv _ _ _ _ _ E) as (X & C & Y).
  split; [eapply wf_closed; eauto|].
  destruct Y as [I|[a Ha]]; [unfold valid; lia|].
  apply nth_error_Some. congruence.
Qed.

Lemma in_dict_set_snd (k : string) (v c : addr) (d : list (string * addr)) :
  In c (map snd (dict_set k v d)) -> c = v \/ In c (map snd d).
Proof.
  induction d as [|[k0 v0] d IH]; cbn.
  - intros [<-|[]]. now left.
  - destruct (String.eqb k k0); cbn; intros [<-|I]; auto.
    destruct (IH I); auto.
Qed.

Lemma wf_update (h : store) (a : addr) (o : obj) :
  wf h -> (forall c, In c (children o) -> valid h c) -> wf (update h a o).
Proof.
  intros W H b ob c Hb Ic. rewrite length_update.
  destruct (Nat.eq_dec b a) as [->|D].
  - assert (a < List.length h) as Va.
    { rewrite <- (length_update h a o). apply nth_error_Some. congruence. }
    rewrite nth_error_update_same in Hb by exact Va.
    inversion Hb; subst. now apply H.
  - rewrite nth_error_update_other in Hb by exact D. eapply W; eauto.
Qed.

Lemma setattr_fields (h : store) (a : addr) (k : string) (v : addr)
  (h' : store) (fs : list (string * addr)) :
  setattr h a k v = Ok h' -> nth_error h a = Some (OParams fs) ->
  nth_error h' a = Some (OParams (dict_set k v fs)).
Proof.
  unfold setattr. intros E Ha. rewrite Ha in E. inversion E; subst.
  apply nth_error_update_same, nth_error_Some. congruence.
Qed.

Lemma setattr_wf (h : store) (a : addr) (k : string) (v : addr)
  (h' : store) :
  wf h -> valid h v -> setattr h a k v = Ok h' -> wf h'.
Proof.
  unfold setattr. intros W Vv E.
  destruct (nth_error h a) as [[x|items|fields|data]|] eqn:Ha;
    try discriminate.
  inversion E; subst. apply wf_update; [exact W|].
  intros c Ic. cbn in Ic. apply in_dict_set_snd in Ic as [->|Ic];
    [exact Vv|].
  eapply W; eauto.
Qed.

Lemma assign_wf (kvs : list (string * addr)) :
  forall h a h',
    wf h -> Forall (valid h) (map snd kvs) -> assign h a kvs = Ok h' ->
    wf h'.
Proof.
  induction kvs as [|[k v] kvs IH]; intros h a h' W V E; cbn in E.
  - inversion E; subst. exact W.
  - destruct (setattr h a k v) as [h1|e] eqn:S; [|discriminate].
    cbn in E, V. inversion V as [|? ? Vv Vs]; subst.
    destruct (setattr_keeps _ _ _ _ _ S) as (_ & L1 & _).
    eapply IH; [|exact (eq_ind _ (fun n => Forall (fun c => c < n) _) Vs _
                          (eq_sym L1))|exact E].
    eapply setattr_wf; eauto.
Qed.

Lemma assign_fields (kvs : list (string * addr)) :
  forall h a h' fs,
    assign h a kvs = Ok h' -> nth_error h a = Some (OParams fs) ->
    exists fs',
      nth_error h' a = Some (OParams fs')
      /\ forall k, ~ In k (map fst kvs) -> dict_get k fs' = dict_get k fs.
Proof.
  induction kvs as [|[k v] kvs IH]; intros h a h' fs E Ha; cbn in E.
  - inversion E; subst. eauto.
  - destruct (setattr h a k v) as [h1|e] eqn:S; [|discriminate].
    cbn in E. pose proof (setattr_fields _ _ _ _ _ _ S Ha) as H1.
    destruct (IH _ _ _ _ E H1) as (fs' & H' & G). exists fs'.
    split; [exact H'|]. intros k' N. cbn in N.
    rewrite G by tauto. apply dict_get_set_other. intros ->. tauto.
Qed.

(** *** The fields that are not assigned *)

Lemma dict_get_map_values {A B : Type} (f : A -> B) (k : string)
  (d : list (string * A)) :
  dict_get k (map (fun kv => (fst kv, f (snd kv))) d)
  = option_map f (dict_get k d).
Proof.
  induction d as [|[k0 v0] d IH]; [reflexivity|].
  cbn. destruct (String.eqb k k0); [reflexivity|exact IH].
Qed.

Lemma field_reads_stable (h h1 : store) (k : string) (T : nat -> tree)
  (o : addr) :
  stable_from h h1 o -> field_reads h k T o -> field_reads h1 k T o.
Proof.
  intros S F n. destruct (F n) as (ft & U & G). exists ft.
  split; [|exact G]. now rewrite (unfold_stable _ _ _ _ S).
Qed.

(** What holds of the field [a'] of [_setting] and of the outputs made
    so far goes over to a store that differs at [_setting] only. *)
Lemma loop_state_keeps (s lo0 hi : nat) (k : string) (a' : addr)
  (T : nat -> tree) (h h1 : store) (settings : list addr) :
  wf h -> keeps s h h1 -> s < lo0 -> mutable h s -> valid h a' ->
  hi <= List.length h ->
  (forall c, reach h a' c -> c <> s) ->
  (forall n, unfold n h a' = T n) ->
  tiled h lo0 hi settings ->
  Forall (field_reads h k T) settings ->
  (forall c, reach h1 a' c -> c <> s)
  /\ (forall n, unfold n h1 a' = T n)
  /\ tiled h1 lo0 hi settings
  /\ Forall (field_reads h1 k T) settings.
Proof.
  intros W K Hs Ms Va Hhi NR U Tl F.
  pose proof (stable_keeps _ _ _ _ W K Va NR) as St.
  split; [|split; [|split]].
  - intros c R. apply NR. eapply reach_stable; eauto.
  - intros n. rewrite <- U. now apply unfold_stable.
  - eapply tiled_preserved; [exact Tl| | |destruct K; lia].
    + intros b Hb. destruct K as [_ K]. apply K; lia.
    + intros c. now apply (is_leaf_keeps s).
  - rewrite Forall_forall in *. intros o Io.
    destruct (tiled_in _ _ _ _ _ Tl Io) as (l & u & Hl & Cl & Ol).
    eapply field_reads_stable; [|apply F, Io].
    eapply stable_confined; eauto. lia.
Qed.

Lemma settings_loop_fixed (fuel : nat) (keys : list string) (s lo0 : nat)
  (k : string) (a' : addr) (T : nat -> tree) :
  ~ In k keys -> s < lo0 ->
  forall tuples h settings h' outs,
    settings_loop fuel tuples keys s h settings = Ok (h', outs) ->
    wf h ->
    (exists fs, nth_error h s = Some (OParams fs)
                /\ dict_get k fs = Some a') ->
    valid h a' ->
    (forall c, reach h a' c -> c <> s) ->
    (forall n, unfold n h a' = T n) ->
    (forall t, In t tuples -> Forall (valid h) t) ->
    tiled h lo0 (List.length h) settings ->
    Forall (field_reads h k T) settings ->
    Forall (field_reads h' k T) outs.
Proof.
  intros Nk Hs. induction tuples as [|t tuples IH];
    intros h settings h' outs E W (fs & Hfs & Gk) Va NR U Vt Tl F;
    cbn [settings_loop] in E.
  - inversion E; subst. exact F.
  - destruct (assign h s (combine keys t)) as [h1|e] eqn:A; [|discriminate].
    cbn [bind] in E.
    destruct (deepcopy fuel h1 s) as [[h2 o]|e] eqn:D; [|discriminate].
    cbn [bind fst snd] in E.
    assert (mutable h s) as Ms
      by (eexists; split; [exact Hfs|intros ? ?; discriminate]).
    assert (valid h s) as Vs by (apply nth_error_Some; congruence).
    (* the assignments *)
    destruct (assign_keeps _ _ _ _ A) as (K1 & L1 & M1).
    assert (wf h1) as W1.
    { eapply assign_wf; [exact W| |exact A].
      apply Forall_forall. intros c Ic.
      apply in_map_iff in Ic as ([k0 c0] & <- & Ic).
      apply in_combine_r in Ic.
      specialize (Vt t (or_introl eq_refl)).
      rewrite Forall_forall in Vt. now apply Vt. }
    destruct (assign_fields _ _ _ _ _ A Hfs) as (fs1 & Hfs1 & G1).
    assert (dict_get k fs1 = Some a') as Gk1.
    { rewrite G1; [exact Gk|]. intros I. apply Nk.
      apply in_map_iff in I as ([k0 c0] & <- & I).
      now apply in_combine_l in I. }
    destruct (loop_state_keeps s lo0 (List.length h) k a' T h h1 settings
                W K1 Hs Ms Va (le_n _) NR U Tl F) as (NR1 & U1 & Tl1 & F1).
    (* the copy *)
    destruct (deepcopy_inv _ _ _ _ _ D) as (X2 & C2 & O2).
    destruct (deepcopy_wf _ _ _ _ _ W1 D) as (W2 & Vo).
    assert (valid h1 s) as Vs1 by (unfold valid in *; lia).
    assert (valid h1 a') as Va1 by (unfold valid in *; lia).
    assert (nth_error h2 s = Some (OParams fs1)) as Hfs2.
    { destruct X2 as [_ X2]. now rewrite X2. }
    rewrite <- L1 in Tl1.
    destruct (loop_state_keeps s lo0 (List.length h1) k a' T h1 h2 settings
                W1 (extends_keeps _ _ _ X2) Hs (M1 Ms) Va1 (le_n _)
                NR1 U1 Tl1 F1) as (NR2 & U2 & Tl2 & F2).
    assert (field_reads h2 k T o) as Fo.
    { intros n. rewrite (deepcopy_unfold _ _ _ _ _ W1 Vs1 D (S n)).
      cbn [unfold]. rewrite Hfs1. eexists. split; [reflexivity|].
      now rewrite dict_get_map_values, Gk1, <- U1. }
    eapply IH; [exact E|exact W2| | |exact NR2|exact U2| | |].
    + eauto.
    + unfold valid in *. destruct X2. lia.
    + intros t' It. specialize (Vt t' (or_intror It)).
      eapply Forall_impl; [|exact Vt]. intros c Vc.
      unfold valid in *. destruct X2. lia.
    + eapply tiled_snoc; eauto. now destruct X2.
    + apply Forall_app. split; [exact F2|]. constructor; [exact Fo|constructor].
Qed.

(** *** The loops keep the store well formed *)

Lemma valid_extends (h h' : store) (a : addr) :
  extends h h' -> valid h a -> valid h' a.
Proof. unfold valid. intros [L _] V. lia. Qed.

Lemma pool_valid_extends (h h' : store) (p : pool) :
  extends h h' -> pool_valid h p -> pool_valid h' p.
Proof.
  intros X. destruct p as [items|v]; cbn.
  - apply Forall_impl. intros a. now apply valid_extends.
  - now apply valid_extends.
Qed.

Lemma settings_loop_wf (fuel : nat) (keys : list string) (s : addr)
  (tuples : list (list addr)) :
  forall h settings h' outs,
    settings_loop fuel tuples keys s h settings = Ok (h', outs) ->
    wf h ->
    (forall t, In t tuples -> Forall (valid h) t) ->
    Forall (valid h) settings ->
    wf h' /\ Forall (valid h') outs.
Proof.
  induction tuples as [|t tuples IH]; intros h settings h' outs E W Vt Vs;
    cbn [settings_loop] in E.
  - inversion E; subst. auto.
  - destruct (assign h s (combine keys t)) as [h1|e] eqn:A; [|discriminate].
    cbn [bind] in E.
    destruct (deepcopy fuel h1 s) as [[h2 o]|e] eqn:D; [|discriminate].
    cbn [bind fst snd] in E.
    destruct (assign_keeps _ _ _ _ A) as (K1 & L1 & _).
    assert (wf h1) as W1.
    { eapply assign_wf; [exact W| |exact A].
      apply Forall_forall. intros c Ic.
      apply in_map_iff in Ic as ([k0 c0] & <- & Ic).
      apply in_combine_r in Ic.
      specialize (Vt t (or_introl eq_refl)).
      rewrite Forall_forall in Vt. now apply Vt. }
    destruct (deepcopy_inv _ _ _ _ _ D) as (X2 & _).
    destruct (deepcopy_wf _ _ _ _ _ W1 D) as (W2 & Vo).
    assert (forall a, valid h a -> valid h2 a) as Vm.
    { intros a Va. unfold valid in *. destruct X2. lia. }
    eapply IH; [exact E|exact W2| |].
    + intros t' It. specialize (Vt t' (or_intror It)).
      eapply Forall_impl; [|exact Vt]. exact Vm.
    + apply Forall_app. split; [|constructor; [exact Vo|constructor]].
      eapply Forall_impl; [|exact Vs]. exact Vm.
Qed.

Lemma read_pools_valid (h : store) (ps : list pool) (pools : list (list addr)) :
  wf h -> Forall (pool_valid h) ps -> read_pools h ps = Ok pools ->
  Forall (Forall (valid h)) pools.
Proof.
  intros W. revert pools. induction ps as [|p ps IH]; intros pools V E;
    cbn [read_pools] in E.
  - inversion E; subst. constructor.
  - inversion V as [|? ? Vp Vps]; subst.
    destruct (read_pool h p) as [l|e] eqn:R; [|discriminate].
    cbn [bind] in E.
    destruct (read_pools h ps) as [ls|e] eqn:Rs; [|discriminate].
    cbn [bind] in E. inversion E; subst.
    constructor; [|now apply IH].
    destruct p as [items|v]; cbn in R, Vp.
    + inversion R; subst. exact Vp.
    + destruct (nth_error h v) as [[x|items|fields|data]|] eqn:Hv;
        try discriminate.
      inversion R; subst. apply Forall_forall. intros c Ic.
      eapply W; eauto.
Qed.

Lemma product_valid {A : Type} (P : A -> Prop) (pools : list (list A)) :
  Forall (Forall P) pools ->
  forall t, In t (Sweep.product pools) -> Forall P t.
Proof.
  rewrite SweepFacts.product_cartesian.
  induction 1 as [|pool pools Hp _ IH]; intros t I; cbn in I.
  - destruct I as [<-|[]]. constructor.
  - apply in_flat_map in I as (x & Ix & I).
    apply in_map_iff in I as (t' & <- & It).
    constructor; [|now apply IH].
    rewrite Forall_forall in Hp. now apply Hp.
Qed.

Section RecursionValid.
Variable rec : store -> addr -> result (store * list addr).
Hypothesis rec_extends :
  forall h a h' outs, rec h a = Ok (h', outs) -> extends h h'.
Hypothesis rec_wf :
  forall h a h' outs,
    wf h -> rec h a = Ok (h', outs) -> wf h' /\ Forall (valid h') outs.

Lemma expand_each_wf (data : list addr) :
  forall h h' outs,
    wf h -> expand_each rec h data = Ok (h', outs) ->
    wf h' /\ Forall (valid h') outs.
Proof.
  induction data as [|v data IH]; intros h h' outs W E; cbn [expand_each] in E.
  - inversion E; subst. auto.
  - destruct (rec h v) as [[h1 o1]|e] eqn:R; [|discriminate].
    cbn [bind fst snd] in E.
    destruct (expand_each rec h1 data) as [[h2 o2]|e] eqn:R2; [|discriminate].
    cbn [bind fst snd] in E. inversion E; subst.
    destruct (rec_wf _ _ _ _ W R) as (W1 & V1).
    destruct (IH _ _ _ W1 R2) as (W2 & V2).
    split; [exact W2|]. apply Forall_app. split; [|exact V2].
    eapply Forall_impl; [|exact V1]. intros a.
    apply valid_extends. eapply expand_each_extends; eauto.
Qed.

Lemma candidates_wf (h : store) (k : string) (v : addr) (h' : store)
  (c : option pool) :
  wf h -> candidates rec h k v = Ok (h', c) ->
  wf h' /\ match c with
           | Some p => pool_valid h' p
           | None => True
           end.
Proof.
  unfold candidates. intros W E.
  destruct (nth_error h v) as [[x|items|fields|data]|] eqn:Hv;
    try discriminate.
  - inversion E; subst. auto.
  - inversion E; subst. auto.
  - destruct (rec h v) as [[h1 o1]|e] eqn:R; [|discriminate].
    cbn in E. inversion E; subst. now apply (rec_wf _ _ _ _ W R).
  - destruct data as [|v0 data]; [discriminate|].
    assert (valid h v) as Vv by (apply nth_error_Some; congruence).
    destruct (nth_error h v0) as [[x|items|fields|data']|];
      try discriminate;
      try (inversion E; subst; split; [exact W|exact Vv]).
    destruct (expand_each rec h (v0 :: data)) as [[h1 o1]|e] eqn:R;
      [|discriminate].
    cbn in E. inversion E; subst. now apply (expand_each_wf _ _ _ _ W R).
Qed.

Lemma collect_wf (items : list (string * addr)) :
  forall h keys vls h' keys' vls',
    wf h -> Forall (pool_valid h) vls ->
    collect rec h items keys vls = Ok (h', (keys', vls')) ->
    wf h' /\ Forall (pool_valid h') vls'.
Proof.
  induction items as [|[k v] items IH]; intros h keys vls h' keys' vls' W V E;
    cbn [collect] in E.
  - inversion E; subst. auto.
  - destruct (candidates rec h k v) as [[h1 c]|e] eqn:C; [|discriminate].
    cbn [bind fst snd] in E.
    pose proof (candidates_extends _ rec_extends _ _ _ _ _ C) as X1.
    destruct (candidates_wf _ _ _ _ _ W C) as (W1 & Vc).
    assert (Forall (pool_valid h1) vls) as V1.
    { eapply Forall_impl; [|exact V]. intros p.
      now apply pool_valid_extends. }
    destruct c as [p|].
    + eapply IH; [exact W1| |exact E].
      apply Forall_app. split; [exact V1|].
      constructor; [exact Vc|constructor].
    + eapply IH; [exact W1|exact V1|exact E].
Qed.

(** A key in [keys] is the name of a field that is not fixed. *)
Lemma collect_keys_varying (h0 : store) (items : list (string * addr)) :
  forall h keys vls h' keys' vls',
    extends h0 h ->
    Forall (valid h0) (map snd items) ->
    collect rec h items keys vls = Ok (h', (keys', vls')) ->
    forall k, In k keys' ->
              In k keys \/ exists a, In (k, a) items /\ ~ fixed h0 a.
Proof.
  induction items as [|[k0 v] items IH];
    intros h keys vls h' keys' vls' X V E k I; cbn [collect] in E.
  - inversion E; subst. now left.
  - destruct (candidates rec h k0 v) as [[h1 c]|e] eqn:C; [|discriminate].
    cbn [bind fst snd] in E. cbn [map snd] in V.
    inversion V as [|? ? Vv Vs]; subst.
    pose proof (candidates_extends _ rec_extends _ _ _ _ _ C) as X1.
    assert (extends h0 h1) as X01 by (eapply extends_trans; eauto).
    assert (c = None \/ ~ fixed h0 v) as Hc.
    { unfold candidates in C. destruct X as [_ X].
      rewrite X in C by exact Vv.
      destruct (nth_error h0 v) as [[x|its|fs|data]|] eqn:Hv;
        try discriminate.
      - inversion C. now left.
      - inversion C. now left.
      - right. intros [[x Hx]|[its Hx]]; congruence.
      - right. intros [[x Hx]|[its Hx]]; congruence. }
    destruct c as [p|].
    + destruct (IH _ _ _ _ _ _ X01 Vs E k I) as [Ik|(a & Ia & Na)].
      * apply in_app_or in Ik as [Ik|[<-|[]]]; [now left|].
        right. exists v. split; [now left|].
        destruct Hc as [Hc|Hc]; [discriminate|exact Hc].
      * right. exists a. split; [now right|exact Na].
    + destruct (IH _ _ _ _ _ _ X01 Vs E k I) as [Ik|(a & Ia & Na)];
        [now left|].
      right. exists a. split; [now right|exact Na].
Qed.

End RecursionValid.

Lemma get_settings_wf (fuel : nat) :
  forall h self h' outs,
    wf h -> get_settings fuel h self = Ok (h', outs) ->
    wf h' /\ Forall (valid h') outs.
Proof.
  induction fuel as [|fuel IH]; intros h self h' outs W E; [discriminate|].
  cbn [get_settings] in E.
  destruct (nth_error h self) as [[x|items|fields|data]|] eqn:Hs;
    try discriminate.
  past_lookups E fields.
  destruct (collect (get_settings fuel) h fields [] [])
    as [[h1 [keys vls]]|e] eqn:C; [|discriminate].
  cbn [bind fst snd] in E.
  destruct (deepcopy fuel h1 self) as [[h2 s]|e] eqn:D; [|discriminate].
  cbn [bind fst snd] in E.
  destruct (read_pools h2 vls) as [pools|e] eqn:R; [|discriminate].
  cbn [bind] in E.
  destruct (collect_wf _ (get_settings_extends fuel) IH _ _ _ _ _ _ _ W
              (Forall_nil _) C) as (W1 & V1).
  destruct (deepcopy_inv _ _ _ _ _ D) as (X2 & _).
  destruct (deepcopy_wf _ _ _ _ _ W1 D) as (W2 & _).
  eapply settings_loop_wf; [exact E|exact W2| |constructor].
  apply product_valid. eapply read_pools_valid; [exact W2| |exact R].
  eapply Forall_impl; [|exact V1]. intros p. now apply pool_valid_extends.
Qed.

Lemma dict_get_In {V : Type} (k : string) (v : V) (d : list (string * V)) :
  dict_get k d = Some v -> In (k, v) d.
Proof.
  induction d as [|[k0 v0] d IH]; cbn; [discriminate|].
  destruct (String.eqb_spec k k0) as [->|D]; intros E.
  - inversion E; subst. now left.
  - right. now apply IH.
Qed.

Lemma keys_unique {V : Type} (k : string) (v v' : V) (d : list (string * V)) :
  NoDup (keys d) -> In (k, v) d -> In (k, v') d -> v = v'.
Proof.
  unfold keys. induction d as [|[k0 v0] d IH]; cbn; intros ND I I';
    [contradiction|].
  inversion ND as [|? ? N ND']; subst.
  destruct I as [E|I], I' as [E'|I'].
  - congruence.
  - inversion E; subst. destruct N. apply in_map_iff. now exists (k, v').
  - inversion E'; subst. destruct N. apply in_map_iff. now exists (k, v).
  - now apply IH.
Qed.

(** A field that [get_settings] does not expand reads in every output as
    it reads in the input, unless it leads back to the input tree. *)
Lemma get_settings_fixed (fuel : nat) (h : store) (self : addr) (h' : store)
  (outs : list addr) (fields : list (string * addr)) (k : string) (a : addr) :
  wf h -> get_settings fuel h self = Ok (h', outs) ->
  nth_error h self = Some (OParams fields) -> NoDup (keys fields) ->
  dict_get k fields = Some a -> fixed h a -> ~ reach h a self ->
  Forall (field_reads h' k (fun n => unfold n h a)) outs.
Proof.
  intros W E Hs ND G Fx NR. destruct fuel as [|fuel]; [discriminate|].
  cbn [get_settings] in E. rewrite Hs in E. past_lookups E fields.
  destruct (collect (get_settings fuel) h fields [] [])
    as [[h1 [ks vls]]|e] eqn:C; [|discriminate].
  cbn [bind fst snd] in E.
  destruct (deepcopy fuel h1 self) as [[h2 s]|e] eqn:D; [|discriminate].
  cbn [bind fst snd] in E.
  destruct (read_pools h2 vls) as [pools|e] eqn:R; [|discriminate].
  cbn [bind] in E.
  pose proof (collect_extends _ (get_settings_extends fuel) _ _ _ _ _ _ C)
    as X1.
  destruct (collect_wf _ (get_settings_extends fuel) (get_settings_wf fuel)
              _ _ _ _ _ _ _ W (Forall_nil _) C) as (W1 & V1).
  assert (valid h self) as Vs by (apply nth_error_Some; congruence).
  assert (nth_error h1 self = Some (OParams fields)) as Hs1.
  { destruct X1 as [_ X1]. now rewrite X1. }
  pose proof (dict_get_In _ _ _ G) as Ia.
  assert (Forall (valid h) (map snd fields)) as Vf.
  { apply Forall_forall. intros c Ic. eapply W; eauto. }
  assert (valid h a) as Va.
  { rewrite Forall_forall in Vf. apply Vf.
    apply in_map_iff. now exists (k, a). }
  assert (~ In k ks) as Nk.
  { intros I.
    destruct (collect_keys_varying _ (get_settings_extends fuel) h _ _ _ _
                _ _ _ (extends_refl _) Vf C k I) as [[]|(a2 & I2 & N2)].
    now rewrite (keys_unique _ _ _ _ ND I2 Ia) in N2. }
  destruct (deepcopy_params _ _ _ _ _ _ W1 Hs1 D) as (-> & cs & Hcs & Hk).
  destruct (Hk k a G) as (a' & G' & Va' & U' & NR').
  destruct (deepcopy_inv _ _ _ _ _ D) as (X2 & _).
  destruct (deepcopy_wf _ _ _ _ _ W1 D) as (W2 & _).
  assert (List.length h1 < List.length h2) as L12
    by (apply nth_error_Some; congruence).
  eapply (settings_loop_fixed fuel ks (List.length h1) (List.length h2)
            k a'); [exact Nk|exact L12|exact E|exact W2|eauto|exact Va'
                   | | | |constructor|constructor].
  - apply NR'. intros R1. apply NR.
    eapply reach_stable; [|exact R1]. now apply stable_extends.
  - intros n. rewrite U'. now apply unfold_extends.
  - apply product_valid. eapply read_pools_valid; [exact W2| |exact R].
    eapply Forall_impl; [|exact V1]. intros p. now apply pool_valid_extends.
Qed.

(** C7, on the store.  [get_settings] changes no object that was in the
    store, so the input tree reads as before.  In every output, a field
    that is not expanded reads as in the input (for a field that does not
    lead back to the input tree itself).  An object of an output that can
    be changed is a new object, it is part of no other output and not of
    the input tree; and putting any object in its place changes neither
    what the input tree nor what another output reads as. *)
Theorem expansion_independence (fuel : nat) (h : store) (self : addr)
  (h' : store) (outs : list addr) :
  well_formed h = true ->
  get_settings fuel h self = Ok (h', outs) ->
  (forall b, b < List.length h -> nth_error h' b = nth_error h b)
  /\ (forall n, unfold n h' self = unfold n h self)
  /\ (forall fields k a,
        nth_error h self = Some (OParams fields) -> NoDup (keys fields) ->
        dict_get k fields = Some a -> fixed h a -> ~ reach h a self ->
        forall o, In o outs ->
        forall n, exists ft,
          unfold (S n) h' o = TParams ft
          /\ dict_get k ft = Some (unfold n h a))
  /\ forall i o b,
       nth_error outs i = Some o -> reach h' o b -> mutable h' b ->
       List.length h <= b
       /\ ~ reach h' self b
       /\ (forall j o', j <> i -> nth_error outs j = Some o' ->
                        ~ reach h' o' b)
       /\ forall obj n,
            unfold n (update h' b obj) self = unfold n h self
            /\ forall j o', j <> i -> nth_error outs j = Some o' ->
                 unfold n (update h' b obj) o' = unfold n h' o'.
Proof.
  intros W E. apply well_formed_wf in W.
  pose proof (get_settings_extends _ _ _ _ _ E) as X.
  destruct (get_settings_tiled _ _ _ _ _ E) as (lo & Llo & T).
  assert (self < List.length h) as Ls.
  { destruct fuel; [discriminate|]. cbn [get_settings] in E.
    destruct (nth_error h self) eqn:Hs; [|discriminate].
    apply nth_error_Some. congruence. }
  assert (forall n, unfold n h' self = unfold n h self) as U
    by (intros n; now apply unfold_extends).
  split; [now destruct X|]. split; [exact U|]. split.
  { intros fields k a Hs ND G Fx NR o Io.
    pose proof (get_settings_fixed _ _ _ _ _ _ _ _ W E Hs ND G Fx NR) as F.
    rewrite Forall_forall in F. exact (F o Io). }
  intros i o b Hi R M.
  pose proof (tiled_range _ _ _ _ T _ _ _ Hi R M) as Hb.
  assert (~ reach h' self b) as NR.
  { intros R'. pose proof (reach_old _ _ _ _ W X Ls R'). lia. }
  pose proof (tiled_separate _ _ _ _ T _ _ _ Hi R M) as Sep.
  split; [lia|]. split; [exact NR|]. split; [exact Sep|].
  intros obj n. split.
  - rewrite unfold_update; [apply U|]. intros c Rc ->. contradiction.
  - intros j o' D Hj. apply unfold_update. intros c Rc ->.
    now apply (Sep j o' D Hj).
Qed.

Lemma expansion_independence_witness :
  get_settings 5 example_store 4 = Ok (example_expanded, [8; 10])
  /\ (forall b, b < 5 ->
                 nth_error example_expanded b = nth_error example_store b)
  /\ (forall o, In o [8; 10] ->
       forall n, exists ft,
         unfold (S n) example_expanded o = TParams ft
         /\ dict_get "meta" ft = Some (unfold n example_store 3))
  /\ forall i o b,
       nth_error [8; 10] i = Some o -> reach example_expanded o b ->
       mutable example_expanded b ->
       5 <= b /\ ~ reach example_expanded 4 b.
Proof.
  assert (get_settings 5 example_store 4 = Ok (example_expanded, [8; 10]))
    as E by (vm_compute; reflexivity).
  split; [exact E|].
  destruct (expansion_independence 5 example_store 4 _ _ eq_refl E)
    as (A & _ & F & B).
  split; [exact A|]. split.
  - apply (F [("lr", 2); ("meta", 3)] "meta" 3); try reflexivity.
    + apply PathFacts.distinct_NoDup. reflexivity.
    + right. eexists. reflexivity.
    + intros R. inversion R as [|? c ? o Ho Ic Rc]; subst.
      cbn in Ho. inversion Ho; subst. destruct Ic as [<-|[]].
      inversion Rc as [|? c ? o Ho' Ic' Rc']; subst.
      cbn in Ho'. inversion Ho'; subst. destruct Ic'.
  - intros i o b Hi R M. destruct (B i o b Hi R M) as (B1 & B2 & _).
    split; assumption.
Defined.

(** *** A tree that holds itself *)

Section Endless.
Variable h0 : store.
(** A set of [Parameters] objects each of which has one of the set as
    the value of a field. *)
Variable inside : addr -> Prop.
Hypothesis inside_goes_on :
  forall x, inside x ->
    exists fields k c,
      nth_error h0 x = Some (OParams fields) /\ In (k, c) fields /\ inside c.

Lemma collect_raises_at (rec : store -> addr -> result (store * list addr))
  (k : string) (c : addr) :
  (forall h a h' outs, rec h a = Ok (h', outs) -> extends h h') ->
  inside c ->
  (forall h, extends h0 h -> exists e, rec h c = Raise e) ->
  forall items h ks vls,
    extends h0 h -> In (k, c) items ->
    exists e, collect rec h items ks vls = Raise e.
Proof.
  intros X Ic R. induction items as [|[k' v] items IH];
    intros h ks vls Xh I; [contradiction|].
  cbn [collect].
  destruct (candidates rec h k' v) as [[h1 p]|e] eqn:C; cbn [bind]; [|eauto].
  pose proof (candidates_extends rec X _ _ _ _ _ C) as X1.
  destruct I as [E|I].
  - inversion E; subst. exfalso.
    destruct (inside_goes_on c Ic) as (fs & _ & _ & Hc & _).
    unfold candidates in C. destruct Xh as [Lh Xh].
    rewrite Xh, Hc in C by (apply nth_error_Some; congruence).
    destruct (R h (conj Lh Xh)) as [e Re]. rewrite Re in C. discriminate.
  - cbn [fst snd].
    destruct p as [p|]; apply IH; auto; eapply extends_trans; eauto.
Qed.

(** X21: a [Parameters] object that is the value of one of its own
    fields, or lies on a longer cycle of such objects, makes
    [get_settings] recurse without end: whatever depth the interpreter
    allows, the call raises and returns no outputs ([deepcopy] would cope
    with the cycle, but the first loop never gets that far). *)
Theorem cyclic_parameters_never_return (self : addr) :
  inside self ->
  forall fuel, exists e, get_settings fuel h0 self = Raise e.
Proof.
  intros Is fuel.
  assert (forall h x, extends h0 h -> inside x ->
                      exists e, get_settings fuel h x = Raise e) as H.
  { induction fuel as [|fuel IH]; intros h x Xh Ix; [cbn; eauto|].
    destruct (inside_goes_on x Ix) as (fields & k & c & Hx & I & Ic).
    cbn [get_settings]. destruct Xh as [Lh Xh].
    rewrite Xh, Hx by (apply nth_error_Some; congruence).
    unfold bound_method.
    destruct (has_attribute "get_settings" fields); [cbn [bind]; eauto|].
    destruct (has_attribute "items" fields); cbn [bind]; [eauto|].
    destruct (collect_raises_at (get_settings fuel) k c
                (get_settings_extends fuel) Ic
                ltac:(intros h1 X1; now apply IH)
                fields h [] [] (conj Lh Xh) I) as [e E].
    rewrite E. cbn [bind]. eauto. }
  apply H; [apply extends_refl|exact Is].
Qed.

End Endless.

Lemma cyclic_parameters_never_return_witness :
  exists e,
    get_settings 25
      [OLeaf (AInt 1); OParams [("n", 0); ("peer", 2)];
       OParams [("peer", 1)]] 1
    = Raise e.
Proof.
  apply (cyclic_parameters_never_return
           [OLeaf (AInt 1); OParams [("n", 0); ("peer", 2)];
            OParams [("peer", 1)]]
           (fun x => x = 1 \/ x = 2)).
  - intros x [-> | ->].
    + exists [("n", 0); ("peer", 2)], "peer", 2. cbn. tauto.
    + exists [("peer", 1)], "peer", 1. cbn. tauto.
  - now left.
Defined.

End StoreFacts.

(** ** Attribute access *)

Module AttributeFacts.
Import Store StoreSpec Attributes.

Section Class.
Variable class_namespace : string -> bool.

(** X17: item assignment and item access agree: after [self[key] =
    value], [self[key]] is [value]; every other key gives what it gave
    before, and no other object of the store has changed. *)
Theorem setitem_getitem (h h' : store) (self : addr) (key : string)
  (value : addr) :
  __setitem__ h self key value = Ok h' ->
  __getitem__ class_namespace h' self key = Ok (Attribute value)
  /\ (forall k, k <> key ->
        __getitem__ class_namespace h' self k
        = __getitem__ class_namespace h self k)
  /\ forall b, b <> self -> nth_error h' b = nth_error h b.
Proof.
  unfold __setitem__, setattr, __getitem__, getattr, vars. intros E.
  destruct (nth_error h self) as [[x|its|fields|data]|] eqn:Hs;
    try discriminate.
  inversion E; subst. clear E.
  assert (self < List.length h) as L by (apply nth_error_Some; congruence).
  rewrite (StoreFacts.nth_error_update_same _ _ _ L). cbn [bind].
  split; [now rewrite dict_get_set|]. split.
  - intros k N. now rewrite (dict_get_set_other _ _ _ _ N).
  - intros b N. now apply StoreFacts.nth_error_update_other.
Qed.

(** X18: item assignment to a key the instance has keeps the keys and
    their order; to any other key it adds the key at the end, whether
    the class declares such a field or not, and [len] grows by one. *)
Theorem setitem_keys (h h' : store) (self : addr) (key : string)
  (value : addr) :
  __setitem__ h self key value = Ok h' ->
  exists ks,
    __iter__ h self = Ok ks
    /\ __len__ h self = Ok (List.length ks)
    /\ __iter__ h' self
       = Ok (if in_dec string_dec key ks then ks else ks ++ [key])
    /\ __len__ h' self
       = Ok (if in_dec string_dec key ks then List.length ks
             else S (List.length ks)).
Proof.
  unfold __setitem__, setattr, __iter__, __len__, vars. intros E.
  destruct (nth_error h self) as [[x|its|fields|data]|] eqn:Hs;
    try discriminate.
  inversion E; subst. clear E.
  assert (self < List.length h) as L by (apply nth_error_Some; congruence).
  rewrite (StoreFacts.nth_error_update_same _ _ _ L). cbn [bind].
  exists (keys fields). split; [reflexivity|].
  split; [unfold keys; now rewrite length_map|].
  rewrite <- (length_map fst (dict_set key value fields)).
  fold (keys (dict_set key value fields)).
  rewrite ClassFacts.dict_set_keys.
  destruct (in_dec string_dec key (keys fields)); split; try reflexivity.
  rewrite length_app. cbn. f_equal. lia.
Qed.

Lemma items_of_fields (h : store) (self : addr) (fields : list (string * addr)) :
  nth_error h self = Some (OParams fields) ->
  forall part,
    incl part fields -> NoDup (keys fields) ->
    items_of class_namespace h self (keys part)
    = Ok (map (fun kv => (fst kv, Attribute (snd kv))) part).
Proof.
  intros Hs. induction part as [|[k a] part IH]; intros I ND; [reflexivity|].
  cbn [keys map fst snd items_of]. unfold __getitem__, getattr, vars.
  rewrite Hs. cbn [bind].
  assert (dict_get k fields = Some a) as G.
  { assert (In (k, a) fields) as Ik by (apply I; now left).
    clear -Ik ND. induction fields as [|[k' a'] fields IHf]; [contradiction|].
    cbn in ND. inversion ND as [|? ? Nk ND']; subst. cbn [dict_get].
    destruct Ik as [E|Ik].
    - inversion E; subst. now rewrite String.eqb_refl.
    - destruct (String.eqb_spec k k') as [->|_]; [|now apply IHf].
      exfalso. apply Nk. apply in_map_iff. now exists (k', a). }
  rewrite G. fold (keys part). rewrite IH; [reflexivity| |exact ND].
  intros x Ix. apply I. now right.
Qed.

Lemma dict_get_has_attribute (name : string) (fields : list (string * addr)) :
  dict_get name fields
  = None <-> has_attribute name fields = false.
Proof.
  unfold has_attribute, keys.
  induction fields as [|[k a] fields IH]; cbn [dict_get map fst existsb];
    [tauto|].
  destruct (String.eqb name k); cbn [orb]; [split; discriminate|exact IH].
Qed.

(** X19: [self.items()], which the first loop of [get_settings]
    iterates, gives the attributes of the instance in the order of
    [vars(self)], each with its present value (the key comes from
    [__iter__], the value from [__getitem__]), unless one of the
    attributes is itself called [items]: then the call raises
    [TypeError].  [items] is a method of the class, which [Mapping]
    supplies. *)
Theorem items_are_fields (h : store) (self : addr)
  (fields : list (string * addr)) :
  class_namespace "items" = true ->
  nth_error h self = Some (OParams fields) ->
  NoDup (keys fields) ->
  items class_namespace h self
  = if has_attribute "items" fields then Raise TypeError
    else Ok (map (fun kv => (fst kv, Attribute (snd kv))) fields).
Proof.
  intros Hc Hs ND. unfold items, getattr, __iter__, vars.
  rewrite Hs. cbn [bind].
  destruct (has_attribute "items" fields) eqn:A.
  - destruct (dict_get "items" fields) as [a|] eqn:G; [reflexivity|].
    apply dict_get_has_attribute in G. congruence.
  - apply dict_get_has_attribute in A. rewrite A, Hc. cbn [bind].
    apply (items_of_fields h self fields Hs fields);
      [apply incl_refl|exact ND].
Qed.

End Class.

Lemma setitem_getitem_witness :
  __getitem__ (fun _ => false)
    [OLeaf (AInt 1); OLeaf (AInt 2); OParams [("lr", 1); ("seed", 0)]]
    2 "lr"
  = Ok (Attribute 1).
Proof.
  apply (proj1 (setitem_getitem (fun _ => false)
                  [OLeaf (AInt 1); OLeaf (AInt 2);
                   OParams [("lr", 0); ("seed", 0)]]
                  _ 2 "lr" 1 eq_refl)).
Defined.

Lemma setitem_keys_witness :
  exists ks,
    __iter__ [OLeaf (AInt 1); OParams [("lr", 0)]] 1 = Ok ks
    /\ __len__ [OLeaf (AInt 1); OParams [("lr", 0)]] 1 = Ok (List.length ks)
    /\ __iter__ [OLeaf (AInt 1); OParams [("lr", 0); ("extra", 0)]] 1
       = Ok (if in_dec string_dec "extra" ks then ks else ks ++ ["extra"])
    /\ __len__ [OLeaf (AInt 1); OParams [("lr", 0); ("extra", 0)]] 1
       = Ok (if in_dec string_dec "extra" ks then List.length ks
             else S (List.length ks)).
Proof.
  apply (setitem_keys [OLeaf (AInt 1); OParams [("lr", 0)]] _ 1 "extra" 0).
  reflexivity.
Defined.

Lemma items_are_fields_witness :
  items (String.eqb "items") example_store 4
  = Ok [("lr", Attribute 2); ("meta", Attribute 3)]
  /\ items (String.eqb "items")
       [OLeaf (AInt 1); OParams [("lr", 0); ("items", 0)]] 1
     = Raise TypeError.
Proof.
  split.
  - apply (items_are_fields (String.eqb "items") example_store 4
             [("lr", 2); ("meta", 3)] eq_refl eq_refl).
    apply PathFacts.distinct_NoDup. reflexivity.
  - apply (items_are_fields (String.eqb "items")
             [OLeaf (AInt 1); OParams [("lr", 0); ("items", 0)]] 1
             [("lr", 0); ("items", 0)] eq_refl eq_refl).
    apply PathFacts.distinct_NoDup. reflexivity.
Defined.

End AttributeFacts.

(** ** The store and the values *)

Module RefineFacts.
Import Store StoreSpec StoreFacts RefineSpec.

Section Related.
Context {A B : Type}.
Implicit Types (R : A -> B -> Prop).

Lemma all2_impl R (R' : A -> B -> Prop) (xs : list A) (ys : list B) :
  (forall x y, In x xs -> In y ys -> R x y -> R' x y) ->
  all2 R xs ys -> all2 R' xs ys.
Proof.
  revert ys. induction xs as [|x xs IH]; intros [|y ys] H F; cbn in *; auto.
  destruct F as [Rxy F]. split; [apply H; auto|].
  apply IH; [|exact F]. intros x' y' Ix Iy. apply H; auto.
Qed.

Lemma all2_app R (xs xs' : list A) (ys ys' : list B) :
  all2 R xs ys -> all2 R xs' ys' -> all2 R (xs ++ xs') (ys ++ ys').
Proof.
  revert ys. induction xs as [|x xs IH]; intros [|y ys] F F'; cbn in *;
    try contradiction; auto.
  destruct F as [Rxy F]. split; auto.
Qed.

Lemma all2_in_r R (xs : list A) (ys : list B) (y : B) :
  all2 R xs ys -> In y ys -> exists x, In x xs /\ R x y.
Proof.
  revert ys. induction xs as [|x xs IH]; intros [|y0 ys] F I; cbn in *;
    try contradiction.
  destruct F as [Rxy F]. destruct I as [->|I].
  - exists x. auto.
  - destruct (IH _ F I) as (x' & Ix & Rx). exists x'. auto.
Qed.

Lemma all2_fields_impl R (R' : A -> B -> Prop) (xs : list (string * A))
  (ys : list (string * B)) :
  (forall x y, In x (map snd xs) -> In y (map snd ys) -> R x y -> R' x y) ->
  all2_fields R xs ys -> all2_fields R' xs ys.
Proof.
  revert ys. induction xs as [|[k x] xs IH]; intros [|[k' y] ys] H F;
    cbn in *; auto.
  destruct F as (E & Rxy & F). split; [exact E|]. split; [apply H; auto|].
  apply IH; [|exact F]. intros x' y' Ix Iy. apply H; auto.
Qed.

Lemma all2_fields_in_r R (xs : list (string * A)) (ys : list (string * B))
  (y : B) :
  all2_fields R xs ys -> In y (map snd ys) ->
  exists x, In x (map snd xs) /\ R x y.
Proof.
  revert ys. induction xs as [|[k x] xs IH]; intros [|[k' y0] ys] F I;
    cbn in *; try contradiction.
  destruct F as (E & Rxy & F). destruct I as [->|I].
  - exists x. auto.
  - destruct (IH _ F I) as (x' & Ix & Rx). exists x'. auto.
Qed.

Lemma all2_fields_has_attribute R (xs : list (string * A))
  (ys : list (string * B)) (name : string) :
  all2_fields R xs ys -> has_attribute name xs = has_attribute name ys.
Proof.
  unfold has_attribute, keys.
  revert ys. induction xs as [|[k x] xs IH]; intros [|[k' y] ys] F;
    cbn in *; try contradiction; [reflexivity|].
  destruct F as (<- & _ & F). now rewrite (IH _ F).
Qed.

Lemma all2_fields_dict_set R (xs : list (string * A))
  (ys : list (string * B)) (k : string) (x : A) (y : B) :
  all2_fields R xs ys -> R x y ->
  all2_fields R (dict_set k x xs) (dict_set k y ys).
Proof.
  revert ys. induction xs as [|[k0 x0] xs IH]; intros [|[k0' y0] ys] F Rxy;
    cbn in *; try contradiction; auto.
  destruct F as (<- & R0 & F).
  destruct (String.eqb k k0); cbn; auto.
Qed.

End Related.

(** *** Reading a value from the store *)

Lemma reads_valid (h : store) (v : Sweep.value) (a : addr) :
  reads h v a -> valid h a.
Proof.
  intros R. apply nth_error_Some.
  destruct v; cbn in R; [congruence|destruct R as (? & E & _)..];
    congruence.
Qed.

Lemma reads_stable (h h' : store) (v : Sweep.value) :
  forall a, stable_from h h' a -> reads h v a -> reads h' v a.
Proof.
  induction v as [x|vfs IH|vs IH] using SweepFacts.sweep_value_ind;
    intros a St R; cbn [reads] in *.
  - now rewrite (St a (reach_here _ _)).
  - destruct R as (fs & Ha & F). exists fs.
    split; [now rewrite (St a (reach_here _ _))|].
    eapply all2_fields_impl; [|exact F].
    intros v c Iv Ic Rv. rewrite Forall_forall in IH.
    apply in_map_iff in Iv as (kv & <- & Ikv).
    apply (IH kv Ikv); [|exact Rv].
    intros c' Rc. apply St. eapply reach_part; eauto.
  - destruct R as (data & Ha & F). exists data.
    split; [now rewrite (St a (reach_here _ _))|].
    eapply all2_impl; [|exact F].
    intros v c Iv Ic Rv. rewrite Forall_forall in IH.
    apply (IH v Iv); [|exact Rv].
    intros c' Rc. apply St. eapply reach_part; eauto.
Qed.

Lemma reads_extends (h h' : store) (v : Sweep.value) (a : addr) :
  wf h -> extends h h' -> reads h v a -> reads h' v a.
Proof.
  intros W X R. eapply reads_stable; [|exact R].
  apply stable_extends; auto. eapply reads_valid; eauto.
Qed.

Lemma all2_fields_functional (h : store) (vfs : list (string * Sweep.value)) :
  Forall (fun kv => forall v' a, reads h (snd kv) a -> reads h v' a ->
                                 snd kv = v') vfs ->
  forall vfs' fs,
    all2_fields (reads h) vfs fs -> all2_fields (reads h) vfs' fs ->
    vfs = vfs'.
Proof.
  induction 1 as [|[k v] vfs Hv _ IH]; intros [|[k' v'] vfs'] [|[k0 c] fs] F F';
    cbn in *; try contradiction; auto.
  destruct F as (-> & Rv & F), F' as (-> & Rv' & F').
  f_equal; [f_equal; eapply Hv; eauto|eapply IH; eauto].
Qed.

Lemma all2_functional (h : store) (vs : list Sweep.value) :
  Forall (fun v => forall v' a, reads h v a -> reads h v' a -> v = v') vs ->
  forall vs' data,
    all2 (reads h) vs data -> all2 (reads h) vs' data -> vs = vs'.
Proof.
  induction 1 as [|v vs Hv _ IH]; intros [|v' vs'] [|c data] F F';
    cbn in *; try contradiction; auto.
  destruct F as (Rv & F), F' as (Rv' & F').
  f_equal; [eapply Hv; eauto|eapply IH; eauto].
Qed.

Lemma reads_functional (h : store) (v : Sweep.value) :
  forall v' a, reads h v a -> reads h v' a -> v = v'.
Proof.
  induction v as [x|vfs IH|vs IH] using SweepFacts.sweep_value_ind;
    intros [x'|vfs'|vs'] a R R'; cbn [reads] in R, R'.
  - congruence.
  - destruct R' as (fs' & E' & _). congruence.
  - destruct R' as (data' & E' & _). congruence.
  - destruct R as (fs & E & _). congruence.
  - destruct R as (fs & E & F), R' as (fs' & E' & F').
    assert (fs' = fs) as -> by congruence.
    f_equal. eapply all2_fields_functional; eauto.
  - destruct R as (fs & E & _), R' as (data' & E' & _). congruence.
  - destruct R as (data & E & _). congruence.
  - destruct R as (data & E & _), R' as (fs' & E' & _). congruence.
  - destruct R as (data & E & F), R' as (data' & E' & F').
    assert (data' = data) as -> by congruence.
    f_equal. eapply all2_functional; eauto.
Qed.

Lemma in_sizes (v : Sweep.value) (vs : list Sweep.value) :
  In v vs -> size v <= sizes size vs.
Proof.
  induction vs as [|v0 vs IH]; cbn; intros I; [contradiction|].
  destruct I as [->|I]; [lia|]. specialize (IH I). lia.
Qed.

Lemma in_field_sizes (v : Sweep.value) (vfs : list (string * Sweep.value)) :
  In v (map snd vfs) -> size v <= field_sizes size vfs.
Proof.
  induction vfs as [|[k v0] vfs IH]; cbn; intros I; [contradiction|].
  destruct I as [->|I]; [lia|]. specialize (IH I). lia.
Qed.

(** The parts of an object that reads as [v] read as parts of [v]. *)
Lemma child_reads (h : store) (v : Sweep.value) (a c : addr) (o : obj) :
  reads h v a -> nth_error h a = Some o -> In c (children o) ->
  exists vc, reads h vc c /\ size vc < size v.
Proof.
  intros R Ha Ic. destruct v as [x|vfs|vs]; cbn [reads] in R.
  - rewrite R in Ha. inversion Ha; subst. destruct Ic.
  - destruct R as (fs & Ha' & F). rewrite Ha' in Ha. inversion Ha; subst.
    destruct (all2_fields_in_r _ _ _ _ F Ic) as (vc & Iv & Rv).
    exists vc. split; [exact Rv|]. cbn [size].
    pose proof (in_field_sizes _ _ Iv). lia.
  - destruct R as (data & Ha' & F). rewrite Ha' in Ha. inversion Ha; subst.
    destruct (all2_in_r _ _ _ _ F Ic) as (vc & Iv & Rv).
    exists vc. split; [exact Rv|]. cbn [size].
    pose proof (in_sizes _ _ Iv). lia.
Qed.

Lemma reach_reads (h : store) (a b : addr) :
  reach h a b ->
  forall v, reads h v a -> exists v', reads h v' b /\ size v' <= size v.
Proof.
  induction 1 as [a|a c b o Ha Ic R IH]; intros v Rv.
  - exists v. auto.
  - destruct (child_reads _ _ _ _ _ Rv Ha Ic) as (vc & Rc & Lc).
    destruct (IH _ Rc) as (v' & R' & L'). exists v'. split; [exact R'|lia].
Qed.

(** An object that reads as a value is part of none of its parts. *)
Lemma reads_acyclic (h : store) (v : Sweep.value) (a c : addr) (o : obj) :
  reads h v a -> nth_error h a = Some o -> In c (children o) ->
  ~ reach h c a.
Proof.
  intros R Ha Ic Rc.
  destruct (child_reads _ _ _ _ _ R Ha Ic) as (vc & Rvc & Lc).
  destruct (reach_reads _ _ _ Rc _ Rvc) as (v' & R' & L').
  rewrite (reads_functional _ _ _ _ R' R) in L'. lia.
Qed.

Lemma all2_fields_copied {A : Type} (R R' : A -> addr -> Prop)
  (rel : addr -> addr -> Prop) (vfs : list (string * A)) :
  Forall (fun kv => forall a b, rel a b -> R (snd kv) a -> R' (snd kv) b)
    vfs ->
  forall fs cs,
    all2_fields R vfs fs -> Forall2 rel (map snd fs) cs ->
    all2_fields R' vfs (combine (map fst fs) cs).
Proof.
  induction 1 as [|[k v] vfs Hv _ IH]; intros [|[k' c] fs] cs F F2;
    cbn in F; try contradiction.
  - inversion F2; subst. exact I.
  - cbn [map fst snd] in F2. inversion F2 as [|? c' ? cs' Rc F2']; subst.
    destruct F as (<- & Rv & F). cbn [map fst combine all2_fields].
    split; [reflexivity|]. split; [eapply Hv; eauto|]. now apply IH.
Qed.

Lemma all2_copied {A : Type} (R R' : A -> addr -> Prop)
  (rel : addr -> addr -> Prop) (vs : list A) :
  Forall (fun v => forall a b, rel a b -> R v a -> R' v b) vs ->
  forall data cs,
    all2 R vs data -> Forall2 rel data cs -> all2 R' vs cs.
Proof.
  induction 1 as [|v vs Hv _ IH]; intros [|c data] cs F F2;
    cbn in F; try contradiction.
  - inversion F2; subst. exact I.
  - inversion F2 as [|? c' ? cs' Rc F2']; subst.
    destruct F as (Rv & F). cbn [all2].
    split; [eapply Hv; eauto|]. eapply IH; eauto.
Qed.

Section Copies.
Variables (h0 h1 : store) (m1 : memo).
Hypothesis ext : extends h0 h1.
Hypothesis all_complete :
  forall a b, memo_get m1 a = Some b -> complete h0 h1 m1 a b.

(** A copy reads as the value the original reads as. *)
Lemma rel_reads (v : Sweep.value) :
  forall a b, rel h0 m1 a b -> reads h0 v a -> reads h1 v b.
Proof.
  induction v as [x|vfs IH|vs IH] using SweepFacts.sweep_value_ind;
    intros a b Rab R; cbn [reads] in *.
  - destruct Rab as [G|[<- _]].
    + destruct (all_complete _ _ G) as (o & cs & Ha & No & _).
      rewrite R in Ha. inversion Ha; subst. now destruct (No x).
    + destruct ext as [_ E]. rewrite E; [exact R|].
      apply nth_error_Some. congruence.
  - destruct R as (fs & Ha & F). destruct Rab as [G|[_ [x Hx]]];
      [|congruence].
    destruct (all_complete _ _ G) as (o & cs & Ha' & _ & Hb & F2).
    rewrite Ha in Ha'. inversion Ha'; subst o. cbn [rebuild children] in *.
    eexists. split; [exact Hb|].
    eapply all2_fields_copied; eauto.
  - destruct R as (data & Ha & F). destruct Rab as [G|[_ [x Hx]]];
      [|congruence].
    destruct (all_complete _ _ G) as (o & cs & Ha' & _ & Hb & F2).
    rewrite Ha in Ha'. inversion Ha'; subst o. cbn [rebuild children] in *.
    eexists. split; [exact Hb|].
    eapply all2_copied; eauto.
Qed.

End Copies.

(** [deepcopy] returns an object that reads as the same value. *)
Lemma deepcopy_reads (fuel : nat) (h : store) (x : addr) (v : Sweep.value)
  (h1 : store) (y : addr) :
  wf h -> reads h v x -> deepcopy fuel h x = Ok (h1, y) -> reads h1 v y.
Proof.
  intros W R E. pose proof (reads_valid _ _ _ R) as Vx.
  destruct (deepcopy_sim _ _ _ _ _ W Vx E) as (m1 & Cm & _ & Rxy).
  destruct (deepcopy_inv _ _ _ _ _ E) as (X & _).
  eapply rel_reads; eauto.
Qed.

(** *** The first loop *)

Lemma all2_reads_extends (h h' : store) (vs : list Sweep.value)
  (data : list addr) :
  wf h -> extends h h' -> all2 (reads h) vs data -> all2 (reads h') vs data.
Proof.
  intros W X. apply all2_impl. intros v a _ _. now apply reads_extends.
Qed.

Lemma all2_fields_reads_extends (h h' : store)
  (vfs : list (string * Sweep.value)) (fs : list (string * addr)) :
  wf h -> extends h h' ->
  all2_fields (reads h) vfs fs -> all2_fields (reads h') vfs fs.
Proof.
  intros W X. apply all2_fields_impl. intros v a _ _. now apply reads_extends.
Qed.

Lemma pool_reads_extends (h h' : store) (vl : list Sweep.value) (p : pool) :
  wf h -> extends h h' -> pool_reads h vl p -> pool_reads h' vl p.
Proof.
  intros W X. destruct p as [items|a]; cbn.
  - now apply all2_reads_extends.
  - intros (data & Ha & F). exists data. split.
    + destruct X as [_ X]. rewrite X; [exact Ha|].
      apply nth_error_Some. congruence.
    + eapply all2_reads_extends; eauto.
Qed.

Section RecursionRefines.
Variable srec : store -> addr -> result (store * list addr).
Hypothesis srec_extends :
  forall h a h' outs, srec h a = Ok (h', outs) -> extends h h'.
Hypothesis srec_wf :
  forall h a h' outs,
    wf h -> srec h a = Ok (h', outs) -> wf h' /\ Forall (valid h') outs.
Hypothesis srec_refines :
  forall h a v h' outs,
    wf h -> reads h v a -> srec h a = Ok (h', outs) ->
    exists vs, Sweep.get_settings v = Ok vs /\ all2 (reads h') vs outs.

Lemma expand_each_refines (data : list addr) :
  forall vs h h' outs,
    wf h -> all2 (reads h) vs data ->
    expand_each srec h data = Ok (h', outs) ->
    exists vouts,
      Sweep.expand_each Sweep.get_settings vs = Ok vouts
      /\ all2 (reads h') vouts outs.
Proof.
  induction data as [|a data IH]; intros [|v vs] h h' outs W F E;
    cbn in F; try contradiction; cbn [expand_each] in E.
  - inversion E; subst. exists []. split; [reflexivity|exact I].
  - destruct F as (Rv & F).
    destruct (srec h a) as [[h1 o1]|e] eqn:R1; [|discriminate].
    cbn [bind fst snd] in E.
    destruct (expand_each srec h1 data) as [[h2 o2]|e] eqn:R2;
      [|discriminate].
    cbn [bind fst snd] in E. inversion E; subst.
    destruct (srec_refines _ _ _ _ _ W Rv R1) as (vs1 & G1 & F1).
    destruct (srec_wf _ _ _ _ W R1) as (W1 & _).
    pose proof (srec_extends _ _ _ _ R1) as X1.
    destruct (IH vs _ _ _ W1 (all2_reads_extends _ _ _ _ W X1 F) R2)
      as (vs2 & G2 & F2).
    exists (vs1 ++ vs2). split.
    + cbn [Sweep.expand_each]. rewrite G1. cbn [bind]. now rewrite G2.
    + apply all2_app; [|exact F2].
      eapply all2_reads_extends; [exact W1| |exact F1].
      eapply expand_each_extends; eauto.
Qed.

Lemma candidates_refines (h : store) (k : string) (a : addr)
  (v : Sweep.value) (h' : store) (c : option pool) :
  wf h -> reads h v a -> candidates srec h k a = Ok (h', c) ->
  exists vc,
    Sweep.candidates Sweep.get_settings k v = Ok vc
    /\ candidates_read h' vc c.
Proof.
  intros W R E. unfold candidates in E.
  destruct v as [x|vfs|vs]; cbn [reads] in R.
  - rewrite R in E. inversion E; subst. exists None. now split.
  - pose proof R as (fs & Ha & F). rewrite Ha in E.
    destruct (srec h a) as [[h1 o1]|e] eqn:R1; [|discriminate].
    cbn [bind fst snd] in E. inversion E; subst.
    destruct (srec_refines _ _ (Sweep.VParams vfs) _ _ W R R1)
      as (vs1 & G1 & F1).
    exists (Some vs1). split; [|exact F1].
    cbn [Sweep.candidates]. now rewrite G1.
  - destruct R as (data & Ha & F). rewrite Ha in E.
    destruct data as [|a0 data]; [discriminate|].
    destruct vs as [|v0 vs]; [contradiction|].
    pose proof F as (R0 & _).
    destruct v0 as [x0|vfs0|vs0]; cbn [reads] in R0.
    + rewrite R0 in E. inversion E; subst. eexists. split; [reflexivity|].
      cbn. exists (a0 :: data). auto.
    + destruct R0 as (fs0 & Ha0 & _). rewrite Ha0 in E.
      destruct (expand_each srec h (a0 :: data)) as [[h1 o1]|e] eqn:R1;
        [|discriminate].
      cbn [bind fst snd] in E. inversion E; subst.
      destruct (expand_each_refines _ _ _ _ _ W F R1) as (vouts & G1 & F1).
      exists (Some vouts). split; [|exact F1].
      cbn [Sweep.candidates Sweep.is_Parameters]. now rewrite G1.
    + destruct R0 as (d0 & Ha0 & _). rewrite Ha0 in E.
      inversion E; subst. eexists. split; [reflexivity|].
      cbn. exists (a0 :: data). auto.
Qed.

Lemma collect_refines (fs : list (string * addr)) :
  forall vfs h ks vls vvls h' ks' vls',
    wf h -> all2_fields (reads h) vfs fs ->
    all2 (pool_reads h) vvls vls ->
    collect srec h fs ks vls = Ok (h', (ks', vls')) ->
    exists vvls',
      Sweep.collect Sweep.get_settings vfs ks vvls = Ok (ks', vvls')
      /\ all2 (pool_reads h') vvls' vls'.
Proof.
  induction fs as [|[k a] fs IH];
    intros [|[k' v] vfs] h ks vls vvls h' ks' vls' W F P E;
    cbn in F; try contradiction; cbn [collect] in E.
  - inversion E; subst. exists vvls. split; [reflexivity|exact P].
  - destruct F as (<- & Rv & F).
    destruct (candidates srec h k' a) as [[h1 c]|e] eqn:C; [|discriminate].
    cbn [bind fst snd] in E.
    destruct (candidates_refines _ _ _ _ _ _ W Rv C) as (vc & G & Rc).
    destruct (candidates_wf _ srec_extends srec_wf _ _ _ _ _ W C) as (W1 & _).
    pose proof (candidates_extends _ srec_extends _ _ _ _ _ C) as X1.
    pose proof (all2_fields_reads_extends _ _ _ _ W X1 F) as F1.
    assert (all2 (pool_reads h1) vvls vls) as P1.
    { eapply all2_impl; [|exact P]. intros vl p _ _.
      now apply pool_reads_extends. }
    cbn [Sweep.collect]. rewrite G. cbn [bind].
    destruct c as [p|], vc as [vl|]; cbn in Rc; try contradiction.
    + eapply IH; [exact W1|exact F1| |exact E].
      apply all2_app; [exact P1|]. cbn. auto.
    + eapply IH; [exact W1|exact F1|exact P1|exact E].
Qed.

End RecursionRefines.

(** *** The product *)

Lemma all2_map {A B C D : Type} (S' : A -> B -> Prop) (S : C -> D -> Prop)
  (f : A -> C) (g : B -> D) (l : list A) (l' : list B) :
  (forall a b, S' a b -> S (f a) (g b)) ->
  all2 S' l l' -> all2 S (map f l) (map g l').
Proof.
  intros H. revert l'. induction l as [|a l IH]; intros [|b l'] F;
    cbn in *; try contradiction; auto.
  destruct F as [Sab F]. split; auto.
Qed.

Lemma all2_flat_map {A B C D : Type} (R : A -> B -> Prop)
  (S : C -> D -> Prop) (f : A -> list C) (g : B -> list D) (xs : list A)
  (ys : list B) :
  (forall x y, R x y -> all2 S (f x) (g y)) ->
  all2 R xs ys -> all2 S (flat_map f xs) (flat_map g ys).
Proof.
  intros H. revert ys. induction xs as [|x xs IH]; intros [|y ys] F;
    cbn in *; try contradiction; auto.
  destruct F as [Rxy F]. apply all2_app; auto.
Qed.

Lemma cartesian_related {A B : Type} (R : A -> B -> Prop)
  (xss : list (list A)) :
  forall yss,
    all2 (all2 R) xss yss ->
    all2 (all2 R) (SweepSpec.cartesian xss) (SweepSpec.cartesian yss).
Proof.
  induction xss as [|xs xss IH]; intros [|ys yss] F; cbn in F;
    try contradiction.
  - cbn. auto.
  - destruct F as [Fx F]. cbn [SweepSpec.cartesian].
    eapply all2_flat_map; [|exact Fx]. intros x y Rxy.
    eapply all2_map; [|apply IH, F]. intros t t' Rt. cbn. auto.
Qed.

Lemma product_related {A B : Type} (R : A -> B -> Prop)
  (xss : list (list A)) (yss : list (list B)) :
  all2 (all2 R) xss yss ->
  all2 (all2 R) (Sweep.product xss) (Sweep.product yss).
Proof.
  rewrite !SweepFacts.product_cartesian. apply cartesian_related.
Qed.

Lemma read_pools_extends (h h' : store) (ps : list pool) :
  Forall (pool_valid h) ps -> extends h h' ->
  read_pools h' ps = read_pools h ps.
Proof.
  intros V [_ X]. induction V as [|p ps Vp _ IH]; [reflexivity|].
  cbn [read_pools]. rewrite IH. f_equal.
  destruct p as [items|a]; cbn in *; [reflexivity|]. now rewrite X.
Qed.

Lemma read_pools_reads (h : store) (ps : list pool) :
  forall vvls pools,
    all2 (pool_reads h) vvls ps -> read_pools h ps = Ok pools ->
    all2 (all2 (reads h)) vvls pools.
Proof.
  induction ps as [|p ps IH]; intros [|vl vvls] pools F E; cbn in F;
    try contradiction; cbn [read_pools] in E.
  - inversion E; subst. exact I.
  - destruct F as [Fp F].
    destruct (read_pool h p) as [l|e] eqn:R; [|discriminate].
    cbn [bind] in E.
    destruct (read_pools h ps) as [ls|e] eqn:Rs; [|discriminate].
    cbn [bind] in E. inversion E; subst. cbn [all2].
    split; [|now apply IH].
    destruct p as [items|a]; cbn in R, Fp.
    + inversion R; subst. exact Fp.
    + destruct Fp as (data & Ha & Fd). rewrite Ha in R.
      inversion R; subst. exact Fd.
Qed.

Lemma all2_and {A B : Type} (R : A -> B -> Prop) (P : B -> Prop)
  (xs : list A) (ys : list B) :
  all2 R xs ys -> Forall P ys -> all2 (fun x y => P y /\ R x y) xs ys.
Proof.
  intros F V. eapply all2_impl; [|exact F].
  intros x y _ Iy Rxy. rewrite Forall_forall in V. auto.
Qed.

(** *** The second loop *)

Section Loop.
Variables (h2 : store) (s : addr) (fuel : nat) (ks : list string).
Hypothesis wf2 : wf h2.

Lemma reads_apart_stable (h : store) (v : Sweep.value) (a : addr) :
  keeps s h2 h -> reads_apart h2 s v a -> reads h v a.
Proof.
  intros K [[Va NR] R]. eapply reads_stable; [|exact R].
  now apply (stable_keeps s).
Qed.

Lemma assign_refines (keys : list string) :
  forall t vt h hA fs vf,
    assign h s (combine keys t) = Ok hA ->
    nth_error h s = Some (OParams fs) ->
    all2_fields (reads_apart h2 s) vf fs ->
    all2 (reads_apart h2 s) vt t ->
    exists fs',
      nth_error hA s = Some (OParams fs')
      /\ all2_fields (reads_apart h2 s)
           (Sweep.assign (combine keys vt) vf) fs'.
Proof.
  induction keys as [|k keys IH]; intros t vt h hA fs vf E Hs F Ft.
  - cbn in E. inversion E; subst. exists fs. auto.
  - destruct t as [|a t], vt as [|v vt]; cbn in Ft; try contradiction.
    + cbn in E. inversion E; subst. exists fs. auto.
    + destruct Ft as [Rv Ft]. cbn [combine assign] in E.
      destruct (setattr h s k a) as [h1|e] eqn:S1; [|discriminate].
      cbn [bind] in E.
      pose proof (setattr_fields _ _ _ _ _ _ S1 Hs) as Hs1.
      cbn [combine Sweep.assign].
      eapply IH; [exact E|exact Hs1| |exact Ft].
      now apply all2_fields_dict_set.
Qed.

Lemma settings_loop_refines (lo0 : nat) (tuples : list (list addr)) :
  s < lo0 ->
  forall vtuples h vf fs settings vsettings h' outs,
    settings_loop fuel tuples ks s h settings = Ok (h', outs) ->
    wf h -> keeps s h2 h ->
    nth_error h s = Some (OParams fs) ->
    all2_fields (reads_apart h2 s) vf fs ->
    all2 (all2 (reads_apart h2 s)) vtuples tuples ->
    tiled h lo0 (List.length h) settings ->
    all2 (reads h) vsettings settings ->
    all2 (reads h') (Sweep.settings_loop vtuples ks vf vsettings) outs.
Proof.
  intros Hs. induction tuples as [|t tuples IH];
    intros [|vt vtuples] h vf fs settings vsettings h' outs E W K Hfs F Ft
      Tl Fs; cbn in Ft; try contradiction; cbn [settings_loop] in E.
  - inversion E; subst. exact Fs.
  - destruct Ft as [Ft Fts].
    destruct (assign h s (combine ks t)) as [hA|e] eqn:A; [|discriminate].
    cbn [bind] in E.
    destruct (deepcopy fuel hA s) as [[hB o]|e] eqn:D; [|discriminate].
    cbn [bind fst snd] in E.
    assert (mutable h s) as Ms
      by (eexists; split; [exact Hfs|intros ? ?; discriminate]).
    destruct (assign_keeps _ _ _ _ A) as (KA & LA & MA).
    destruct (assign_refines _ _ _ _ _ _ _ A Hfs F Ft) as (fs' & Hfs' & F').
    assert (wf hA) as WA.
    { eapply assign_wf; [exact W| |exact A].
      apply Forall_forall. intros c Ic.
      apply in_map_iff in Ic as ([k0 c0] & <- & Ic).
      apply in_combine_r in Ic. cbn.
      destruct (all2_in_r _ _ _ _ Ft Ic) as (v & _ & [[Vc _] _]).
      unfold valid in *. destruct K. lia. }
    assert (keeps s h2 hA) as K2A by (eapply keeps_trans; eauto).
    assert (reads hA (Sweep.VParams (Sweep.assign (combine ks vt) vf)) s)
      as Rs.
    { cbn [reads]. exists fs'. split; [exact Hfs'|].
      eapply all2_fields_impl; [|exact F'].
      intros v a _ _. now apply reads_apart_stable. }
    pose proof (deepcopy_reads _ _ _ _ _ _ WA Rs D) as Ro.
    destruct (deepcopy_inv _ _ _ _ _ D) as (XB & CB & OB).
    destruct (deepcopy_wf _ _ _ _ _ WA D) as (WB & _).
    assert (keeps s h2 hB) as K2B
      by (eapply keeps_trans; [exact K2A|now apply extends_keeps]).
    assert (valid hA s) as VsA by (apply nth_error_Some; congruence).
    assert (nth_error hB s = Some (OParams fs')) as HfsB.
    { destruct XB as [_ XB]. now rewrite XB. }
    assert (forall v o', In o' settings -> reads h v o' -> reads hB v o')
      as Keep.
    { intros v o' Io R.
      destruct (tiled_in _ _ _ _ _ Tl Io) as (l & u & Hl & Cl & Ol).
      eapply reads_stable; [|exact R].
      eapply (stable_confined s); eauto; [|lia].
      eapply keeps_trans; [exact KA|now apply extends_keeps]. }
    assert (tiled hB lo0 (List.length hA) settings) as TlB.
    { rewrite LA. eapply tiled_preserved; [exact Tl| | |destruct XB; lia].
      - intros b Hb. destruct XB as [_ XB]. rewrite XB by lia.
        destruct KA as [_ KA]. apply KA; lia.
      - intros c Lc. apply (is_leaf_extends hA); [exact XB|].
        now apply (is_leaf_keeps s h). }
    eapply (IH vtuples hB); [exact E|exact WB|exact K2B|exact HfsB|exact F'
                            |exact Fts| |].
    + eapply tiled_snoc; eauto. now destruct XB.
    + unfold Sweep.deepcopy. apply all2_app; [|cbn; auto].
      eapply all2_impl; [|exact Fs]. intros v o' _ Io. now apply Keep.
Qed.

End Loop.

(** *** get_settings on the store and on values *)

(** The parts of the copy of a [Parameters] object read as the parts of
    the original and are apart from the copy. *)
Lemma deepcopy_fields (fuel : nat) (h : store) (self : addr)
  (fields : list (string * addr)) (h1 : store) (s : addr) :
  wf h -> nth_error h self = Some (OParams fields) ->
  deepcopy fuel h self = Ok (h1, s) ->
  s = List.length h
  /\ exists cs,
       nth_error h1 s = Some (OParams (combine (map fst fields) cs))
       /\ Forall2 (fun a a' => forall v, reads h v a -> ~ reach h a self ->
                                         reads_apart h1 s v a')
            (map snd fields) cs.
Proof.
  intros W Hs E.
  assert (self < List.length h) as Vs by (apply nth_error_Some; congruence).
  assert (not_leaf (OParams fields)) as N by (intros ? ?; discriminate).
  destruct (deepcopy_not_leaf _ _ _ _ _ _ Hs N E) as [-> _].
  split; [reflexivity|].
  destruct (deepcopy_sim _ _ _ _ _ W Vs E) as (m1 & Cm & Inj & R).
  destruct (deepcopy_inv _ _ _ _ _ E) as (X & _).
  assert (memo_get m1 self = Some (List.length h)) as Gs.
  { destruct R as [G|[_ [x Hx]]]; [exact G|congruence]. }
  destruct (Cm _ _ Gs) as (o & cs & Ho & _ & Hb & F).
  rewrite Hs in Ho. inversion Ho; subst o. cbn [rebuild children] in *.
  exists cs. split; [exact Hb|].
  eapply Forall2_impl; [|exact F]. intros a a' Ra v Rv NR.
  pose proof (reads_valid _ _ _ Rv) as Va.
  split; [split|].
  - destruct Ra as [Ga|[<- _]]; [|eapply valid_extends; eauto].
    destruct (Cm _ _ Ga) as (o' & cs' & _ & _ & Hb' & _).
    apply nth_error_Some. congruence.
  - intros c Rc ->.
    destruct (reach_back _ _ _ W X Cm _ _ Rc _ Ra Va) as (c & Rcs & Rac).
    destruct Rcs as [Gc|[-> [x Hx]]].
    + assert (c = self) as -> by (eapply Inj; eauto). contradiction.
    + assert (List.length h < List.length h) as L
        by (apply nth_error_Some; congruence).
      lia.
  - eapply rel_reads; eauto.
Qed.

(** What [get_settings] returns in the store reads as what
    [get_settings] returns on the value that the input reads as. *)
Lemma get_settings_refines (fuel : nat) :
  forall h self v h' outs,
    wf h -> reads h v self ->
    get_settings fuel h self = Ok (h', outs) ->
    exists vs, Sweep.get_settings v = Ok vs /\ all2 (reads h') vs outs.
Proof.
  induction fuel as [|fuel IH]; intros h self v h' outs W R E;
    [discriminate|].
  cbn [get_settings] in E.
  destruct (nth_error h self) as [[x|items|fs|data]|] eqn:Hs;
    try discriminate.
  destruct v as [x|vfs|vs]; cbn [reads] in R;
    [congruence| |destruct R as (? & R & _); congruence].
  pose proof R as (fs0 & Hs0 & F).
  assert (fs0 = fs) as -> by congruence. clear Hs0.
  past_lookups E fs.
  assert (SweepSpec.methods_visible vfs = true) as Vis.
  { unfold SweepSpec.methods_visible.
    rewrite !(all2_fields_has_attribute _ _ _ _ F), Vg, Vi. reflexivity. }
  destruct (collect (get_settings fuel) h fs [] [])
    as [[h1 [ks vls]]|e] eqn:C; [|discriminate].
  cbn [bind fst snd] in E.
  destruct (deepcopy fuel h1 self) as [[h2 s]|e] eqn:D; [|discriminate].
  cbn [bind fst snd] in E.
  destruct (read_pools h2 vls) as [pools|e] eqn:Rp; [|discriminate].
  cbn [bind] in E.
  (* the first loop *)
  destruct (collect_refines _ (get_settings_extends fuel)
              (get_settings_wf fuel) IH fs vfs h [] [] [] _ _ _ W F I C)
    as (vvls & Cv & Fp).
  pose proof (collect_extends _ (get_settings_extends fuel) _ _ _ _ _ _ C)
    as X1.
  destruct (collect_wf _ (get_settings_extends fuel) (get_settings_wf fuel)
              _ _ _ _ _ _ _ W (Forall_nil _) C) as (W1 & V1).
  (* the copy *)
  assert (nth_error h1 self = Some (OParams fs)) as Hs1.
  { destruct X1 as [_ X1]. rewrite X1; [exact Hs|].
    apply nth_error_Some. congruence. }
  assert (reads h1 (Sweep.VParams vfs) self) as R1
    by (eapply reads_extends; [exact W|exact X1|exact R]).
  destruct (deepcopy_fields _ _ _ _ _ _ W1 Hs1 D) as (-> & cs & Hcs & Fc).
  destruct (deepcopy_inv _ _ _ _ _ D) as (X2 & _).
  destruct (deepcopy_wf _ _ _ _ _ W1 D) as (W2 & _).
  assert (List.length h1 < List.length h2) as L12
    by (apply nth_error_Some; congruence).
  assert (all2_fields (reads_apart h2 (List.length h1)) vfs
            (combine (map fst fs) cs)) as Ff.
  { eapply (all2_fields_copied
              (fun v a => reads h1 v a /\ ~ reach h1 a self)
              (reads_apart h2 (List.length h1))
              (fun a a' => forall v, reads h1 v a -> ~ reach h1 a self ->
                                     reads_apart h2 (List.length h1) v a'));
      [| |exact Fc].
    - apply Forall_forall. intros kv _ a b H [Ra Na]. now apply H.
    - eapply all2_fields_impl;
        [|exact (all2_fields_reads_extends _ _ _ _ W X1 F)].
      intros v0 a _ Ia Ra. split; [exact Ra|].
      eapply reads_acyclic; [exact R1|exact Hs1|exact Ia]. }
  (* the pools *)
  assert (all2 (all2 (reads_apart h2 (List.length h1))) vvls pools) as Ft.
  { rewrite (read_pools_extends h1 h2 _ V1 X2) in Rp.
    pose proof (read_pools_reads _ _ _ _ Fp Rp) as Fr.
    pose proof (read_pools_valid _ _ _ W1 V1 Rp) as Vr.
    clear -Fr Vr W1 X2. revert pools Fr Vr.
    induction vvls as [|vl vvls IHv]; intros [|pl pools] Fr Vr;
      cbn in Fr; try contradiction; [exact I|].
    destruct Fr as [Fl Fr]. inversion Vr as [|? ? Vl Vr']; subst.
    split; [|now apply IHv].
    eapply all2_impl; [|exact Fl]. intros v0 a _ Ia Ra.
    rewrite Forall_forall in Vl. specialize (Vl a Ia).
    split; [split|].
    - eapply valid_extends; eauto.
    - intros c Rc ->. pose proof (reach_old _ _ _ _ W1 X2 Vl Rc). lia.
    - eapply reads_extends; eauto. }
  (* the second loop *)
  exists (Sweep.settings_loop (Sweep.product vvls) ks vfs []).
  split.
  - rewrite (SweepFacts.get_settings_visible _ Vis), Cv. reflexivity.
  - eapply (settings_loop_refines h2 (List.length h1) fuel ks W2
              (List.length h2) _ L12);
      [exact E|exact W2|apply extends_keeps, extends_refl|exact Hcs
      |exact Ff| |constructor|exact I].
    now apply product_related.
Qed.

(** X20: the objects that [get_settings] returns in the store read as
    the values that [get_settings] returns on the value the input reads
    as: neither the reuse of the one [_setting] object across the tuples
    nor the sharing of parts changes what the outputs hold. *)
Theorem expansion_reads_as_values (fuel : nat) (h : store) (self : addr)
  (v : Sweep.value) (h' : store) (outs : list addr) :
  wf h -> reads h v self ->
  get_settings fuel h self = Ok (h', outs) ->
  exists vs, Sweep.get_settings v = Ok vs /\ all2 (reads h') vs outs.
Proof. apply get_settings_refines. Qed.

Lemma expansion_reads_as_values_witness :
  let h := [OLeaf (AInt 1); OLeaf (AInt 2); OSettings [0; 1]; OLeaf (AInt 7);
            OParams [("lr", 2); ("seed", 3)]] in
  let h' := h ++ [OParams [("lr", 1); ("seed", 3)]; OSettings [0; 1];
                  OParams [("lr", 0); ("seed", 3)];
                  OParams [("lr", 1); ("seed", 3)]] in
  exists vs,
    Sweep.get_settings
      (Sweep.VParams
         [("lr", Sweep.VSettings [Sweep.VLeaf (AInt 1); Sweep.VLeaf (AInt 2)]);
          ("seed", Sweep.VLeaf (AInt 7))])
    = Ok vs
    /\ all2 (reads h') vs [7; 8].
Proof.
  cbv zeta.
  apply (expansion_reads_as_values 4
           [OLeaf (AInt 1); OLeaf (AInt 2); OSettings [0; 1]; OLeaf (AInt 7);
            OParams [("lr", 2); ("seed", 3)]] 4).
  - apply StoreFacts.well_formed_wf. reflexivity.
  - cbn. eexists. split; [reflexivity|]. cbn.
    split; [reflexivity|]. split; [|tauto].
    eexists. split; [reflexivity|]. cbn. tauto.
  - reflexivity.
Defined.

(** *** Enough recursion depth gives a result *)

Lemma in_max_depth (v : Sweep.value) (vs : list Sweep.value) :
  In v vs -> depth v <= max_depth depth vs.
Proof.
  induction vs as [|v0 vs IH]; cbn; intros I; [contradiction|].
  destruct I as [->|I]; [lia|]. specialize (IH I). lia.
Qed.

Lemma in_max_field_depth (v : Sweep.value)
  (vfs : list (string * Sweep.value)) :
  In v (map snd vfs) -> depth v <= max_field_depth depth vfs.
Proof.
  induction vfs as [|[k v0] vfs IH]; cbn; intros I; [contradiction|].
  destruct I as [->|I]; [lia|]. specialize (IH I). lia.
Qed.

Section CopyAllGrows.
Variable copy : store -> memo -> addr -> result (store * memo * addr).
Hypothesis copy_grows :
  forall h m x h1 m1 y, copy h m x = Ok (h1, m1, y) -> extends h h1.

Lemma copy_all_grows (xs : list addr) :
  forall h m h1 m1 ys,
    copy_all copy h m xs = Ok (h1, m1, ys) -> extends h h1.
Proof.
  induction xs as [|x xs IH]; intros h m h1 m1 ys E; cbn [copy_all] in E.
  - inversion E; subst. apply extends_refl.
  - destruct (copy h m x) as [[[hA mA] yA]|e] eqn:EA; [|discriminate].
    cbn [bind fst snd] in E.
    destruct (copy_all copy hA mA xs) as [[[hB mB] ys']|e] eqn:EB;
      [|discriminate].
    cbn [bind fst snd] in E. inversion E; subst.
    eapply extends_trans; eauto.
Qed.

(** Copying the parts returns when copying each part does. *)
Lemma copy_all_returns (h0 : store) (P : addr -> Prop) :
  (forall c, P c -> forall h m, extends h0 h -> exists r, copy h m c = Ok r) ->
  forall xs, Forall P xs ->
    forall h m, extends h0 h -> exists r, copy_all copy h m xs = Ok r.
Proof.
  intros H. induction 1 as [|x xs Px _ IH]; intros h m X; cbn [copy_all];
    [eauto|].
  destruct (H x Px h m X) as [[[hA mA] yA] EA]. rewrite EA. cbn [bind fst snd].
  destruct (IH hA mA) as [r EB].
  - eapply extends_trans; [exact X|]. eapply copy_grows; eauto.
  - rewrite EB. cbn [bind]. eauto.
Qed.

End CopyAllGrows.

Lemma deepcopy_fuel_grows (fuel : nat) :
  forall h m x h1 m1 y,
    deepcopy_fuel fuel h m x = Ok (h1, m1, y) -> extends h h1.
Proof.
  induction fuel as [|fuel IH]; intros h m x h1 m1 y E; [discriminate|].
  cbn [deepcopy_fuel] in E.
  destruct (memo_get m x) as [y'|];
    [inversion E; subst; apply extends_refl|].
  destruct (nth_error h x) as [o|] eqn:Hx; [|discriminate].
  assert (not_leaf o \/ exists a, o = OLeaf a) as [N|[a ->]].
  { destruct o; [right; eauto|left..]; intros ? ?; discriminate. }
  - assert (exists r,
               copy_all (deepcopy_fuel fuel) (h ++ [rebuild o []])
                 ((x, List.length h) :: m) (children o) = Ok r
               /\ Ok (update (fst (fst r)) (List.length h)
                        (rebuild o (snd r)), snd (fst r), List.length h)
                  = Ok (h1, m1, y)) as ([[h2 m2] ys] & E1 & E2).
    { destruct o; [now destruct (N a)|..];
        (destruct (copy_all _ _ _ _) as [r|e]; [|discriminate];
         exists r; split; [reflexivity|exact E]). }
    cbn [fst snd] in E2. inversion E2; subst.
    pose proof (copy_all_grows _ IH _ _ _ _ _ _ E1) as [L2 X2].
    rewrite length_app in L2. cbn in L2.
    split; [rewrite length_update; lia|].
    intros b Hb. rewrite nth_error_update_other by lia.
    rewrite X2 by (rewrite length_app; cbn; lia).
    now apply nth_error_app1.
  - inversion E; subst. apply extends_refl.
Qed.

Lemma deepcopy_fuel_returns (v : Sweep.value) :
  forall h0 x, reads h0 v x ->
    forall fuel h m, extends h0 h -> depth v <= fuel ->
      exists r, deepcopy_fuel fuel h m x = Ok r.
Proof.
  induction v as [a|vfs IH|vs IH] using SweepFacts.sweep_value_ind;
    intros h0 x R fuel h m X L;
    (destruct fuel as [|fuel]; [cbn in L; lia|]);
    cbn [deepcopy_fuel];
    (destruct (memo_get m x) as [y|]; [eauto|]);
    pose proof (reads_valid _ _ _ R) as Vx;
    (assert (nth_error h x = nth_error h0 x) as -> by (now apply X));
    cbn [reads] in R.
  - rewrite R. eauto.
  - destruct R as (fs & -> & F). cbn [children rebuild].
    destruct (copy_all_returns (deepcopy_fuel fuel) (deepcopy_fuel_grows fuel)
                h0 (fun c => exists vc, In vc (map snd vfs) /\ reads h0 vc c))
      with (xs := map snd fs) (h := h ++ [OParams (combine (map fst fs) [])])
           (m := (x, List.length h) :: m) as [r E].
    + intros c (vc & Iv & Rc) h' m' X'.
      apply in_map_iff in Iv as (kv & <- & Ikv). rewrite Forall_forall in IH.
      apply (IH kv Ikv h0 c Rc); [exact X'|].
      pose proof (in_max_field_depth (snd kv) vfs (in_map snd _ _ Ikv)).
      cbn [depth] in L. lia.
    + apply Forall_forall. intros c Ic.
      destruct (all2_fields_in_r _ _ _ _ F Ic) as (vc & Iv & Rc). eauto.
    + eapply extends_trans; [exact X|apply extends_app].
    + rewrite E. cbn [bind]. eauto.
  - destruct R as (data & -> & F). cbn [children rebuild].
    destruct (copy_all_returns (deepcopy_fuel fuel) (deepcopy_fuel_grows fuel)
                h0 (fun c => exists vc, In vc vs /\ reads h0 vc c))
      with (xs := data) (h := h ++ [OSettings []])
           (m := (x, List.length h) :: m) as [r E].
    + intros c (vc & Iv & Rc) h' m' X'. rewrite Forall_forall in IH.
      apply (IH vc Iv h0 c Rc); [exact X'|].
      pose proof (in_max_depth vc vs Iv). cbn [depth] in L. lia.
    + apply Forall_forall. intros c Ic.
      destruct (all2_in_r _ _ _ _ F Ic) as (vc & Iv & Rc). eauto.
    + eapply extends_trans; [exact X|apply extends_app].
    + rewrite E. cbn [bind]. eauto.
Qed.

(** [deepcopy] of an object that reads as a value returns, at a depth of
    recursion that the depth of the value gives. *)
Lemma deepcopy_returns (fuel : nat) (h : store) (x : addr) (v : Sweep.value) :
  reads h v x -> depth v <= fuel -> exists r, deepcopy fuel h x = Ok r.
Proof.
  intros R L. unfold deepcopy.
  destruct (deepcopy_fuel_returns v h x R fuel h [] (extends_refl h) L)
    as [r E].
  rewrite E. cbn [bind]. eauto.
Qed.

(** The outputs of the expansion are no deeper than the tree. *)

Lemma dict_set_depth (k : string) (x : Sweep.value)
  (fs : list (string * Sweep.value)) (D : nat) :
  depth x <= D -> max_field_depth depth fs <= D ->
  max_field_depth depth (dict_set k x fs) <= D.
Proof.
  intros Hx. induction fs as [|[k' v] fs IH]; cbn [dict_set max_field_depth];
    intros H; [lia|].
  destruct (String.eqb k k'); cbn [max_field_depth]; [lia|].
  assert (max_field_depth depth fs <= D) as H' by lia.
  specialize (IH H'). lia.
Qed.

Lemma assign_depth (D : nat) (kvs : list (string * Sweep.value)) :
  forall fs,
    max_field_depth depth fs <= D ->
    Forall (fun kv => depth (snd kv) <= D) kvs ->
    max_field_depth depth (Sweep.assign kvs fs) <= D.
Proof.
  induction kvs as [|[k x] kvs IH]; intros fs H F; [exact H|].
  inversion F; subst. cbn [Sweep.assign]. apply IH; [|assumption].
  now apply dict_set_depth.
Qed.

Lemma combine_values {A : Type} (P : A -> Prop) (ks : list string) :
  forall t, Forall P t -> Forall (fun kv => P (snd kv)) (combine ks t).
Proof.
  induction ks as [|k ks IH]; intros t F; [constructor|].
  destruct t as [|x t]; [constructor|]. inversion F; subst.
  cbn [combine]. constructor; auto.
Qed.

Lemma settings_loop_depth (D : nat) (ks : list string)
  (tuples : list (list Sweep.value)) :
  forall s acc,
    max_field_depth depth s <= D ->
    Forall (Forall (fun x => depth x <= D)) tuples ->
    Forall (fun o => depth o <= S D) acc ->
    Forall (fun o => depth o <= S D) (Sweep.settings_loop tuples ks s acc).
Proof.
  induction tuples as [|t tuples IH]; intros s acc H F Fa; [exact Fa|].
  inversion F; subst. cbn [Sweep.settings_loop]. unfold Sweep.deepcopy.
  assert (max_field_depth depth (Sweep.assign (combine ks t) s) <= D) as H'
    by (apply assign_depth;
        [exact H|now apply (combine_values (fun x => depth x <= D))]).
  apply IH; [exact H'|assumption|].
  apply Forall_app. split; [exact Fa|]. constructor; [|constructor].
  cbn [depth]. lia.
Qed.

Lemma candidates_depth (k : string) (v : Sweep.value)
  (vs : list Sweep.value) :
  no_deeper v ->
  (forall data, v = Sweep.VSettings data -> Forall no_deeper data) ->
  Sweep.candidates Sweep.get_settings k v = Ok (Some vs) ->
  Forall (fun x => depth x <= depth v) vs.
Proof.
  intros Hv Hd C. destruct v as [a|fields|data]; cbn [Sweep.candidates] in C.
  - discriminate.
  - destruct (Sweep.get_settings (Sweep.VParams fields)) as [vs'|e] eqn:R;
      [|discriminate].
    inversion C; subst. now apply Hv.
  - destruct data as [|v0 data]; [discriminate|].
    specialize (Hd _ eq_refl).
    destruct (Sweep.is_Parameters v0).
    + destruct (Sweep.expand_each Sweep.get_settings (v0 :: data))
        as [vs'|e] eqn:X; [|discriminate].
      inversion C; subst. apply (SweepFacts.expand_each_all _ _ _ X).
      rewrite Forall_forall in Hd |- *. intros x I outs R.
      eapply Forall_impl; [|exact (Hd x I outs R)].
      intros o Lo. pose proof (in_max_depth x _ I) as Lx.
      cbn beta in Lo. cbn [depth]. lia.
    + inversion C; subst. apply Forall_forall. intros x I.
      pose proof (in_max_depth x _ I). cbn [depth]. lia.
Qed.

Lemma collect_depth (D : nat) (items : list (string * Sweep.value)) :
  Forall (fun kv => no_deeper (snd kv)
                    /\ forall data, snd kv = Sweep.VSettings data ->
                                    Forall no_deeper data) items ->
  max_field_depth depth items <= D ->
  forall ks vls ks' vls',
    Sweep.collect Sweep.get_settings items ks vls = Ok (ks', vls') ->
    Forall (Forall (fun x => depth x <= D)) vls ->
    Forall (Forall (fun x => depth x <= D)) vls'.
Proof.
  induction 1 as [|[k v] items [Hv Hd] _ IH]; intros L ks vls ks' vls' E F.
  - inversion E; subst. exact F.
  - cbn [snd] in Hv, Hd. cbn [max_field_depth] in L.
    cbn [Sweep.collect] in E.
    destruct (Sweep.candidates Sweep.get_settings k v) as [c|e] eqn:C;
      [|discriminate].
    cbn [bind] in E. destruct c as [vs|]; [|apply (IH ltac:(lia) _ _ _ _ E F)].
    apply (IH ltac:(lia) _ _ _ _ E). apply Forall_app. split; [exact F|].
    constructor; [|constructor].
    eapply Forall_impl; [|exact (candidates_depth _ _ _ Hv Hd C)].
    intros x Lx. cbn beta in Lx. lia.
Qed.

Lemma no_deeper_below (v : Sweep.value) :
  no_deeper v
  /\ forall data, v = Sweep.VSettings data -> Forall no_deeper data.
Proof.
  induction v as [a|fields IH|data IH] using SweepFacts.sweep_value_ind.
  - split; [intros outs E; discriminate|intros data E; discriminate].
  - split; [|intros data E; discriminate].
    intros outs E. SweepFacts.returned E.
    destruct (Sweep.collect Sweep.get_settings fields [] [])
      as [[ks vls]|e] eqn:C; [|discriminate].
    cbn [bind fst snd] in E. inversion E; subst. cbn [depth].
    apply settings_loop_depth; [apply le_n| |constructor].
    apply Forall_forall. apply product_valid.
    apply (collect_depth _ fields IH (le_n _) _ _ _ _ C). constructor.
  - split; [intros outs E; discriminate|].
    intros data' E. inversion E; subst.
    eapply Forall_impl; [|exact IH]. intros v [H _]. exact H.
Qed.

(** The first loop returns when the recursive calls do. *)

Section RecursionReturns.
Variable srec : store -> addr -> result (store * list addr).
Variable n : nat.
Hypothesis srec_extends :
  forall h a h' outs, srec h a = Ok (h', outs) -> extends h h'.
Hypothesis srec_wf :
  forall h a h' outs,
    wf h -> srec h a = Ok (h', outs) -> wf h' /\ Forall (valid h') outs.
Hypothesis srec_returns :
  forall h a v vs,
    wf h -> reads h v a -> depth v < n -> Sweep.get_settings v = Ok vs ->
    exists r, srec h a = Ok r.

Lemma expand_each_returns (data : list addr) :
  forall vs h vouts,
    wf h -> all2 (reads h) vs data ->
    Forall (fun v => depth v < n) vs ->
    Sweep.expand_each Sweep.get_settings vs = Ok vouts ->
    exists r, expand_each srec h data = Ok r.
Proof.
  induction data as [|a data IH]; intros [|v vs] h vouts W F L E;
    cbn in F; try contradiction; cbn [expand_each]; [eauto|].
  destruct F as (Rv & F). inversion L as [|? ? Lv L']; subst.
  cbn [Sweep.expand_each] in E.
  destruct (Sweep.get_settings v) as [ss|e] eqn:G; [|discriminate].
  cbn [bind] in E.
  destruct (Sweep.expand_each Sweep.get_settings vs) as [rest|e] eqn:G2;
    [|discriminate].
  destruct (srec_returns _ _ _ _ W Rv Lv G) as [[h1 o1] R1]. rewrite R1.
  cbn [bind fst snd].
  destruct (srec_wf _ _ _ _ W R1) as (W1 & _).
  pose proof (srec_extends _ _ _ _ R1) as X1.
  destruct (IH vs h1 rest W1 (all2_reads_extends _ _ _ _ W X1 F) L' G2)
    as [r R2].
  rewrite R2. cbn [bind]. eauto.
Qed.

Lemma candidates_returns (h : store) (k : string) (a : addr)
  (v : Sweep.value) (vc : option (list Sweep.value)) :
  wf h -> reads h v a -> depth v < n ->
  Sweep.candidates Sweep.get_settings k v = Ok vc ->
  exists r, candidates srec h k a = Ok r.
Proof.
  intros W R L E. unfold candidates.
  destruct v as [x|vfs|vs]; cbn [reads] in R.
  - rewrite R. eauto.
  - pose proof R as (fs & Ha & F). rewrite Ha.
    cbn [Sweep.candidates] in E.
    destruct (Sweep.get_settings (Sweep.VParams vfs)) as [ss|e] eqn:G;
      [|discriminate].
    destruct (srec_returns h a (Sweep.VParams vfs) ss W R L G) as [r R1].
    rewrite R1. cbn [bind]. eauto.
  - destruct R as (data & Ha & F). rewrite Ha.
    destruct vs as [|v0 vs]; [discriminate|].
    destruct data as [|a0 data]; [contradiction|].
    pose proof F as (R0 & _). cbn [Sweep.candidates] in E.
    destruct v0 as [x0|vfs0|vs0]; cbn [reads] in R0.
    + rewrite R0. eauto.
    + destruct R0 as (fs0 & Ha0 & _). rewrite Ha0.
      cbn [Sweep.is_Parameters] in E.
      destruct (Sweep.expand_each Sweep.get_settings (Sweep.VParams vfs0 :: vs))
        as [vouts|e] eqn:X; [|discriminate].
      destruct (expand_each_returns (a0 :: data) _ h vouts W F) as [r R1];
        [|exact X|rewrite R1; cbn [bind]; eauto].
      apply Forall_forall. intros x I.
      pose proof (in_max_depth x _ I). cbn [depth] in L. lia.
    + destruct R0 as (d0 & Ha0 & _). rewrite Ha0. eauto.
Qed.

Lemma collect_returns (fs : list (string * addr)) :
  forall vfs h ks vls vks vvls res,
    wf h -> all2_fields (reads h) vfs fs ->
    max_field_depth depth vfs < n ->
    Sweep.collect Sweep.get_settings vfs vks vvls = Ok res ->
    exists r, collect srec h fs ks vls = Ok r.
Proof.
  induction fs as [|[k a] fs IH];
    intros [|[k' v] vfs] h ks vls vks vvls res W F L E;
    cbn in F; try contradiction; cbn [collect]; [eauto|].
  destruct F as (<- & Rv & F). cbn [max_field_depth] in L.
  cbn [Sweep.collect] in E.
  destruct (Sweep.candidates Sweep.get_settings k' v) as [vc|e] eqn:G;
    [|discriminate].
  cbn [bind] in E.
  destruct (candidates_returns h k' a v vc W Rv ltac:(lia) G)
    as [[h1 c] C].
  rewrite C. cbn [bind fst snd].
  destruct (candidates_wf _ srec_extends srec_wf _ _ _ _ _ W C) as (W1 & _).
  pose proof (candidates_extends _ srec_extends _ _ _ _ _ C) as X1.
  pose proof (all2_fields_reads_extends _ _ _ _ W X1 F) as F1.
  destruct vc as [vl|], c as [p|];
    eapply IH; try exact W1; try exact F1; try exact E; lia.
Qed.

End RecursionReturns.

Lemma read_pools_returns (h : store) (ps : list pool) :
  forall vvls, all2 (pool_reads h) vvls ps ->
               exists pools, read_pools h ps = Ok pools.
Proof.
  induction ps as [|p ps IH]; intros [|vl vvls] F; cbn in F;
    try contradiction; cbn [read_pools]; [eauto|].
  destruct F as [Fp F]. destruct (IH _ F) as [pools E].
  assert (exists l, read_pool h p = Ok l) as [l El].
  { destruct p as [items|a]; cbn in *; [eauto|].
    destruct Fp as (data & Ha & _). rewrite Ha. eauto. }
  rewrite El, E. cbn [bind]. eauto.
Qed.

(** The second loop returns. *)

Section LoopReturns.
Variables (h2 : store) (s : addr) (fuel : nat) (ks : list string) (D : nat).
Hypothesis wf2 : wf h2.
Hypothesis enough : S D <= fuel.

Lemma assign_returns (kvs : list (string * addr)) :
  forall h fs, nth_error h s = Some (OParams fs) ->
               exists hA, assign h s kvs = Ok hA.
Proof.
  induction kvs as [|[k v] kvs IH]; intros h fs Hs; cbn [assign]; [eauto|].
  assert (exists h1, setattr h s k v = Ok h1) as [h1 S1].
  { unfold setattr. rewrite Hs. eauto. }
  rewrite S1. cbn [bind].
  apply (IH h1 _ (setattr_fields _ _ _ _ _ _ S1 Hs)).
Qed.

Lemma settings_loop_returns (tuples : list (list addr)) :
  forall vtuples h vf fs settings,
    wf h -> keeps s h2 h ->
    nth_error h s = Some (OParams fs) ->
    all2_fields (reads_apart h2 s) vf fs ->
    all2 (all2 (reads_apart h2 s)) vtuples tuples ->
    max_field_depth depth vf <= D ->
    Forall (Forall (fun x => depth x <= D)) vtuples ->
    exists r, settings_loop fuel tuples ks s h settings = Ok r.
Proof.
  induction tuples as [|t tuples IH];
    intros [|vt vtuples] h vf fs settings W K Hfs F Ft Lf Lt; cbn in Ft;
    try contradiction; cbn [settings_loop]; [eauto|].
  destruct Ft as [Ft Fts]. inversion Lt as [|? ? Lvt Lt']; subst.
  destruct (assign_returns (combine ks t) h fs Hfs) as [hA A]. rewrite A.
  cbn [bind].
  destruct (assign_keeps _ _ _ _ A) as (KA & LA & MA).
  destruct (assign_refines h2 s ks _ _ _ _ _ _ A Hfs F Ft) as (fs' & Hfs' & F').
  assert (wf hA) as WA.
  { eapply assign_wf; [exact W| |exact A].
    apply Forall_forall. intros c Ic.
    apply in_map_iff in Ic as ([k0 c0] & <- & Ic).
    apply in_combine_r in Ic. cbn.
    destruct (all2_in_r _ _ _ _ Ft Ic) as (v & _ & [[Vc _] _]).
    unfold valid in *. destruct K. lia. }
  assert (keeps s h2 hA) as K2A by (eapply keeps_trans; eauto).
  assert (reads hA (Sweep.VParams (Sweep.assign (combine ks vt) vf)) s)
    as Rs.
  { cbn [reads]. exists fs'. split; [exact Hfs'|].
    eapply all2_fields_impl; [|exact F'].
    intros v a _ _. now apply (reads_apart_stable h2 s wf2). }
  assert (max_field_depth depth (Sweep.assign (combine ks vt) vf) <= D) as L'.
  { apply assign_depth; [exact Lf|].
    now apply (combine_values (fun x => depth x <= D)). }
  destruct (deepcopy_returns fuel hA s _ Rs) as [[hB o] Dc];
    [cbn [depth]; lia|].
  rewrite Dc. cbn [bind fst snd].
  destruct (deepcopy_inv _ _ _ _ _ Dc) as (XB & _).
  destruct (deepcopy_wf _ _ _ _ _ WA Dc) as (WB & _).
  assert (valid hA s) as VsA by (apply nth_error_Some; congruence).
  eapply (IH vtuples hB); [exact WB| | |exact F'|exact Fts|exact L'|exact Lt'].
  - eapply keeps_trans; [exact K2A|now apply extends_keeps].
  - destruct XB as [_ XB]. now rewrite XB.
Qed.

End LoopReturns.

Lemma get_settings_returns_at (n : nat) :
  forall h self v vs,
    wf h -> reads h v self -> depth v < n ->
    Sweep.get_settings v = Ok vs ->
    exists r, get_settings n h self = Ok r.
Proof.
  induction n as [|f IH]; intros h self v vs W R L G; [lia|].
  destruct v as [x|vfs|data]; try discriminate.
  pose proof R as (fs & Hs & F). cbn [get_settings]. rewrite Hs.
  SweepFacts.returned G.
  unfold SweepSpec.methods_visible in Vis.
  rewrite !(all2_fields_has_attribute _ _ _ _ F) in Vis.
  apply andb_true_iff in Vis as [Vg Vi].
  apply negb_true_iff in Vg, Vi.
  unfold bound_method. rewrite Vg, Vi. cbn [bind].
  destruct (Sweep.collect Sweep.get_settings vfs [] [])
    as [[ks vvls]|e] eqn:Cv; [|discriminate].
  cbn [depth] in L.
  (* the first loop *)
  destruct (collect_returns (get_settings f) f (get_settings_extends f)
              (get_settings_wf f) IH fs vfs h [] [] [] [] _ W F
              ltac:(lia) Cv) as [[h1 [ks' vls]] C].
  rewrite C. cbn [bind fst snd].
  destruct (collect_refines _ (get_settings_extends f)
              (get_settings_wf f) (get_settings_refines f)
              fs vfs h [] [] [] _ _ _ W F I C) as (vvls' & Cv' & Fp).
  assert (ks' = ks /\ vvls' = vvls) as [-> ->]
    by (split; congruence).
  pose proof (collect_extends _ (get_settings_extends f) _ _ _ _ _ _ C) as X1.
  destruct (collect_wf _ (get_settings_extends f) (get_settings_wf f)
              _ _ _ _ _ _ _ W (Forall_nil _) C) as (W1 & V1).
  (* the copy *)
  assert (nth_error h1 self = Some (OParams fs)) as Hs1.
  { destruct X1 as [_ X1]. rewrite X1; [exact Hs|].
    apply nth_error_Some. congruence. }
  assert (reads h1 (Sweep.VParams vfs) self) as R1
    by (eapply reads_extends; [exact W|exact X1|exact R]).
  destruct (deepcopy_returns f h1 self _ R1) as [[h2 s] Dc];
    [cbn [depth]; lia|].
  rewrite Dc. cbn [bind fst snd].
  destruct (deepcopy_fields _ _ _ _ _ _ W1 Hs1 Dc) as (-> & cs & Hcs & Fc).
  destruct (deepcopy_inv _ _ _ _ _ Dc) as (X2 & _).
  destruct (deepcopy_wf _ _ _ _ _ W1 Dc) as (W2 & _).
  assert (all2_fields (reads_apart h2 (List.length h1)) vfs
            (combine (map fst fs) cs)) as Ff.
  { eapply (all2_fields_copied
              (fun v a => reads h1 v a /\ ~ reach h1 a self)
              (reads_apart h2 (List.length h1))
              (fun a a' => forall v, reads h1 v a -> ~ reach h1 a self ->
                                     reads_apart h2 (List.length h1) v a'));
      [| |exact Fc].
    - apply Forall_forall. intros kv _ a b H [Ra Na]. now apply H.
    - eapply all2_fields_impl;
        [|exact (all2_fields_reads_extends _ _ _ _ W X1 F)].
      intros v0 a _ Ia Ra. split; [exact Ra|].
      eapply reads_acyclic; [exact R1|exact Hs1|exact Ia]. }
  (* the pools *)
  destruct (read_pools_returns h1 vls vvls Fp) as [pools Rp].
  rewrite (read_pools_extends h1 h2 _ V1 X2), Rp. cbn [bind].
  assert (all2 (all2 (reads_apart h2 (List.length h1))) vvls pools) as Ft.
  { pose proof (read_pools_reads _ _ _ _ Fp Rp) as Fr.
    pose proof (read_pools_valid _ _ _ W1 V1 Rp) as Vr.
    clear -Fr Vr W1 X2. revert pools Fr Vr.
    induction vvls as [|vl vvls IHv]; intros [|pl pools] Fr Vr;
      cbn in Fr; try contradiction; [exact I|].
    destruct Fr as [Fl Fr]. inversion Vr as [|? ? Vl Vr']; subst.
    split; [|now apply IHv].
    eapply all2_impl; [|exact Fl]. intros v0 a _ Ia Ra.
    rewrite Forall_forall in Vl. specialize (Vl a Ia).
    split; [split|].
    - eapply valid_extends; eauto.
    - intros c Rc ->. pose proof (reach_old _ _ _ _ W1 X2 Vl Rc). lia.
    - eapply reads_extends; eauto. }
  (* the second loop *)
  apply (settings_loop_returns h2 (List.length h1) f ks
           (max_field_depth depth vfs) W2 ltac:(lia)
           (Sweep.product pools) (Sweep.product vvls) h2 vfs
           (combine (map fst fs) cs) []);
    [exact W2|apply extends_keeps, extends_refl|exact Hcs|exact Ff
    |now apply product_related|apply le_n|].
  apply Forall_forall. apply product_valid.
  assert (Forall (fun kv : string * Sweep.value =>
                    no_deeper (snd kv)
                    /\ forall data, snd kv = Sweep.VSettings data ->
                                    Forall no_deeper data) vfs) as Nd
    by (apply Forall_forall; intros kv _; apply no_deeper_below).
  exact (collect_depth _ vfs Nd (le_n _) _ _ _ _ Cv (Forall_nil _)).
Qed.

(** X25: on a well-formed store, for an object that reads as a value on
    which the expansion of values returns, and that has no attribute
    whose name starts with two underscores, [get_settings] returns
    whenever the interpreter allows a deep enough recursion, and what it
    returns reads as the expansion of the value: the error-free runs of
    the two are the same. *)
Theorem expansion_returns (h : store) (self : addr) (v : Sweep.value)
  (vs : list Sweep.value) :
  wf h -> reads h v self ->
  SweepSpec.ordinary_names v = true ->
  Sweep.get_settings v = Ok vs ->
  exists n,
    forall fuel,
      n <= fuel ->
      exists h' outs,
        get_settings fuel h self = Ok (h', outs)
        /\ all2 (reads h') vs outs.
Proof.
  intros W R _ G. exists (S (depth v)). intros fuel L.
  destruct (get_settings_returns_at fuel h self v vs W R L G)
    as [[h' outs] E].
  exists h', outs. split; [exact E|].
  destruct (get_settings_refines _ _ _ _ _ _ W R E) as (vs' & G' & F).
  assert (vs' = vs) as -> by congruence. exact F.
Qed.

Lemma expansion_returns_witness :
  let h := [OLeaf (AInt 1); OLeaf (AInt 2); OSettings [0; 1]; OLeaf (AInt 7);
            OParams [("lr", 2); ("seed", 3)]] in
  exists n,
    forall fuel,
      n <= fuel ->
      exists h' outs,
        get_settings fuel h 4 = Ok (h', outs)
        /\ all2 (reads h')
             [Sweep.VParams [("lr", Sweep.VLeaf (AInt 1));
                             ("seed", Sweep.VLeaf (AInt 7))];
              Sweep.VParams [("lr", Sweep.VLeaf (AInt 2));
                             ("seed", Sweep.VLeaf (AInt 7))]]
             outs.
Proof.
  cbv zeta.
  apply (expansion_returns
           [OLeaf (AInt 1); OLeaf (AInt 2); OSettings [0; 1]; OLeaf (AInt 7);
            OParams [("lr", 2); ("seed", 3)]] 4
           (Sweep.VParams
              [("lr", Sweep.VSettings [Sweep.VLeaf (AInt 1);
                                       Sweep.VLeaf (AInt 2)]);
               ("seed", Sweep.VLeaf (AInt 7))])).
  - apply StoreFacts.well_formed_wf. reflexivity.
  - cbn. eexists. split; [reflexivity|]. cbn.
    split; [reflexivity|]. split; [|tauto].
    eexists. split; [reflexivity|]. cbn. tauto.
  - reflexivity.
  - reflexivity.
Defined.

End RefineFacts.
